(** * Distributed Game of Life: worker, broker and controller

    A shallow embedding of the Go sources

      - [worker.go]       (type [Worker], method [ProcessPart]),
      - [broker.go]       (type [Broker], method [ProcessTurn]; two variants:
                           the broker with the cached world, and the older
                           copy under [gol-skeleton-master_副本/broker]),
      - [local broker]    ([ProcessTurnLocal], [countLiveNeighbors]),
      - [gol/distributor.go] (function [distributor], the controller, with
                           [deepCopyWorldUint8], [countAlive],
                           [getAliveCells], [saveWorld], [finalizeGame]),
      - the registration of the workers in the broker's [main]
                           ([registerWorker]) and the type [LocalBroker].

    Conventions of the embedding.

      - A Go [int] is a [Z] between [Int.min] and [Int.max] (64 bits, the
        platform of the brokers and workers).  Every addition,
        subtraction and multiplication of the code is written with
        [Int.add], [Int.sub] and [Int.mul], which wrap around.  Go's [/]
        and [%] truncate towards zero: they are [Z.quot] and [Z.rem], and
        panic on a zero divisor.  A loop counter that runs from [0] to a
        bound that is an [int] does not wrap, and is a [seqZ].
      - A [uint8] cell is a [Z]; the code only ever compares cells with
        [255] and writes [0] or [255].
      - A slice is a [list]; [len] is its length as a [Z].  Capacity is
        identified with length.  A [nil] slice is the empty list.
      - A function that returns a Go [error] returns a [result]: [Ok] for
        a [nil] error, [Err msg] for [fmt.Errorf(msg)], and [Panic] for a
        run-time panic (index out of range, slice bounds, division by
        zero, negative [make]). *)

From Stdlib Require Import ZArith Lia Ascii.
From stdpp Require Import base tactics option list list_numbers strings.

Local Open Scope Z_scope.

(** ** Results of fallible Go code *)

Inductive result (A : Type) : Type :=
  | Ok (a : A)
  | Err (msg : string)
  | Panic.
Arguments Ok {A} a.
Arguments Err {A} msg.
Arguments Panic {A}.

#[global] Instance result_ret : MRet result := λ A a, Ok a.
#[global] Instance result_bind : MBind result := λ A B f m,
  match m with
  | Ok a => f a
  | Err msg => Err msg
  | Panic => Panic
  end.

(** A left fold whose body may fail: the shape of a [for] loop that
    threads one accumulator. *)
Fixpoint foldM {A B : Type} (f : B → A → result B) (b : B) (l : list A)
  : result B :=
  match l with
  | [] => Ok b
  | a :: l => b' ← f b a; foldM f b' l
  end.

(** ** Go integers *)

Module Int.

Definition min : Z := -9223372036854775808.
Definition max : Z := 9223372036854775807.

(** The value of a 64-bit two's complement word. *)
Definition wrap (z : Z) : Z :=
  (z + 9223372036854775808) `mod` 18446744073709551616
  - 9223372036854775808.

Definition add (a b : Z) : Z := wrap (a + b).
Definition sub (a b : Z) : Z := wrap (a - b).
Definition mul (a b : Z) : Z := wrap (a * b).

(** [a / b] for [b] other than zero. *)
Definition quot (a b : Z) : Z := wrap (a ÷ b).

End Int.

Infix "⊕" := Int.add (at level 50, left associativity).
Infix "⊖" := Int.sub (at level 50, left associativity).
Infix "⊗" := Int.mul (at level 40, left associativity).

(** ** Go slices *)

Module Slice.

Definition len {A} (s : list A) : Z := Z.of_nat (length s).

(** [s[i]] *)
Definition at_ {A} (s : list A) (i : Z) : result A :=
  if 0 <=? i then
    match s !! Z.to_nat i with
    | Some a => Ok a
    | None => Panic
    end
  else Panic.

(** [s[i] = v] *)
Definition set_at {A} (s : list A) (i : Z) (v : A) : result (list A) :=
  if (0 <=? i) && (i <? len s) then Ok (<[Z.to_nat i := v]> s) else Panic.

(** [s[lo:hi]] *)
Definition slice {A} (s : list A) (lo hi : Z) : result (list A) :=
  if (0 <=? lo) && (lo <=? hi) && (hi <=? len s)
  then Ok (take (Z.to_nat (hi - lo)) (drop (Z.to_nat lo) s))
  else Panic.

(** [copy(dst, src)]: the first [min(len dst, len src)] elements of
    [dst] are overwritten. *)
Definition copy {A} (dst src : list A) : list A :=
  take (length dst) src ++ drop (length src) dst.

(** [copy(s[lo:hi], src)]: the copy writes through the window into [s]. *)
Definition copy_into {A} (s : list A) (lo hi : Z) (src : list A)
  : result (list A) :=
  window ← slice s lo hi;
  Ok (take (Z.to_nat lo) s ++ copy window src ++ drop (Z.to_nat hi) s).

(** No slice of bytes or of rows has more elements than this. *)
Definition max_len : Z := 4611686018427387903.

(** [make([]T, n)] with every element the zero value [z]. *)
Definition make {A} (z : A) (n : Z) : result (list A) :=
  if 0 <=? n then Ok (replicate (Z.to_nat n) z) else Panic.

(** [a % b] *)
Definition rem (a b : Z) : result Z :=
  if b =? 0 then Panic else Ok (Z.rem a b).

End Slice.
Import Slice.

Abbreviation row := (list Z).
Abbreviation grid := (list (list Z)).

(** ** worker.go *)

Record Task := {
  StartY : Z;
  EndY : Z;
  WorldPart : grid
}.

Module Worker.

(** [ny < 0 || ny >= len(t.WorldPart)] *)
Definition outside (t : Task) (ny : Z) : bool :=
  (ny <? 0) || (ny >=? len (WorldPart t)).

(** [(x + dx + width) % width] *)
Definition wrap (x dx width : Z) : result Z :=
  rem (x ⊕ dx ⊕ width) width.

(** The body of the two innermost loops of [ProcessPart] for one offset
    [(dx, dy)]: skip the centre, skip a row outside the buffer, wrap the
    column, and count the neighbour when it is alive. *)
Definition visit (t : Task) (srcY x width : Z) (dy : Z) (neighbors : Z)
    (dx : Z) : result Z :=
  if (dx =? 0) && (dy =? 0) then Ok neighbors
  else
    let ny := srcY ⊕ dy in
    if outside t ny then Ok neighbors
    else
      nx ← wrap x dx width;
      r ← at_ (WorldPart t) ny;
      c ← at_ r nx;
      Ok (if c =? 255 then neighbors ⊕ 1 else neighbors).

(** [for dy := -1; dy <= 1; dy++ { for dx := -1; dx <= 1; dx++ {...} }] *)
Definition count_neighbors (t : Task) (srcY x width : Z) : result Z :=
  foldM (λ n dy, foldM (visit t srcY x width dy) n (seqZ (-1) 3))
        0 (seqZ (-1) 3).

(** The transition of one cell, lines 58 to 73. *)
Definition transition (cell neighbors : Z) : Z :=
  if cell =? 255 then
    if (neighbors =? 2) || (neighbors =? 3) then 255 else 0
  else
    if neighbors =? 3 then 255 else 0.

Definition next_cell (t : Task) (srcY width x : Z) : result Z :=
  neighbors ← count_neighbors t srcY x width;
  r ← at_ (WorldPart t) srcY;
  cell ← at_ r x;
  Ok (transition cell neighbors).

(** The loop over [x]: [row] is allocated with [width] cells and cell
    [x] is assigned exactly once, in increasing order of [x]. *)
Definition next_row (t : Task) (width : Z) (y : Z) : result row :=
  let srcY := y ⊕ 1 in
  mapM (next_cell t srcY width) (seqZ 0 width).

(** [height := t.EndY - t.StartY] *)
Definition height (t : Task) : Z := EndY t ⊖ StartY t.

Definition ProcessPart (t : Task) : result grid :=
  let height := height t in
  if height <=? 0 then Err "invalid task: height <= 0"
  else if len (WorldPart t) <? height ⊕ 2
  then Err "invalid task: worldPart too small"
  else
    row0 ← at_ (WorldPart t) 0;
    let width := len row0 in
    mapM (next_row t width) (seqZ 0 height).

End Worker.

(** ** broker.go *)

Record WorldParams := {
  ImageWidth : Z;
  ImageHeight : Z;
  World : grid
}.

(** A registered worker.  [Call w t] is the outcome of
    [w.client.Call("Worker.ProcessPart", t, &workerResult)]: [Ok rows]
    when the call returns [nil] and fills [workerResult], [Err msg] when
    it returns an error, and [Panic] when the remote method panics (the
    worker process dies and the client sees the connection drop). *)
Record WorkerClient := {
  addr : string;
  Call : Task → result grid
}.

(** A worker that runs worker.go. *)
Definition serving (a : string) : WorkerClient :=
  {| addr := a; Call := Worker.ProcessPart |}.

Definition newline : string := String (Ascii.ascii_of_nat 10) EmptyString.

Module Fan.

(** The part that the two brokers share: allocation of the new world,
    the check of the registry, the partition into bands, the fan-out of
    one goroutine per worker and the fan-in of their results.  The two
    brokers differ in how a task buffer is laid out ([build]) and in the
    line they print for a failed call ([line]). *)
Section Dispatch.

Variable build : WorldParams → Z → Z → result Task.
Variable line : WorkerClient → string → string.

(** [newWorld := make([][]uint8, H)] followed by
    [for i := range newWorld { newWorld[i] = make([]uint8, W) }]. *)
Definition new_world (params : WorldParams) : result grid :=
  rows ← make ([] : row) (ImageHeight params);
  mapM (λ _ : row, make 0 (ImageWidth params)) rows.

(** [startY] and [endY] of the loop body for index [i]. *)
Definition band (height numWorkers : Z) (i : Z) : Z * Z :=
  let rowsPerWorker := Int.quot height numWorkers in
  let startY := i ⊗ rowsPerWorker in
  let endY := startY ⊕ rowsPerWorker in
  (startY, if i =? numWorkers ⊖ 1 then height else endY).

(** What one [go func(w WorkerClient, t Task)] is started with. *)
Record goroutine := { g_worker : WorkerClient; g_task : Task }.

(** One iteration of [for i, worker := range workers] up to [go]. *)
Definition spawn (params : WorldParams) (numWorkers : Z)
    (iw : Z * WorkerClient) : result goroutine :=
  let '(startY, endY) := band (ImageHeight params) numWorkers iw.1 in
  task ← build params startY endY;
  Ok {| g_worker := iw.2; g_task := task |}.

(** [for y := 0; y < len(workerResult); y++
       { newWorld[t.StartY+y] = workerResult[y] }] *)
Definition merge (newWorld : grid) (startY : Z) (workerResult : grid)
  : result grid :=
  foldM (λ nw y, r ← at_ workerResult y; set_at nw (startY ⊕ y) r)
        newWorld (seqZ 0 (len workerResult)).

(** The body of one goroutine.  It performs exactly one action on the
    shared state: it prints one line, or it merges its rows while it
    holds the result mutex. *)
Definition finish (st : grid * list string) (g : goroutine)
  : result (grid * list string) :=
  match Call (g_worker g) (g_task g) with
  | Ok workerResult =>
      newWorld ← merge st.1 (StartY (g_task g)) workerResult;
      Ok (newWorld, st.2)
  | Err msg => Ok (st.1, st.2 ++ [line (g_worker g) msg])
  | Panic => Ok (st.1, st.2 ++ [line (g_worker g) "unexpected EOF"])
  end.

(** The goroutines take their action in the order [sched]; [wg.Wait]
    returns when all of them have. *)
Definition fan_in (gs : list goroutine) (sched : list nat)
    (st : grid * list string) : result (grid * list string) :=
  foldM (λ st i, match gs !! i with
                 | Some g => finish st g
                 | None => Ok st
                 end) st sched.

Definition dispatch (workers : list WorkerClient) (sched : list nat)
    (params : WorldParams) : result (grid * list string) :=
  newWorld ← new_world params;
  let numWorkers := len workers in
  if numWorkers =? 0 then Err "no workers available"
  else
    gs ← mapM (spawn params numWorkers)
              (zip (seqZ 0 numWorkers) workers);
    fan_in gs sched (newWorld, []).

End Dispatch.

End Fan.

(** The broker that caches the current world. *)
Module Broker.

Record t := { currentWorld : grid }.

(** Lines 161 to 177: the band's rows in the middle, the row above
    [startY] in front and the row at [endY] behind, both wrapping. *)
Definition build_task (params : WorldParams) (startY endY : Z)
  : result Task :=
  let worldPartLen := endY ⊖ startY in
  worldPart ← make ([] : row) (worldPartLen ⊕ 2);
  core ← slice (World params) startY endY;
  worldPart ← copy_into worldPart 1 (worldPartLen ⊕ 1) core;
  above ← rem (startY ⊖ 1 ⊕ ImageHeight params) (ImageHeight params);
  r ← at_ (World params) above;
  worldPart ← set_at worldPart 0 r;
  below ← rem endY (ImageHeight params);
  r ← at_ (World params) below;
  worldPart ← set_at worldPart (worldPartLen ⊕ 1) r;
  Ok {| StartY := startY; EndY := endY; WorldPart := worldPart |}.

Definition line (w : WorkerClient) (err : string) : string :=
  "Worker " +:+ addr w +:+ " process task failed: " +:+ err +:+ newline.

(** What a call of [ProcessTurn] leaves behind: the broker, the lines
    printed, and the reply ([Ok newWorld]) or the error. *)
Record outcome := {
  broker : t;
  stdout : list string;
  ret : result grid
}.

Definition ProcessTurn (b : t) (workerList : list WorkerClient)
    (sched : list nat) (params : WorldParams) : outcome :=
  let b := {| currentWorld := World params |} in
  match Fan.dispatch build_task line workerList sched params with
  | Ok (newWorld, out) =>
      {| broker := {| currentWorld := newWorld |};
         stdout := out; ret := Ok newWorld |}
  | Err msg => {| broker := b; stdout := []; ret := Err msg |}
  | Panic => {| broker := b; stdout := []; ret := Panic |}
  end.

(** [GetAliveCellsCount] *)
Definition GetAliveCellsCount (b : t) : Z :=
  foldl (λ aliveCount r,
           foldl (λ n cell, if cell =? 255 then n ⊕ 1 else n) aliveCount r)
        0 (currentWorld b).

End Broker.

(** The older broker of [gol-skeleton-master_副本/broker/broker.go]. *)
Module BrokerCopy.

(** Lines 56 to 64: the band's rows first, then the row at [endY], then
    the row above [startY]. *)
Definition build_task (params : WorldParams) (startY endY : Z)
  : result Task :=
  world_part ← make ([] : row) (endY ⊖ startY ⊕ 2);
  core ← slice (World params) startY endY;
  let world_part := copy world_part core in
  below ← rem endY (ImageHeight params);
  r ← at_ (World params) below;
  world_part ← set_at world_part (len world_part ⊖ 2) r;
  above ← rem (startY ⊖ 1 ⊕ ImageHeight params) (ImageHeight params);
  r ← at_ (World params) above;
  world_part ← set_at world_part (len world_part ⊖ 1) r;
  Ok {| StartY := startY; EndY := endY; WorldPart := world_part |}.

Definition line (w : WorkerClient) (err : string) : string :=
  "Error calling ProcessPart on worker: " +:+ err +:+ newline.

Definition ProcessTurn (workerList : list WorkerClient)
    (sched : list nat) (params : WorldParams)
  : result (grid * list string) :=
  Fan.dispatch build_task line workerList sched params.

End BrokerCopy.

(** ** The local broker *)

Module Local.

Definition dirs : list (Z * Z) :=
  [ (-1, -1); (-1, 0); (-1, 1);
    (0, -1); (0, 1);
    (1, -1); (1, 0); (1, 1) ].

Definition countLiveNeighbors (world : grid) (x y width height : Z)
  : result Z :=
  foldM (λ count d,
           let nx := x ⊕ d.1 in
           let ny := y ⊕ d.2 in
           if (nx >=? 0) && (nx <? width) && (ny >=? 0) && (ny <? height)
           then
             r ← at_ world ny;
             c ← at_ r nx;
             Ok (if c =? 255 then count ⊕ 1 else count)
           else Ok count)
        0 dirs.

(** [ProcessTurnLocal]; the global [sampleWorld] is set to the grid
    that is returned. *)
Definition ProcessTurnLocal (params : WorldParams) : result grid :=
  let w := World params in
  let h := ImageHeight params in
  let wd := ImageWidth params in
  _ ← make ([] : row) h;
  mapM (λ y,
          _ ← make 0 wd;
          mapM (λ x,
                  n ← countLiveNeighbors w x y wd h;
                  r ← at_ w y;
                  cell ← at_ r x;
                  Ok (if cell =? 255 then
                        if (n =? 2) || (n =? 3) then 255 else 0
                      else
                        if n =? 3 then 255 else 0))
               (seqZ 0 wd))
       (seqZ 0 h).

End Local.

(** ** gol/distributor.go *)

Module Controller.

(** Modelled from the spec: the declarations of [gol.Params],
    [util.Cell] and the event types of the package [gol], which the
    function [distributor] uses and which are not among the sources.
    The fields and constructors are the ones [distributor] names; the
    spec (section 6) lists the events and their payloads. *)
Record Params := {
  Turns : Z;
  P_ImageWidth : Z;
  P_ImageHeight : Z
}.

(** Modelled from the spec: [util.Cell], a cell coordinate (section 3:
    an integer pair [(x, y)]); its declaration is not among the
    sources. *)
Record Cell := { X : Z; Y : Z }.

(** Modelled from the spec: the states that a state-change event
    carries (section 6: Executing, Paused, Quitting); the declaration is
    not among the sources. *)
Inductive State := Paused | Executing | Quitting.

(** The name [fmt.Sprintf("%dx%dx%d", W, H, turn)] of an image, kept as
    the three numbers it is printed from. *)
Record Filename := { f_width : Z; f_height : Z; f_turn : Z }.

(** Modelled from the spec: the events of section 6, with the field
    names that [distributor] uses; the declarations are not among the
    sources. *)
Inductive Event :=
  | StateChange (CompletedTurns : Z) (NewState : State)
  | CellsFlipped (CompletedTurns : Z) (Cells : list Cell)
  | TurnComplete (CompletedTurns : Z)
  | AliveCellsCount (CompletedTurns : Z) (CellsCount : Z)
  | ImageOutputComplete (CompletedTurns : Z) (name : Filename)
  | FinalTurnComplete (CompletedTurns : Z) (Alive : list Cell).

(** The variables of [distributor] and what its goroutines share.
    [events] and [images] record what has been sent on [c.events] and
    what has been handed to the IO goroutine, oldest first. *)
Record t := {
  world : grid;
  turn : Z;
  isPaused : bool;
  doneClosed : bool;
  eventsClosed : bool;
  controlKeys : list Ascii.ascii;
  done_open : bool;
  events_open : bool;
  client_open : bool;
  background : bool;
  events : list Event;
  images : list (Filename * grid);
  returned : bool;
  crashed : bool
}.

Definition set_world (w : grid) (c : t) : t :=
  {| world := w; turn := turn c; isPaused := isPaused c;
     doneClosed := doneClosed c; eventsClosed := eventsClosed c;
     controlKeys := controlKeys c; done_open := done_open c;
     events_open := events_open c; client_open := client_open c;
     background := background c; events := events c;
     images := images c; returned := returned c; crashed := crashed c |}.

(** [turn++], the only assignment to [turn] after [turn := 0]. *)
Definition incr_turn (c : t) : t :=
  {| world := world c; turn := turn c ⊕ 1; isPaused := isPaused c;
     doneClosed := doneClosed c; eventsClosed := eventsClosed c;
     controlKeys := controlKeys c; done_open := done_open c;
     events_open := events_open c; client_open := client_open c;
     background := background c; events := events c;
     images := images c; returned := returned c; crashed := crashed c |}.

Definition set_paused (b : bool) (c : t) : t :=
  {| world := world c; turn := turn c; isPaused := b;
     doneClosed := doneClosed c; eventsClosed := eventsClosed c;
     controlKeys := controlKeys c; done_open := done_open c;
     events_open := events_open c; client_open := client_open c;
     background := background c; events := events c;
     images := images c; returned := returned c; crashed := crashed c |}.

Definition set_keys (ks : list Ascii.ascii) (c : t) : t :=
  {| world := world c; turn := turn c; isPaused := isPaused c;
     doneClosed := doneClosed c; eventsClosed := eventsClosed c;
     controlKeys := ks; done_open := done_open c;
     events_open := events_open c; client_open := client_open c;
     background := background c; events := events c;
     images := images c; returned := returned c; crashed := crashed c |}.

(** [if !doneClosed { close(done); doneClosed = true }] *)
Definition close_done (c : t) : t :=
  if doneClosed c then c else
  {| world := world c; turn := turn c; isPaused := isPaused c;
     doneClosed := true; eventsClosed := eventsClosed c;
     controlKeys := controlKeys c; done_open := false;
     events_open := events_open c; client_open := client_open c;
     background := background c; events := events c;
     images := images c; returned := returned c; crashed := crashed c |}.

(** [if !doneClosed { close(done) }] at the end of [distributor]. *)
Definition close_done_last (c : t) : t :=
  if doneClosed c then c else
  {| world := world c; turn := turn c; isPaused := isPaused c;
     doneClosed := doneClosed c; eventsClosed := eventsClosed c;
     controlKeys := controlKeys c; done_open := false;
     events_open := events_open c; client_open := client_open c;
     background := background c; events := events c;
     images := images c; returned := returned c; crashed := crashed c |}.

(** [close(c.events)]; [flag] tells whether [eventsClosed] is set. *)
Definition close_events (flag : bool) (c : t) : t :=
  {| world := world c; turn := turn c; isPaused := isPaused c;
     doneClosed := doneClosed c;
     eventsClosed := if flag then true else eventsClosed c;
     controlKeys := controlKeys c; done_open := done_open c;
     events_open := false; client_open := client_open c;
     background := background c; events := events c;
     images := images c; returned := returned c; crashed := crashed c |}.

Definition close_client (c : t) : t :=
  {| world := world c; turn := turn c; isPaused := isPaused c;
     doneClosed := doneClosed c; eventsClosed := eventsClosed c;
     controlKeys := controlKeys c; done_open := done_open c;
     events_open := events_open c; client_open := false;
     background := background c; events := events c;
     images := images c; returned := returned c; crashed := crashed c |}.

Definition set_background (c : t) : t :=
  {| world := world c; turn := turn c; isPaused := isPaused c;
     doneClosed := doneClosed c; eventsClosed := eventsClosed c;
     controlKeys := controlKeys c; done_open := done_open c;
     events_open := events_open c; client_open := client_open c;
     background := true; events := events c;
     images := images c; returned := returned c; crashed := crashed c |}.

(** [return] from [distributor]; the deferred [client.Close()] runs. *)
Definition ret (c : t) : t :=
  {| world := world c; turn := turn c; isPaused := isPaused c;
     doneClosed := doneClosed c; eventsClosed := eventsClosed c;
     controlKeys := controlKeys c; done_open := done_open c;
     events_open := events_open c; client_open := false;
     background := background c; events := events c;
     images := images c; returned := true; crashed := crashed c |}.

(** A run-time panic ends the process. *)
Definition crash (c : t) : t :=
  {| world := world c; turn := turn c; isPaused := isPaused c;
     doneClosed := doneClosed c; eventsClosed := eventsClosed c;
     controlKeys := controlKeys c; done_open := done_open c;
     events_open := events_open c; client_open := client_open c;
     background := background c; events := events c;
     images := images c; returned := true; crashed := true |}.

(** [c.events <- e]; a send on a closed channel panics. *)
Definition emit (e : Event) (c : t) : t :=
  if crashed c then c
  else if events_open c then
  {| world := world c; turn := turn c; isPaused := isPaused c;
     doneClosed := doneClosed c; eventsClosed := eventsClosed c;
     controlKeys := controlKeys c; done_open := done_open c;
     events_open := events_open c; client_open := client_open c;
     background := background c; events := events c ++ [e];
     images := images c; returned := returned c; crashed := crashed c |}
  else crash c.

Definition put_image (f : Filename) (w : grid) (c : t) : t :=
  {| world := world c; turn := turn c; isPaused := isPaused c;
     doneClosed := doneClosed c; eventsClosed := eventsClosed c;
     controlKeys := controlKeys c; done_open := done_open c;
     events_open := events_open c; client_open := client_open c;
     background := background c; events := events c;
     images := images c ++ [(f, w)]; returned := returned c;
     crashed := crashed c |}.

Definition countAlive (w : grid) : Z :=
  foldl (λ count r,
           foldl (λ n cell, if cell =? 255 then n ⊕ 1 else n) count r)
        0 w.

Definition getAliveCells (w : grid) : list Cell :=
  mjoin (imap (λ y r,
           omap (λ xc : nat * Z,
                   if xc.2 =? 255
                   then Some {| X := Z.of_nat xc.1; Y := Z.of_nat y |}
                   else None)
                (imap (λ x cell, (x, cell)) r)) w).

(** The cells [(x, y)], [y < H], [x < W], row by row, that satisfy
    [test]: the shape of the two loops that collect [initialAlive] and
    [flipped]. *)
Definition collect (p : Params) (test : Z → Z → result bool)
  : result (list Cell) :=
  rows ← mapM (λ y,
            cells ← mapM (λ x, b ← test y x;
                             Ok (if b : bool
                                 then [ {| X := x; Y := y |} ] else []))
                         (seqZ 0 (P_ImageWidth p));
            Ok (mjoin cells))
          (seqZ 0 (P_ImageHeight p));
  Ok (mjoin rows).

Definition alive_at (w : grid) (y x : Z) : result bool :=
  r ← at_ w y; cell ← at_ r x; Ok (cell =? 255).

Definition differ_at (old new : grid) (y x : Z) : result bool :=
  r ← at_ old y; a ← at_ r x;
  r' ← at_ new y; b ← at_ r' x;
  Ok (negb (a =? b)).

(** The image is recorded as the grid it is read from. *)
Definition saveWorld (p : Params) (w : grid) (n : Z) (c : t) : t :=
  let filename :=
    {| f_width := P_ImageWidth p; f_height := P_ImageHeight p;
       f_turn := n |} in
  emit (ImageOutputComplete n filename) (put_image filename w c).

Definition finalizeGame (p : Params) (w : grid) (n : Z) (c : t) : t :=
  let c := emit (FinalTurnComplete n (getAliveCells w)) c in
  let c := saveWorld p w n c in
  let c := emit (StateChange n Quitting) c in
  close_events false c.

(** The world as the two loops over [y] and [x] fill it from
    [c.ioInput], which is taken to deliver at least [H * W] values. *)
Fixpoint read_world (h : nat) (w : nat) (input : list Z) : grid :=
  match h with
  | O => []
  | S h => take w input :: read_world h w (drop w input)
  end.

(** Steps 1 to 6 of [distributor]: the world is read from [input] row
    by row, the first events are sent, the broker is dialled and the
    two background goroutines are started. *)
Definition start (p : Params) (input : list Z) (dialed : bool) : t :=
  let w := read_world (Z.to_nat (P_ImageHeight p))
                      (Z.to_nat (P_ImageWidth p)) input in
  let c :=
    {| world := w; turn := 0; isPaused := false;
       doneClosed := false; eventsClosed := false; controlKeys := [];
       done_open := true; events_open := true; client_open := dialed;
       background := false; events := []; images := [];
       returned := false; crashed := false |} in
  let c := emit (StateChange 0 Executing) c in
  match collect p (alive_at w) with
  | Ok initialAlive =>
      let c := if bool_decide (initialAlive = []) then c
               else emit (CellsFlipped 0 initialAlive) c in
      let c := emit (TurnComplete 0) c in
      if dialed then set_background c else ret c
  | _ => crash c
  end.

(** The goroutine that reads [keyPresses]. *)
Definition key_goroutine (key : Ascii.ascii) (c : t) : t :=
  if negb (background c) || crashed c then c
  else if Ascii.eqb key "p"%char then
    let c := set_paused (negb (isPaused c)) c in
    emit (StateChange (turn c) (if isPaused c then Paused else Executing)) c
  else if (length (controlKeys c) <? 16)%nat
  then set_keys (controlKeys c ++ [key]) c
  else c.

(** The goroutine that reads the ticker. *)
Definition poller (c : t) : t :=
  if negb (background c) || crashed c || negb (done_open c) then c
  else emit (AliveCellsCount (turn c) (countAlive (world c))) c.

(** [handleKey]; the second component is its return value. *)
Definition handleKey (p : Params) (key : Ascii.ascii) (c : t) : t * bool :=
  if Ascii.eqb key "s"%char then
    (saveWorld p (world c) (turn c) c, false)
  else if Ascii.eqb key "q"%char then
    let c := close_done c in
    (finalizeGame p (world c) (turn c) c, true)
  else if Ascii.eqb key "k"%char then
    let c := saveWorld p (world c) (turn c) c in
    let c := close_client c in
    let c := emit (StateChange (turn c) Quitting) c in
    let c := if eventsClosed c then c else close_events true c in
    let c := close_done c in
    (c, true)
  else (c, false).

(** The part of the loop body after [if paused {...}]: the call of
    [Broker.ProcessTurn] and what follows it. *)
Definition advance (p : Params) (rpc : WorldParams → result grid) (c : t)
  : t :=
  let params :=
    {| ImageWidth := P_ImageWidth p; ImageHeight := P_ImageHeight p;
       World := world c |} in
  match rpc params with
  | Ok newWorld =>
      match collect p (differ_at (world c) newWorld) with
      | Ok flipped =>
          let c := set_world newWorld c in
          let c := incr_turn c in
          let currentTurn := turn c in
          let c := if bool_decide (flipped = []) then c
                   else emit (CellsFlipped currentTurn flipped) c in
          emit (TurnComplete currentTurn) c
      | _ => crash c
      end
  | _ => ret (close_done c)
  end.

(** One evaluation of the condition of [for turn < p.Turns] and, when
    it holds, of the body; otherwise of what follows the loop. *)
Definition main_loop (p : Params) (rpc : WorldParams → result grid)
    (c : t) : t :=
  if returned c then c
  else if turn c <? Turns p then
    match controlKeys c with
    | key :: keys =>
        let '(c, quit) := handleKey p key (set_keys keys c) in
        if quit then ret c else c
    | [] => if isPaused c then c else advance p rpc c
    end
  else
    let c := close_done_last c in
    ret (finalizeGame p (world c) (turn c) c).

(** What can happen next: a key arrives, the ticker fires, or the main
    goroutine runs one pass of its loop, in which a call of
    [Broker.ProcessTurn] is answered by [rpc]. *)
Inductive action :=
  | KeyPress (key : Ascii.ascii)
  | Tick
  | MainLoop (rpc : WorldParams → result grid).

Definition step (p : Params) (c : t) (a : action) : t :=
  match a with
  | KeyPress key => key_goroutine key c
  | Tick => poller c
  | MainLoop rpc => main_loop p rpc c
  end.

Definition run (p : Params) (c : t) (trace : list action) : t :=
  foldl (step p) c trace.

(** Whether action [a] in state [c] is a pass of the main loop in which
    [Broker.ProcessTurn] is called and returns a new world that the
    controller can compare with its own. *)
Definition turn_succeeds (p : Params) (c : t) (a : action) : bool :=
  match a with
  | MainLoop rpc =>
      negb (returned c) && (turn c <? Turns p)
      && bool_decide (controlKeys c = []) && negb (isPaused c)
      && match rpc {| ImageWidth := P_ImageWidth p;
                      ImageHeight := P_ImageHeight p;
                      World := world c |} with
         | Ok newWorld =>
             match collect p (differ_at (world c) newWorld) with
             | Ok _ => true
             | _ => false
             end
         | _ => false
         end
  | _ => false
  end.

(** The number of successful turns along a trace. *)
Fixpoint successes (p : Params) (c : t) (trace : list action) : Z :=
  match trace with
  | [] => 0
  | a :: trace =>
      (if turn_succeeds p c a then 1 else 0)
      + successes p (step p c a) trace
  end.

End Controller.

(** ** The reference: one generation of Life on a torus

    These definitions follow the words of the specification, not the
    code: a cell has eight neighbours, the grid wraps in both directions,
    and the whole grid is computed in one pass. *)

Module Spec.

Definition live (cell : Z) : Z := if cell =? 255 then 1 else 0.

Definition offsets : list (Z * Z) :=
  [ (-1, -1); (0, -1); (1, -1);
    (-1, 0);           (1, 0);
    (-1, 1);  (0, 1);  (1, 1) ].

(** The number of live cells among the eight neighbours of [(x, y)],
    where [read x y] is the cell at column [x] of row [y]. *)
Definition live_neighbours (read : Z → Z → Z) (x y : Z) : Z :=
  foldr (λ d n, live (read (x + d.1) (y + d.2)) + n) 0 offsets.

(** A live cell with two or three live neighbours stays alive, a dead
    cell with three live neighbours becomes alive, every other cell is
    dead. *)
Definition rule (alive : bool) (n : Z) : bool :=
  if alive then bool_decide (n = 2 ∨ n = 3) else bool_decide (n = 3).

Definition next (read : Z → Z → Z) (x y : Z) : Z :=
  if rule (read x y =? 255) (live_neighbours read x y) then 255 else 0.

(** The cell at column [x mod W] of row [y mod H]. *)
Definition torus (g : grid) (W H : Z) (x y : Z) : Z :=
  default 0 (g !! Z.to_nat (y `mod` H) ≫= λ r, r !! Z.to_nat (x `mod` W)).

Definition next_generation (g : grid) (W H : Z) : grid :=
  (λ y, (λ x, next (torus g W H) x y) <$> seqZ 0 W) <$> seqZ 0 H.

(** The cell at column [x mod W] of row [y] of a task buffer: columns
    wrap, rows do not. *)
Definition buffer (buf : grid) (W : Z) (x y : Z) : Z :=
  if 0 <=? y
  then default 0 (buf !! Z.to_nat y ≫= λ r, r !! Z.to_nat (x `mod` W))
  else 0.

End Spec.

(** Every row has [W] cells. *)
Definition rectangular (W : Z) (g : grid) : Prop :=
  Forall (λ r : row, len r = W) g.

(** A result that is not a Go [error]. *)
Definition no_err {A} (r : result A) : Prop :=
  match r with Err _ => False | _ => True end.

(** The rows that a band of [h] rows becomes, read off the task buffer
    [buf] whose row 0 is the halo above the band. *)
Definition band_next (buf : grid) (W h : Z) : grid :=
  (λ y, (λ x, Spec.next (Spec.buffer buf W) x (y + 1)) <$> seqZ 0 W)
    <$> seqZ 0 h.

(** The line that the goroutine of worker [w] prints when its call on
    task [t] fails, if it fails. *)
Definition failure (line : WorkerClient → string → string)
    (w : WorkerClient) (t : Task) : option string :=
  match Call w t with
  | Ok _ => None
  | Err msg => Some (line w msg)
  | Panic => Some (line w "unexpected EOF")
  end.

(** The rows [s], ..., [e - 1] of the world. *)
Definition core_rows (params : WorldParams) (s e : Z) : grid :=
  take (Z.to_nat (e - s)) (drop (Z.to_nat s) (World params)).

(** Row [y mod H] of the world. *)
Definition wrapped_row (params : WorldParams) (y : Z) : row :=
  default [] (World params !! Z.to_nat (y `mod` ImageHeight params)).

(** The task of band [i] of [N]: the band between its two halo rows. *)
Definition band_task (params : WorldParams) (N i : Z) : Task :=
  let s := (Fan.band (ImageHeight params) N i).1 in
  let e := (Fan.band (ImageHeight params) N i).2 in
  {| StartY := s; EndY := e;
     WorldPart := wrapped_row params (s - 1 + ImageHeight params)
                    :: core_rows params s e ++ [wrapped_row params e] |}.

(** The task of band [i] of [N] in the layout of the older broker: the
    band, then the halo row below it, then the halo row above it. *)
Definition band_task_copy (params : WorldParams) (N i : Z) : Task :=
  let s := (Fan.band (ImageHeight params) N i).1 in
  let e := (Fan.band (ImageHeight params) N i).2 in
  {| StartY := s; EndY := e;
     WorldPart := core_rows params s e
                    ++ [wrapped_row params e;
                        wrapped_row params (s - 1 + ImageHeight params)] |}.

(** Every call to worker [w] either reaches a worker that runs
    worker.go or fails with an error. *)
Definition serves_or_fails (w : WorkerClient) : Prop :=
  ∀ t, Call w t = Worker.ProcessPart t ∨ ∃ msg, Call w t = Err msg.

(** Every call to worker [w] reaches a worker that runs worker.go. *)
Definition serves (w : WorkerClient) : Prop :=
  ∀ t, Call w t = Worker.ProcessPart t.

(** ** Sample inputs *)

Definition sample_task : Task :=
  {| StartY := 4; EndY := 6;
     WorldPart := [ [0; 255; 0]; [255; 255; 0]; [0; 0; 0]; [0; 0; 255] ] |}.

Definition sample_world : grid :=
  [ [0; 255; 0; 0]; [0; 0; 255; 0]; [255; 255; 255; 0];
    [0; 0; 0; 0]; [0; 0; 0; 0] ].

Definition sample_params : WorldParams :=
  {| ImageWidth := 4; ImageHeight := 5; World := sample_world |}.

Definition sample_workers : list WorkerClient :=
  [ serving "10.0.0.1:8031"; serving "10.0.0.2:8031" ].

(** The second of three workers cannot be reached. *)
Definition flaky_workers : list WorkerClient :=
  [ serving "10.0.0.1:8031";
    {| addr := "10.0.0.2:8031"; Call := λ _, Err "connection is shut down" |};
    serving "10.0.0.3:8031" ].

(** A world whose rows can be told apart. *)
Definition numbered_params : WorldParams :=
  {| ImageWidth := 1; ImageHeight := 4; World := [ [1]; [2]; [3]; [4] ] |}.

(** The request that the controller sends for the world [w]. *)
Definition request (p : Controller.Params) (w : grid) : WorldParams :=
  {| ImageWidth := Controller.P_ImageWidth p;
     ImageHeight := Controller.P_ImageHeight p;
     World := w |}.

(** A grid of [H] rows of [W] cells. *)
Definition sized (p : Controller.Params) (w : grid) : Prop :=
  len w = Controller.P_ImageHeight p
  ∧ rectangular (Controller.P_ImageWidth p) w.

(** Every call of [Broker.ProcessTurn] on a grid of [H] rows of [W]
    cells succeeds and returns such a grid. *)
Definition replies_grid (p : Controller.Params)
    (rpc : WorldParams → result grid) : Prop :=
  ∀ w, sized p w → ∃ g, rpc (request p w) = Ok g ∧ sized p g.

(** The controller is in its loop, not paused, with no key waiting. *)
Definition steady (p : Controller.Params) (c : Controller.t) : Prop :=
  Controller.returned c = false
  ∧ Controller.crashed c = false
  ∧ Controller.events_open c = true
  ∧ Controller.controlKeys c = []
  ∧ Controller.isPaused c = false
  ∧ sized p (Controller.world c).

(** The call [client.Call("Broker.ProcessTurn", params, &newWorld)] when
    the broker [b] has the registry [ws] and its goroutines act in the
    order [sched]. *)
Definition broker_rpc (b : Broker.t) (ws : list WorkerClient)
    (sched : list nat) : WorldParams → result grid :=
  λ params, Broker.ret (Broker.ProcessTurn b ws sched params).

Definition sample_run : Controller.Params :=
  {| Controller.Turns := 3; Controller.P_ImageWidth := 4;
     Controller.P_ImageHeight := 5 |}.

(** A world whose last column is alive. *)
Definition edge_params : WorldParams :=
  {| ImageWidth := 3; ImageHeight := 3;
     World := [ [0; 0; 255]; [0; 0; 255]; [0; 0; 255] ] |}.

(** ** Further code *)

(** [deepCopyWorldUint8] of gol/distributor.go.  A [nil] world is the
    empty list, for which both branches give the empty list. *)
Definition deepCopyWorldUint8 (src : grid) : result grid :=
  if bool_decide (src = []) then Ok []
  else
    let h := len src in
    dst ← make ([] : row) h;
    foldM (λ dst i,
             r ← at_ src i;
             row ← make 0 (len r);
             let row := copy row r in
             set_at dst i row)
          dst (seqZ 0 h).

(** The local broker: the type [LocalBroker] and the global
    [sampleWorld], which is [nil] until the first turn. *)
Module LocalBroker.

Definition ProcessTurn (sampleWorld : option grid) (params : WorldParams)
  : option grid * result grid :=
  match Local.ProcessTurnLocal params with
  | Ok newWorld => (Some newWorld, Ok newWorld)
  | Err msg => (sampleWorld, Err msg)
  | Panic => (sampleWorld, Panic)
  end.

Definition GetAliveCellsCount (sampleWorld : option grid) : Z :=
  match sampleWorld with
  | None => 0
  | Some world => Controller.countAlive world
  end.

End LocalBroker.

(** [registerWorker] and the loop of [main] that calls it, in the
    broker with the cached world. *)
Module Registry.

(** The outcome of [rpc.Dial("tcp", address)]: a client, given by what
    its calls of [Worker.ProcessPart] return, or an error. *)
Inductive dialed :=
  | Connected (call : Task → result grid)
  | Refused (err : string).

(** The global [workerList] and the lines printed so far. *)
Record t := {
  workerList : list WorkerClient;
  stdout : list string
}.

Definition print (line : string) (st : t) : t :=
  {| workerList := workerList st; stdout := stdout st ++ [line] |}.

(** The second component is the error that is returned, if any. *)
Definition registerWorker (dial : string → dialed) (address : string)
    (st : t) : t * option string :=
  match dial address with
  | Refused err =>
      (print ("Connect worker " +:+ address +:+ " failed: " +:+ err
              +:+ newline) st,
       Some err)
  | Connected call =>
      let st :=
        {| workerList :=
             workerList st ++ [ {| addr := address; Call := call |} ];
           stdout := stdout st |} in
      (print ("Worker " +:+ address +:+ " registered successfully"
              +:+ newline) st,
       None)
  end.

(** [for _, addr := range workerAddresses { ... }] *)
Definition register_all (dial : string → dialed)
    (workerAddresses : list string) (st : t) : t :=
  foldl (λ st addr,
           let '(st, err) := registerWorker dial addr st in
           match err with
           | Some _ =>
               print ("Register worker " +:+ addr +:+ " failed" +:+ newline)
                     st
           | None => st
           end)
        st workerAddresses.

Definition workerAddresses : list string :=
  [ "172.31.90.169:8031"; "172.31.90.169:8032"; "172.31.90.169:8033";
    "172.31.17.148:8031"; "172.31.17.148:8032"; "172.31.17.148:8033";
    "172.31.16.85:8031"; "172.31.16.85:8032"; "172.31.16.85:8033";
    "172.31.16.85:8034" ].

Definition reachable (dial : string → dialed) (address : string) : bool :=
  match dial address with Connected _ => true | Refused _ => false end.

End Registry.

(** The number of cells of a grid that are alive. *)
Definition alive_cells (w : grid) : Z :=
  Z.of_nat (length (filter (λ cell, cell = 255) (mjoin w))).

(** The cell at column [x] of row [y] of a grid of [H] rows of [W]
    cells, and a dead cell outside the grid. *)
Definition dead_border (g : grid) (W H : Z) (x y : Z) : Z :=
  if (0 <=? x) && (x <? W) && (0 <=? y) && (y <? H)
  then default 0 (g !! Z.to_nat y ≫= λ r, r !! Z.to_nat x)
  else 0.

(** One generation of Life on a grid that is surrounded by dead
    cells. *)
Definition next_generation_dead_border (g : grid) (W H : Z) : grid :=
  (λ y, (λ x, Spec.next (dead_border g W H) x y) <$> seqZ 0 W)
    <$> seqZ 0 H.

(** The turn that a [TurnComplete] event reports. *)
Definition completed (e : Controller.Event) : option Z :=
  match e with
  | Controller.TurnComplete n => Some n
  | _ => None
  end.



(** * Proofs *)

Example blinker_band :
  Worker.ProcessPart
    {| StartY := 0; EndY := 3;
       WorldPart := [ [0;0;0;0;0];
                      [0;0;0;0;0]; [0;255;255;255;0]; [0;0;0;0;0];
                      [0;0;0;0;0] ] |}
  = Ok [ [0;0;255;0;0]; [0;0;255;0;0]; [0;0;255;0;0] ].
Proof. reflexivity. Qed.

(** ** The result monad *)

Lemma bind_Ok {A B} (f : A → result B) (a : A) : (Ok a ≫= f) = f a.
Proof. reflexivity. Qed.

Lemma bind_no_err {A B} (f : A → result B) (m : result A) :
  no_err m → (∀ a, no_err (f a)) → no_err (m ≫= f).
Proof. destruct m; simpl; auto. Qed.

Lemma mapM_cons {A B} (f : A → result B) a l :
  mapM f (a :: l) = (y ← f a; k ← mapM f l; Ok (y :: k)).
Proof. reflexivity. Qed.

Lemma mapM_Ok {A B} (f : A → result B) (g : A → B) (l : list A) :
  (∀ a, a ∈ l → f a = Ok (g a)) → mapM f l = Ok (g <$> l).
Proof.
  induction l as [|a l IH]; intros Hf; [reflexivity|].
  rewrite mapM_cons, Hf by left. simpl.
  rewrite IH; [reflexivity|]. intros b Hb. apply Hf. by right.
Qed.

Lemma mapM_no_err {A B} (f : A → result B) (l : list A) :
  (∀ a, no_err (f a)) → no_err (mapM f l).
Proof.
  intros Hf. induction l as [|a l IH]; [exact I|].
  rewrite mapM_cons. apply bind_no_err; [apply Hf|].
  intros b. apply bind_no_err; [exact IH|]. intros; exact I.
Qed.

Lemma foldM_no_err {A B} (f : B → A → result B) (l : list A) (b : B) :
  (∀ b a, no_err (f b a)) → no_err (foldM f b l).
Proof.
  intros Hf. revert b. induction l as [|a l IH]; intros b; [exact I|].
  simpl. apply bind_no_err; [apply Hf|]. intros; apply IH.
Qed.

Lemma foldM_app {A B} (f : B → A → result B) (l k : list A) (b : B) :
  foldM f b (l ++ k) = (b' ← foldM f b l; foldM f b' k).
Proof.
  revert b. induction l as [|a l IH]; intros b; [reflexivity|].
  simpl. destruct (f b a); simpl; auto.
Qed.

(** ** Slices *)

Lemma len_nonneg {A} (s : list A) : 0 ≤ len s.
Proof. unfold len. lia. Qed.

Lemma at_Ok {A} (s : list A) (i : Z) (a : A) :
  0 ≤ i → s !! Z.to_nat i = Some a → at_ s i = Ok a.
Proof.
  intros Hi Ha. unfold at_. rewrite Ha.
  destruct (0 <=? i) eqn:E; [reflexivity|lia].
Qed.

Lemma at_no_err {A} (s : list A) (i : Z) : no_err (at_ s i).
Proof. unfold at_. destruct (0 <=? i), (s !! Z.to_nat i); exact I. Qed.

Lemma rem_no_err (a b : Z) : no_err (rem a b).
Proof. unfold rem. destruct (b =? 0); exact I. Qed.

Lemma lookup_in_range {A} (s : list A) (i : Z) :
  0 ≤ i < len s → ∃ a, s !! Z.to_nat i = Some a.
Proof.
  intros Hi. apply lookup_lt_is_Some_2. unfold len in Hi. lia.
Qed.

Lemma rectangular_lookup W (g : grid) i r :
  rectangular W g → g !! i = Some r → len r = W.
Proof. intros Hg Hr. exact (proj1 (Forall_lookup _ _) Hg i r Hr). Qed.

Lemma seqZ_minus1_3 : seqZ (-1) 3 = [-1; 0; 1].
Proof. reflexivity. Qed.

(** ** Integers that do not wrap *)

Lemma wrap_small (z : Z) : Int.min ≤ z ≤ Int.max → Int.wrap z = z.
Proof.
  unfold Int.min, Int.max, Int.wrap. intros Hz.
  rewrite Z.mod_small by lia. lia.
Qed.

Lemma add_small (a b : Z) : Int.min ≤ a + b ≤ Int.max → a ⊕ b = a + b.
Proof. apply wrap_small. Qed.

Lemma sub_small (a b : Z) : Int.min ≤ a - b ≤ Int.max → a ⊖ b = a - b.
Proof. apply wrap_small. Qed.

Lemma mul_small (a b : Z) : Int.min ≤ a * b ≤ Int.max → a ⊗ b = a * b.
Proof. apply wrap_small. Qed.

Lemma quot_small (a b : Z) :
  Int.min ≤ a ÷ b ≤ Int.max → Int.quot a b = a ÷ b.
Proof. apply wrap_small. Qed.

Lemma live_bounds (cell : Z) : 0 ≤ Spec.live cell ≤ 1.
Proof. unfold Spec.live. destruct (cell =? 255); lia. Qed.

Ltac int_bounds := unfold Int.min, Int.max, max_len in *.

(** [lia], knowing the bounds of the machine integers and that
    [Spec.live] is 0 or 1. *)
Ltac int_lia :=
  repeat match goal with
  | |- context [Spec.live ?c] =>
      lazymatch goal with
      | _ : 0 ≤ Spec.live c ≤ 1 |- _ => fail
      | _ => pose proof (live_bounds c)
      end
  end;
  int_bounds; lia.

(** Replace the wrapping operations of the goal by the exact ones,
    where the operands are small enough. *)
Ltac unwrap :=
  repeat match goal with
  | |- context [?a ⊕ ?b] => rewrite (add_small a b) by int_lia
  | |- context [?a ⊖ ?b] => rewrite (sub_small a b) by int_lia
  | |- context [?a ⊗ ?b] => rewrite (mul_small a b) by (int_bounds; nia)
  end.

(** ** The worker *)

Lemma wrap_in_range (x dx W : Z) :
  0 ≤ x < W → -1 ≤ dx ≤ 1 → W ≤ max_len →
  Worker.wrap x dx W = Ok ((x + dx) `mod` W) ∧ 0 ≤ (x + dx) `mod` W < W.
Proof.
  intros Hx Hdx HW. split; [|apply Z.mod_pos_bound; lia].
  unfold Worker.wrap, rem. unwrap.
  destruct (W =? 0) eqn:E; [lia|]. f_equal.
  rewrite Z.rem_mod_nonneg by lia.
  rewrite <- (Z.mul_1_l W) at 1. by rewrite Z.mod_add by lia.
Qed.

Section WorkerFacts.

Variable t : Task.
Variable W : Z.
Hypothesis Hrect : rectangular W (WorldPart t).
Hypothesis HWmax : W ≤ max_len.
Hypothesis Hfits : len (WorldPart t) ≤ max_len.

Local Abbreviation buf := (Spec.buffer (WorldPart t) W).

Lemma outside_inside ny :
  0 ≤ ny < len (WorldPart t) → Worker.outside t ny = false.
Proof. intros H. unfold Worker.outside. apply orb_false_iff. lia. Qed.

(** A neighbour inside the buffer is read at its wrapped column and
    counted when alive. *)
Lemma visit_counts srcY x dy dx n :
  0 ≤ x < W → -1 ≤ dx ≤ 1 → ¬ (dx = 0 ∧ dy = 0) →
  0 ≤ srcY + dy < len (WorldPart t) →
  0 ≤ n ≤ 8 →
  Worker.visit t srcY x W dy n dx
  = Ok (n + Spec.live (buf (x + dx) (srcY + dy))).
Proof.
  intros Hx Hdx Hc Hy Hn. unfold Worker.visit.
  destruct ((dx =? 0) && (dy =? 0)) eqn:E.
  { apply andb_true_iff in E. lia. }
  unwrap. rewrite outside_inside by done.
  destruct (wrap_in_range x dx W) as [-> Hnx]; [done..|].
  rewrite bind_Ok.
  destruct (lookup_in_range (WorldPart t) (srcY + dy) Hy) as [r Hr].
  rewrite (at_Ok _ _ r) by (lia || done). rewrite bind_Ok.
  assert (Hlen : len r = W) by eauto using rectangular_lookup.
  destruct (lookup_in_range r ((x + dx) `mod` W)) as [c Hcell]; [lia|].
  rewrite (at_Ok _ _ c) by (lia || done). rewrite bind_Ok.
  unfold Spec.buffer. destruct (0 <=? srcY + dy) eqn:E4; [|lia].
  rewrite Hr. simpl. rewrite Hcell. simpl.
  unfold Spec.live. destruct (c =? 255); f_equal; lia.
Qed.

(** The two loops over [dy] and [dx] count the live cells among the
    eight neighbours of [(x, srcY)] in the buffer. *)
Lemma count_neighbors_spec srcY x :
  0 ≤ x < W → 1 ≤ srcY → srcY + 1 < len (WorldPart t) →
  Worker.count_neighbors t srcY x W
  = Ok (Spec.live_neighbours buf x srcY).
Proof.
  intros Hx H1 H2. unfold Worker.count_neighbors.
  rewrite seqZ_minus1_3. cbn [foldM].
  assert (Hmid : ∀ n, Worker.visit t srcY x W 0 n 0 = Ok n) by done.
  repeat first [ rewrite Hmid | rewrite visit_counts by int_lia
               | rewrite bind_Ok ].
  f_equal. unfold Spec.live_neighbours. cbn. lia.
Qed.

End WorkerFacts.

Lemma transition_rule (cell n : Z) :
  Worker.transition cell n = if Spec.rule (cell =? 255) n then 255 else 0.
Proof.
  unfold Worker.transition, Spec.rule.
  destruct (cell =? 255); repeat case_bool_decide;
    destruct (n =? 2) eqn:E2, (n =? 3) eqn:E3; simpl; try reflexivity; lia.
Qed.

Section ValidTask.

Variable t : Task.
Variable W : Z.
Hypothesis Hrect : rectangular W (WorldPart t).
Hypothesis HWmax : W ≤ max_len.
Hypothesis Hfits : len (WorldPart t) ≤ max_len.

Local Abbreviation buf := (Spec.buffer (WorldPart t) W).

Lemma buffer_cell srcY x r c :
  0 ≤ srcY → 0 ≤ x < W →
  WorldPart t !! Z.to_nat srcY = Some r → r !! Z.to_nat x = Some c →
  buf x srcY = c.
Proof.
  intros Hy Hx Hr Hc. unfold Spec.buffer.
  destruct (0 <=? srcY) eqn:E; [|lia].
  rewrite Hr. simpl. rewrite Z.mod_small by lia. by rewrite Hc.
Qed.

Lemma next_cell_spec srcY x :
  0 ≤ x < W → 1 ≤ srcY → srcY + 1 < len (WorldPart t) →
  Worker.next_cell t srcY W x = Ok (Spec.next buf x srcY).
Proof.
  intros Hx H1 H2. unfold Worker.next_cell.
  rewrite (count_neighbors_spec t W Hrect) by (done || lia).
  rewrite bind_Ok.
  destruct (lookup_in_range (WorldPart t) srcY) as [r Hr]; [lia|].
  rewrite (at_Ok _ _ r) by (lia || done). rewrite bind_Ok.
  assert (Hlen : len r = W) by eauto using rectangular_lookup.
  destruct (lookup_in_range r x) as [c Hc]; [lia|].
  rewrite (at_Ok _ _ c) by (lia || done). rewrite bind_Ok.
  rewrite transition_rule. unfold Spec.next.
  by rewrite (buffer_cell srcY x r c) by (lia || done).
Qed.

Lemma next_row_spec y :
  0 ≤ y → y + 2 < len (WorldPart t) →
  Worker.next_row t W y = Ok ((λ x, Spec.next buf x (y + 1)) <$> seqZ 0 W).
Proof.
  intros H1 H2. unfold Worker.next_row. unwrap. apply mapM_Ok.
  intros x Hx. apply elem_of_seqZ in Hx. apply next_cell_spec; lia.
Qed.

(** The height of a task that fits its buffer is the difference of its
    bounds. *)
Lemma height_exact :
  Int.min ≤ EndY t - StartY t ≤ Int.max →
  Worker.height t = EndY t - StartY t.
Proof. intros H. unfold Worker.height. by rewrite sub_small. Qed.

(** On a task that passes the two checks, [ProcessPart] returns the
    band's next rows. *)
Lemma ProcessPart_valid :
  0 < EndY t - StartY t →
  EndY t - StartY t + 2 ≤ len (WorldPart t) →
  Worker.ProcessPart t
  = Ok (band_next (WorldPart t) W (EndY t - StartY t)).
Proof.
  intros H1 H2. unfold Worker.ProcessPart.
  rewrite height_exact by int_lia. unwrap.
  destruct (EndY t - StartY t <=? 0) eqn:E1; [lia|].
  destruct (len (WorldPart t) <? EndY t - StartY t + 2) eqn:E2; [lia|].
  destruct (lookup_in_range (WorldPart t) 0) as [r Hr]; [lia|].
  rewrite (at_Ok _ _ r) by (lia || done). rewrite bind_Ok.
  assert (Hlen : len r = W) by eauto using rectangular_lookup.
  simpl. rewrite Hlen. unfold band_next. apply mapM_Ok.
  intros y Hy. apply elem_of_seqZ in Hy. apply next_row_spec; lia.
Qed.

End ValidTask.

(** Past its two checks [ProcessPart] returns no error: it returns rows
    or it panics. *)
Lemma ProcessPart_no_err_valid (t : Task) :
  0 < Worker.height t →
  Worker.height t ⊕ 2 ≤ len (WorldPart t) →
  no_err (Worker.ProcessPart t).
Proof.
  intros H1 H2. unfold Worker.ProcessPart.
  destruct (Worker.height t <=? 0) eqn:E1; [lia|].
  destruct (len (WorldPart t) <? Worker.height t ⊕ 2) eqn:E2; [lia|].
  apply bind_no_err; [apply at_no_err|]. intros r0.
  apply mapM_no_err. intros y. apply mapM_no_err. intros x.
  apply bind_no_err.
  - apply foldM_no_err. intros n dy. apply foldM_no_err. intros n' dx.
    unfold Worker.visit.
    destruct ((dx =? 0) && (dy =? 0)); [exact I|].
    destruct (Worker.outside t (y ⊕ 1 ⊕ dy)); [exact I|].
    apply bind_no_err; [apply rem_no_err|]. intros nx.
    apply bind_no_err; [apply at_no_err|]. intros r.
    apply bind_no_err; [apply at_no_err|]. intros c. exact I.
  - intros n. apply bind_no_err; [apply at_no_err|]. intros r.
    apply bind_no_err; [apply at_no_err|]. intros c. exact I.
Qed.

Lemma live_neighbours_bounds (read : Z → Z → Z) (x y : Z) :
  0 ≤ Spec.live_neighbours read x y ≤ 8.
Proof.
  unfold Spec.live_neighbours, Spec.live. cbn.
  repeat match goal with |- context [if ?b then _ else _] => destruct b end;
    lia.
Qed.

Lemma band_next_lookup (buf : grid) (W h y x : Z) :
  0 ≤ y < h → 0 ≤ x < W →
  band_next buf W h !! Z.to_nat y ≫= (λ r, r !! Z.to_nat x)
  = Some (Spec.next (Spec.buffer buf W) x (y + 1)).
Proof.
  intros Hy Hx. unfold band_next.
  rewrite list_lookup_fmap, lookup_seqZ_lt by lia. simpl.
  rewrite list_lookup_fmap, lookup_seqZ_lt by lia. simpl.
  do 2 f_equal; lia.
Qed.

Lemma length_band_next (buf : grid) (W h : Z) :
  0 ≤ h → len (band_next buf W h) = h.
Proof.
  intros Hh. unfold band_next, len.
  rewrite length_fmap, length_seqZ. lia.
Qed.

Ltac rect := unfold rectangular; repeat constructor.

(** *** Transition rule *)

(** C5.  On every valid task (a band of at least one row in a buffer of
    [height + 2] rows of one width), [ProcessPart] succeeds, and each cell
    of the band is mapped by the rule of Life: with [n] the number of live
    cells among its eight neighbours (columns wrapping, [0 ≤ n ≤ 8]), a
    live cell (255) stays alive when [n] is 2 or 3 and dies (0) otherwise,
    and a dead cell becomes alive when [n] is 3 and stays dead otherwise.
    The two tables list the outcome for the nine counts.  The buffer and
    its rows are slices, so their lengths are at most [max_len]. *)
Theorem ProcessPart_life_rule (t : Task) (W : Z) :
  1 ≤ EndY t - StartY t →
  len (WorldPart t) = EndY t - StartY t + 2 →
  rectangular W (WorldPart t) →
  len (WorldPart t) ≤ max_len → W ≤ max_len →
  (∃ rows, Worker.ProcessPart t = Ok rows ∧
     ∀ y x, 0 ≤ y < EndY t - StartY t → 0 ≤ x < W →
       ∃ cell out,
         WorldPart t !! Z.to_nat (y + 1) ≫= (λ r, r !! Z.to_nat x) = Some cell
         ∧ rows !! Z.to_nat y ≫= (λ r, r !! Z.to_nat x) = Some out
         ∧ let n := Spec.live_neighbours (Spec.buffer (WorldPart t) W)
                      x (y + 1) in
           0 ≤ n ≤ 8
           ∧ (cell = 255 → n = 2 ∨ n = 3 → out = 255)
           ∧ (cell = 255 → n ≠ 2 → n ≠ 3 → out = 0)
           ∧ (cell ≠ 255 → n = 3 → out = 255)
           ∧ (cell ≠ 255 → n ≠ 3 → out = 0))
  ∧ Worker.transition 255 <$> seqZ 0 9 = [0; 0; 255; 255; 0; 0; 0; 0; 0]
  ∧ Worker.transition 0 <$> seqZ 0 9 = [0; 0; 0; 255; 0; 0; 0; 0; 0].
Proof.
  intros Hh Hlen Hrect Hfits HW. split; [|split; reflexivity].
  exists (band_next (WorldPart t) W (EndY t - StartY t)).
  split; [apply ProcessPart_valid; (done || lia)|].
  intros y x Hy Hx.
  destruct (lookup_in_range (WorldPart t) (y + 1)) as [r Hr]; [lia|].
  assert (Hr' : len r = W) by eauto using rectangular_lookup.
  destruct (lookup_in_range r x) as [cell Hcell]; [lia|].
  exists cell, (Spec.next (Spec.buffer (WorldPart t) W) x (y + 1)).
  split; [by rewrite Hr|].
  split; [by apply band_next_lookup|].
  split; [apply live_neighbours_bounds|].
  unfold Spec.next.
  rewrite (buffer_cell t W (y + 1) x r cell) by (lia || done).
  unfold Spec.rule.
  destruct (cell =? 255) eqn:E; repeat case_bool_decide;
    repeat split; intros; (reflexivity || lia).
Qed.

Lemma ProcessPart_life_rule_witness :
  (∃ rows, Worker.ProcessPart sample_task = Ok rows ∧
     ∀ y x, 0 ≤ y < 6 - 4 → 0 ≤ x < 3 →
       ∃ cell out,
         WorldPart sample_task !! Z.to_nat (y + 1)
           ≫= (λ r, r !! Z.to_nat x) = Some cell
         ∧ rows !! Z.to_nat y ≫= (λ r, r !! Z.to_nat x) = Some out
         ∧ let n := Spec.live_neighbours
                      (Spec.buffer (WorldPart sample_task) 3) x (y + 1) in
           0 ≤ n ≤ 8
           ∧ (cell = 255 → n = 2 ∨ n = 3 → out = 255)
           ∧ (cell = 255 → n ≠ 2 → n ≠ 3 → out = 0)
           ∧ (cell ≠ 255 → n = 3 → out = 255)
           ∧ (cell ≠ 255 → n ≠ 3 → out = 0))
  ∧ Worker.transition 255 <$> seqZ 0 9 = [0; 0; 255; 255; 0; 0; 0; 0; 0]
  ∧ Worker.transition 0 <$> seqZ 0 9 = [0; 0; 0; 255; 0; 0; 0; 0; 0].
Proof.
  apply (ProcessPart_life_rule sample_task 3);
    [simpl; lia | reflexivity | rect | by vm_compute | by vm_compute].
Defined.

(** *** Errors and shape of the result *)

(** C6, as the claim states it, fails: the two messages are not the ones
    the code returns; a task that passes both checks but whose rows
    differ in width makes the code index out of range; and so does a
    task whose buffer is too short when [height + 2] overflows. *)
Lemma ProcessPart_claimed_behaviour_fails :
  Worker.ProcessPart {| StartY := 0; EndY := 0; WorldPart := [] |}
    ≠ Err "invalid task: non-positive height"
  ∧ Worker.ProcessPart {| StartY := 0; EndY := 1; WorldPart := [[0]] |}
    ≠ Err "invalid task: insufficient rows"
  ∧ Worker.ProcessPart
      {| StartY := 0; EndY := 1; WorldPart := [[0; 0]; [0]; [0; 0]] |}
    = Panic
  ∧ Worker.ProcessPart
      {| StartY := 0; EndY := Int.max; WorldPart := [] |}
    = Panic.
Proof. repeat split; vm_compute; congruence. Qed.

(** C6 (amended).  For a task whose [height = EndY - StartY] is such
    that neither [height] nor [height + 2] overflows, [ProcessPart]
    returns an error exactly when the height is not positive (the error
    is "invalid task: height <= 0") or the buffer has fewer than
    [height + 2] rows (the error is "invalid task: worldPart too
    small").  On every such task that passes both checks and whose rows
    all have one width [W], it succeeds and returns exactly [height]
    rows of [W] cells, row [y] of the result being the next state of row
    [y] of the band (row [y + 1] of the buffer).  The result is a
    function of the task alone. *)
Theorem ProcessPart_errors_and_rows (t : Task) :
  Int.min ≤ EndY t - StartY t ≤ Int.max - 2 →
  ((∃ msg, Worker.ProcessPart t = Err msg)
   ↔ EndY t - StartY t ≤ 0 ∨ len (WorldPart t) < EndY t - StartY t + 2)
  ∧ (EndY t - StartY t ≤ 0 →
     Worker.ProcessPart t = Err "invalid task: height <= 0")
  ∧ (0 < EndY t - StartY t →
     len (WorldPart t) < EndY t - StartY t + 2 →
     Worker.ProcessPart t = Err "invalid task: worldPart too small")
  ∧ (∀ W, rectangular W (WorldPart t) →
     len (WorldPart t) ≤ max_len → W ≤ max_len →
     0 < EndY t - StartY t →
     EndY t - StartY t + 2 ≤ len (WorldPart t) →
     ∃ rows, Worker.ProcessPart t = Ok rows
       ∧ len rows = EndY t - StartY t
       ∧ ∀ y, 0 ≤ y < EndY t - StartY t →
           rows !! Z.to_nat y
           = Some ((λ x, Spec.next (Spec.buffer (WorldPart t) W) x (y + 1))
                     <$> seqZ 0 W)).
Proof.
  intros Hfit.
  assert (Hheight : Worker.height t = EndY t - StartY t)
    by (apply height_exact; int_lia).
  assert (Hplus : Worker.height t ⊕ 2 = EndY t - StartY t + 2)
    by (rewrite Hheight; apply add_small; int_lia).
  assert (H1 : EndY t - StartY t ≤ 0 →
               Worker.ProcessPart t = Err "invalid task: height <= 0").
  { intros H. unfold Worker.ProcessPart. rewrite Hheight.
    by destruct (EndY t - StartY t <=? 0) eqn:E; [|lia]. }
  assert (H2 : 0 < EndY t - StartY t →
               len (WorldPart t) < EndY t - StartY t + 2 →
               Worker.ProcessPart t
               = Err "invalid task: worldPart too small").
  { intros H H'. unfold Worker.ProcessPart. rewrite Hplus, Hheight.
    destruct (EndY t - StartY t <=? 0) eqn:E; [lia|].
    by destruct (len (WorldPart t) <? EndY t - StartY t + 2) eqn:E'; [|lia]. }
  repeat split; try assumption.
  - intros [msg Hmsg].
    destruct (Z_le_gt_dec (EndY t - StartY t) 0); [by left|].
    destruct (Z_lt_ge_dec (len (WorldPart t)) (EndY t - StartY t + 2));
      [by right|].
    pose proof (ProcessPart_no_err_valid t) as Hn.
    rewrite Hmsg in Hn. destruct Hn; lia.
  - intros [H|H].
    + eexists. by apply H1.
    + destruct (Z_le_gt_dec (EndY t - StartY t) 0).
      * eexists. by apply H1.
      * eexists. apply H2; lia.
  - intros W Hrect Hlenmax HWmax Hh Hlen.
    exists (band_next (WorldPart t) W (EndY t - StartY t)).
    split; [by apply ProcessPart_valid|].
    split; [apply length_band_next; lia|].
    intros y Hy. unfold band_next.
    rewrite list_lookup_fmap, lookup_seqZ_lt by lia. simpl.
    by replace (0 + Z.of_nat (Z.to_nat y)) with y by lia.
Qed.

Lemma ProcessPart_errors_and_rows_witness :
  ∃ rows, Worker.ProcessPart sample_task = Ok rows
    ∧ len rows = EndY sample_task - StartY sample_task
    ∧ ∀ y, 0 ≤ y < EndY sample_task - StartY sample_task →
        rows !! Z.to_nat y
        = Some ((λ x, Spec.next (Spec.buffer (WorldPart sample_task) 3)
                        x (y + 1))
                  <$> seqZ 0 3).
Proof.
  apply (ProcessPart_errors_and_rows sample_task);
    [by vm_compute | rect | by vm_compute | by vm_compute
    | simpl; lia | unfold len; simpl; lia].
Defined.

(** *** Indices *)

(** C10.  On a task with a band of at least one row, a buffer of at
    least [height + 2] rows and rows of one width [W ≥ 1], every index
    that [ProcessPart] computes is in bounds: for a row [srcY = y + 1] of
    the band and [dy] in [-1 .. 1], [srcY + dy] is a row of the buffer,
    so the test that skips rows outside the buffer is false; for a column
    [x] and [dx] in [-1 .. 1], [(x + dx + width) % width] is a column in
    [0 .. W - 1]; none of these sums wraps around; every visit of a
    neighbour returns normally; and [ProcessPart] returns rows.  The
    buffer and its rows are slices, so their lengths are at most
    [max_len]. *)
Theorem ProcessPart_indices_in_bounds (t : Task) (W : Z) :
  1 ≤ EndY t - StartY t →
  EndY t - StartY t + 2 ≤ len (WorldPart t) →
  1 ≤ W →
  rectangular W (WorldPart t) →
  len (WorldPart t) ≤ max_len → W ≤ max_len →
  (∀ y dy, 0 ≤ y < EndY t - StartY t → -1 ≤ dy ≤ 1 →
     y ⊕ 1 ⊕ dy = y + 1 + dy
     ∧ 0 ≤ y + 1 + dy < len (WorldPart t)
     ∧ Worker.outside t (y ⊕ 1 ⊕ dy) = false)
  ∧ (∀ x dx, 0 ≤ x < W → -1 ≤ dx ≤ 1 →
       x ⊕ dx ⊕ W = x + dx + W
       ∧ ∃ nx, Worker.wrap x dx W = Ok nx ∧ 0 ≤ nx < W)
  ∧ (∀ y x dy dx n, 0 ≤ y < EndY t - StartY t → 0 ≤ x < W →
       -1 ≤ dy ≤ 1 → -1 ≤ dx ≤ 1 → 0 ≤ n ≤ 8 →
       ∃ n', Worker.visit t (y ⊕ 1) x W dy n dx = Ok n')
  ∧ (∃ row0, WorldPart t !! 0%nat = Some row0 ∧ len row0 = W)
  ∧ ∃ rows, Worker.ProcessPart t = Ok rows.
Proof.
  intros Hh Hlen HW Hrect Hfits HWmax. repeat split.
  - by unwrap.
  - lia.
  - lia.
  - unwrap. apply outside_inside. lia.
  - by unwrap.
  - eexists. apply wrap_in_range; lia.
  - intros y x dy dx n Hy Hx Hdy Hdx Hn. unwrap.
    destruct (decide (dx = 0 ∧ dy = 0)) as [[-> ->]|Hne].
    + by exists n.
    + eexists. apply visit_counts; (done || lia).
  - destruct (lookup_in_range (WorldPart t) 0) as [r Hr]; [lia|].
    exists r. split; [done|]. eauto using rectangular_lookup.
  - eexists. apply ProcessPart_valid; (done || lia).
Qed.

Lemma ProcessPart_indices_in_bounds_witness :
  (∀ y dy, 0 ≤ y < 6 - 4 → -1 ≤ dy ≤ 1 →
     y ⊕ 1 ⊕ dy = y + 1 + dy
     ∧ 0 ≤ y + 1 + dy < len (WorldPart sample_task)
     ∧ Worker.outside sample_task (y ⊕ 1 ⊕ dy) = false)
  ∧ (∀ x dx, 0 ≤ x < 3 → -1 ≤ dx ≤ 1 →
       x ⊕ dx ⊕ 3 = x + dx + 3
       ∧ ∃ nx, Worker.wrap x dx 3 = Ok nx ∧ 0 ≤ nx < 3)
  ∧ (∀ y x dy dx n, 0 ≤ y < 6 - 4 → 0 ≤ x < 3 →
       -1 ≤ dy ≤ 1 → -1 ≤ dx ≤ 1 → 0 ≤ n ≤ 8 →
       ∃ n', Worker.visit sample_task (y ⊕ 1) x 3 dy n dx = Ok n')
  ∧ (∃ row0, WorldPart sample_task !! 0%nat = Some row0 ∧ len row0 = 3)
  ∧ ∃ rows, Worker.ProcessPart sample_task = Ok rows.
Proof.
  apply (ProcessPart_indices_in_bounds sample_task 3);
    [simpl; lia | simpl; unfold len; simpl; lia | lia | rect
    | by vm_compute | by vm_compute].
Defined.

(** ** The partition into bands *)

Section Bands.

Variables H N : Z.
Hypothesis HH : 0 ≤ H.
Hypothesis HHmax : H ≤ max_len.
Hypothesis HN : 1 ≤ N.
Hypothesis HNmax : N ≤ max_len.

Lemma quot_floor : H ÷ N = H `div` N.
Proof. apply Z.quot_div_nonneg; lia. Qed.

Lemma rows_per_worker : 0 ≤ H ÷ N ∧ N * (H ÷ N) ≤ H.
Proof.
  rewrite quot_floor. split; [apply Z.div_pos; lia|].
  apply Z.mul_div_le. lia.
Qed.

(** None of the operations that compute the bounds of a band wraps. *)
Lemma band_exact i :
  0 ≤ i < N →
  Fan.band H N i
  = (i * (H ÷ N), if i =? N - 1 then H else i * (H ÷ N) + H ÷ N).
Proof.
  intros Hi. pose proof rows_per_worker as [Hr1 Hr2].
  assert (Hq : H ÷ N ≤ H) by nia.
  assert (Hiq : 0 ≤ i * (H ÷ N) ≤ H) by nia.
  unfold Fan.band. rewrite quot_small by int_lia.
  rewrite (mul_small i) by int_lia. by unwrap.
Qed.

Lemma band_inner i :
  0 ≤ i < N → i ≠ N - 1 →
  Fan.band H N i = (i * (H ÷ N), (i + 1) * (H ÷ N)).
Proof.
  intros Hi Hne. rewrite band_exact by done.
  destruct (i =? N - 1) eqn:E; [lia|]. f_equal. lia.
Qed.

Lemma band_last : Fan.band H N (N - 1) = ((N - 1) * (H ÷ N), H).
Proof. rewrite band_exact by lia. by rewrite Z.eqb_refl. Qed.

Lemma band_bounds i :
  0 ≤ i < N →
  0 ≤ (Fan.band H N i).1 ∧ (Fan.band H N i).1 ≤ (Fan.band H N i).2
  ∧ (Fan.band H N i).2 ≤ H.
Proof.
  intros Hi. pose proof rows_per_worker as [Hr1 Hr2].
  destruct (decide (i = N - 1)) as [->|Hne].
  - rewrite band_last. simpl. nia.
  - rewrite band_inner by done. simpl. nia.
Qed.

Lemma band_next_start i :
  0 ≤ i < N - 1 → (Fan.band H N (i + 1)).1 = (Fan.band H N i).2.
Proof.
  intros Hi. rewrite (band_inner i) by lia. rewrite band_exact by lia.
  done.
Qed.

Lemma band_disjoint i j y :
  0 ≤ i < N → 0 ≤ j < N →
  (Fan.band H N i).1 ≤ y < (Fan.band H N i).2 →
  (Fan.band H N j).1 ≤ y < (Fan.band H N j).2 →
  i = j.
Proof.
  intros Hi Hj. pose proof rows_per_worker as [Hr1 Hr2].
  destruct (decide (i = N - 1)) as [->|Hi'];
    destruct (decide (j = N - 1)) as [->|Hj'];
    rewrite ?band_last, ?band_inner by done; simpl; intros; nia.
Qed.

Lemma band_cover y :
  0 ≤ y < H →
  ∃ i, 0 ≤ i < N ∧ (Fan.band H N i).1 ≤ y < (Fan.band H N i).2.
Proof.
  intros Hy. pose proof rows_per_worker as [Hr1 Hr2].
  destruct (Z_lt_ge_dec y ((N - 1) * (H ÷ N))) as [Hlt|Hge].
  - assert (Hpos : 0 < H ÷ N) by nia.
    exists (y `div` (H ÷ N)).
    pose proof (Z.div_mod y (H ÷ N)) as Hdm.
    pose proof (Z.mod_pos_bound y (H ÷ N) Hpos) as Hm.
    assert (0 ≤ y `div` (H ÷ N)) by (apply Z.div_pos; lia).
    assert (y `div` (H ÷ N) < N - 1) by nia.
    rewrite band_inner by lia. simpl. split; [lia|]. nia.
  - exists (N - 1). rewrite band_last. simpl. lia.
Qed.

End Bands.

(** ** Task buffers *)

Lemma slice_Ok {A} (s : list A) (lo hi : Z) :
  0 ≤ lo ≤ hi → hi ≤ len s →
  slice s lo hi = Ok (take (Z.to_nat (hi - lo)) (drop (Z.to_nat lo) s)).
Proof.
  intros H1 H2. unfold slice.
  destruct ((0 <=? lo) && (lo <=? hi) && (hi <=? len s)) eqn:E; [done|].
  rewrite !andb_false_iff in E. lia.
Qed.

Lemma set_at_Ok {A} (s : list A) (i : Z) (v : A) :
  0 ≤ i < len s → set_at s i v = Ok (<[Z.to_nat i := v]> s).
Proof.
  intros Hi. unfold set_at.
  destruct ((0 <=? i) && (i <? len s)) eqn:E; [done|].
  rewrite andb_false_iff in E. lia.
Qed.

Lemma make_Ok {A} (z : A) (n : Z) :
  0 ≤ n → make z n = Ok (replicate (Z.to_nat n) z).
Proof. intros Hn. unfold make. by destruct (0 <=? n) eqn:E; [|lia]. Qed.

Lemma rem_Ok (a b : Z) : 0 ≤ a → 0 < b → rem a b = Ok (a `mod` b).
Proof.
  intros Ha Hb. unfold rem. destruct (b =? 0) eqn:E; [lia|].
  by rewrite Z.rem_mod_nonneg by lia.
Qed.

Lemma copy_into_middle {A} (z : A) (core : list A) :
  copy_into (replicate (S (length core + 1)) z) 1 (len core + 1) core
  = Ok (z :: core ++ [z]).
Proof.
  unfold copy_into.
  rewrite slice_Ok
    by (pose proof (len_nonneg core); unfold len in *;
        rewrite ?length_replicate; lia).
  rewrite bind_Ok.
  replace (Z.to_nat (len core + 1 - 1)) with (length core)
    by (unfold len; lia).
  replace (Z.to_nat (len core + 1)) with (S (length core))
    by (unfold len; lia).
  change (Z.to_nat 1) with 1%nat.
  rewrite replicate_S. cbn [take drop]. rewrite take_0, drop_0.
  rewrite take_replicate_add, drop_replicate_add.
  unfold copy. rewrite length_replicate, firstn_all.
  rewrite drop_replicate, Nat.sub_diag. simpl.
  by rewrite app_nil_r.
Qed.

Section Buffers.

Variable params : WorldParams.
Variables s e : Z.
Hypothesis HH : 1 ≤ ImageHeight params.
Hypothesis HHmax : ImageHeight params ≤ max_len.
Hypothesis Hlen : len (World params) = ImageHeight params.
Hypothesis Hse : 0 ≤ s ≤ e ∧ e ≤ ImageHeight params.

Local Abbreviation H := (ImageHeight params).
Local Abbreviation n := (Z.to_nat (e - s)).
Local Abbreviation core := (take n (drop (Z.to_nat s) (World params))).

Lemma length_core : length core = n.
Proof.
  rewrite length_take, length_drop. unfold len in Hlen. lia.
Qed.

Lemma halo_rows :
  ∃ above below,
    World params !! Z.to_nat ((s - 1 + H) `mod` H) = Some above
    ∧ World params !! Z.to_nat (e `mod` H) = Some below.
Proof.
  destruct (lookup_in_range (World params) ((s - 1 + H) `mod` H))
    as [above Ha]; [rewrite Hlen; apply Z.mod_pos_bound; lia|].
  destruct (lookup_in_range (World params) (e `mod` H))
    as [below Hb]; [rewrite Hlen; apply Z.mod_pos_bound; lia|].
  by exists above, below.
Qed.

(** The broker with the cache puts the halo rows around the band. *)
Lemma build_task_layout above below :
  World params !! Z.to_nat ((s - 1 + H) `mod` H) = Some above →
  World params !! Z.to_nat (e `mod` H) = Some below →
  Broker.build_task params s e
  = Ok {| StartY := s; EndY := e;
          WorldPart := above :: core ++ [below] |}.
Proof.
  intros Ha Hb. unfold Broker.build_task. unwrap.
  rewrite make_Ok by lia. rewrite bind_Ok.
  rewrite slice_Ok by lia. rewrite bind_Ok.
  replace (Z.to_nat (e - s + 2)) with (S (length core + 1))
    by (rewrite length_core; lia).
  replace (e - s + 1) with (len core + 1)
    by (unfold len; rewrite length_core; lia).
  rewrite copy_into_middle, bind_Ok.
  rewrite (rem_Ok (s - 1 + H) H) by lia. rewrite bind_Ok.
  rewrite (at_Ok _ _ above)
    by (done || (apply Z.mod_pos_bound; lia)).
  rewrite bind_Ok.
  rewrite set_at_Ok by (unfold len; simpl; lia). rewrite bind_Ok.
  rewrite (rem_Ok e H) by lia. rewrite bind_Ok.
  rewrite (at_Ok _ _ below)
    by (done || (apply Z.mod_pos_bound; lia)).
  rewrite bind_Ok.
  rewrite set_at_Ok by (unfold len; simpl; rewrite length_app; simpl; lia).
  rewrite bind_Ok.
  do 2 f_equal.
  replace (Z.to_nat (len core + 1)) with (S (length core + 0))
    by (unfold len; lia).
  change (Z.to_nat 0) with 0%nat.
  change (<[0%nat:=above]> ([] :: core ++ [[]]))
    with (above :: core ++ [[]]).
  change (<[S (length core + 0):=below]> (above :: core ++ [[]]))
    with (above :: <[(length core + 0)%nat:=below]> (core ++ [[]])).
  by rewrite insert_app_r.
Qed.

(** The older broker puts both halo rows behind the band, the row at
    [endY] first. *)
Lemma build_task_copy_layout above below :
  World params !! Z.to_nat ((s - 1 + H) `mod` H) = Some above →
  World params !! Z.to_nat (e `mod` H) = Some below →
  BrokerCopy.build_task params s e
  = Ok {| StartY := s; EndY := e;
          WorldPart := core ++ [below; above] |}.
Proof.
  intros Ha Hb. unfold BrokerCopy.build_task. unwrap.
  rewrite make_Ok by lia. rewrite bind_Ok.
  rewrite slice_Ok by lia. rewrite bind_Ok.
  replace (Z.to_nat (e - s + 2)) with (n + 2)%nat by lia.
  unfold copy. rewrite length_replicate.
  rewrite take_ge by (rewrite length_core; lia).
  rewrite length_core, drop_replicate.
  replace (n + 2 - n)%nat with 2%nat by lia.
  cbn [replicate].
  assert (Hl : len (core ++ [[]; []]) = e - s + 2).
  { unfold len. rewrite length_app, length_core. simpl. lia. }
  rewrite (rem_Ok e H) by lia. rewrite bind_Ok.
  rewrite (at_Ok _ _ below)
    by (done || (apply Z.mod_pos_bound; lia)).
  rewrite bind_Ok.
  rewrite Hl. unwrap.
  rewrite set_at_Ok by lia. rewrite bind_Ok.
  replace (Z.to_nat (e - s + 2 - 2)) with (length core + 0)%nat
    by (rewrite length_core; lia).
  rewrite insert_app_r. cbn [list_insert insert].
  rewrite (rem_Ok (s - 1 + H) H) by lia. rewrite bind_Ok.
  rewrite (at_Ok _ _ above)
    by (done || (apply Z.mod_pos_bound; lia)).
  rewrite bind_Ok.
  assert (Hl' : len (core ++ [below; []]) = e - s + 2).
  { unfold len. rewrite length_app, length_core. simpl. lia. }
  rewrite Hl'. unwrap. rewrite set_at_Ok by lia. rewrite bind_Ok.
  replace (Z.to_nat (e - s + 2 - 1)) with (length core + 1)%nat
    by (rewrite length_core; lia).
  by rewrite insert_app_r.
Qed.

Lemma core_lookup k :
  0 ≤ k < e - s →
  core !! Z.to_nat k = World params !! Z.to_nat (s + k).
Proof.
  intros Hk. rewrite lookup_take_lt by lia. rewrite lookup_drop.
  f_equal. lia.
Qed.

(** Row [j] of the buffer [above :: core ++ [below]] is row
    [(s - 1 + j) mod H] of the world. *)
Lemma buffer_row above below j :
  World params !! Z.to_nat ((s - 1 + H) `mod` H) = Some above →
  World params !! Z.to_nat (e `mod` H) = Some below →
  0 ≤ j ≤ e - s + 1 →
  (above :: core ++ [below]) !! Z.to_nat j
  = World params !! Z.to_nat ((s - 1 + j) `mod` H).
Proof.
  intros Ha Hb Hj.
  destruct (decide (j = 0)) as [->|Hj0].
  { assert (Hm : (s - 1 + 0) `mod` H = (s - 1 + H) `mod` H).
    { rewrite <- (Z.mod_add (s - 1 + 0) 1 H) by lia. f_equal. lia. }
    by rewrite Hm, Ha. }
  rewrite lookup_cons_ne_0 by lia.
  replace (Init.Nat.pred (Z.to_nat j)) with (Z.to_nat (j - 1)) by lia.
  destruct (decide (j = e - s + 1)) as [->|Hjl].
  - replace (Z.to_nat (e - s + 1 - 1)) with (length core + 0)%nat
      by (rewrite length_core; lia).
    rewrite lookup_app_r by lia.
    replace (length core + 0 - length core)%nat with 0%nat by lia.
    replace (s - 1 + (e - s + 1)) with e by lia. by rewrite Hb.
  - rewrite lookup_app_l by (rewrite length_core; lia).
    rewrite core_lookup by lia.
    rewrite Z.mod_small by lia. f_equal. lia.
Qed.

End Buffers.

(** ** Fan-in *)

Lemma merge_prefix (nw : grid) (s : Z) (res : grid) (m : nat) :
  0 ≤ s → s + len res ≤ len nw → len nw ≤ max_len →
  (m ≤ length res)%nat →
  ∃ nw',
    foldM (λ nw y, r ← at_ res y; set_at nw (s ⊕ y) r) nw
          (seqZ 0 (Z.of_nat m)) = Ok nw'
    ∧ length nw' = length nw
    ∧ ∀ j : nat,
        nw' !! j = if decide (s ≤ Z.of_nat j < s + Z.of_nat m)
                   then res !! Z.to_nat (Z.of_nat j - s) else nw !! j.
Proof.
  intros Hs Hfit Hmax. unfold len in Hfit, Hmax.
  induction m as [|m IH]; intros Hm.
  - exists nw. split; [done|]. split; [done|].
    intros j. case_decide; [lia|done].
  - destruct IH as (nw1 & Hfold & Hlen1 & Hlook); [lia|].
    destruct (lookup_lt_is_Some_2 res m) as [r Hr]; [lia|].
    exists (<[Z.to_nat (s + Z.of_nat m) := r]> nw1).
    split; [|split].
    + rewrite seqZ_S, foldM_app, Hfold, bind_Ok. cbn [foldM].
      rewrite Z.add_0_l.
      rewrite (at_Ok _ _ r) by (rewrite ?Nat2Z.id; (lia || done)).
      rewrite bind_Ok. unwrap.
      rewrite set_at_Ok by (unfold len; lia).
      done.
    + by rewrite length_insert.
    + intros j. rewrite list_lookup_insert, Hlook.
      repeat case_decide; try lia; try done.
      rewrite <- Hr. f_equal. lia.
Qed.

Lemma merge_lookup (nw : grid) (s : Z) (res : grid) :
  0 ≤ s → s + len res ≤ len nw → len nw ≤ max_len →
  ∃ nw',
    Fan.merge nw s res = Ok nw'
    ∧ length nw' = length nw
    ∧ ∀ j : nat,
        nw' !! j = if decide (s ≤ Z.of_nat j < s + len res)
                   then res !! Z.to_nat (Z.of_nat j - s) else nw !! j.
Proof.
  intros Hs Hfit Hmax. unfold Fan.merge.
  apply (merge_prefix nw s res (length res)); (done || lia).
Qed.

Section FanIn.

Variable line : WorkerClient → string → string.
Variable gs : list Fan.goroutine.
Variable rows : nat.
Hypothesis Hrowsmax : Z.of_nat rows ≤ max_len.

(** Every result fits into the new world at its offset. *)
Hypothesis Hfit : ∀ i g res,
  gs !! i = Some g →
  Call (Fan.g_worker g) (Fan.g_task g) = Ok res →
  0 ≤ StartY (Fan.g_task g)
  ∧ StartY (Fan.g_task g) + len res ≤ Z.of_nat rows.

(** No two results are written to the same row. *)
Hypothesis Hdisjoint : ∀ i j g g' res res' y,
  gs !! i = Some g → gs !! j = Some g' →
  Call (Fan.g_worker g) (Fan.g_task g) = Ok res →
  Call (Fan.g_worker g') (Fan.g_task g') = Ok res' →
  StartY (Fan.g_task g) ≤ y < StartY (Fan.g_task g) + len res →
  StartY (Fan.g_task g') ≤ y < StartY (Fan.g_task g') + len res' →
  i = j.

Local Abbreviation lines :=
  (omap (λ i : nat, gs !! i ≫= λ g,
           failure line (Fan.g_worker g) (Fan.g_task g))).

(** Whatever the order in which the goroutines act, every row that a
    result covers ends up holding that result's row, every other row is
    left as it was, and one line is printed per failed call. *)
Lemma fan_in_spec (sched : list nat) :
  NoDup sched →
  ∀ nw out, length nw = rows →
  ∃ nw',
    Fan.fan_in line gs sched (nw, out) = Ok (nw', out ++ lines sched)
    ∧ length nw' = rows
    ∧ (∀ i g res (y : nat),
         i ∈ sched → gs !! i = Some g →
         Call (Fan.g_worker g) (Fan.g_task g) = Ok res →
         StartY (Fan.g_task g) ≤ Z.of_nat y
           < StartY (Fan.g_task g) + len res →
         nw' !! y = res !! Z.to_nat (Z.of_nat y - StartY (Fan.g_task g)))
    ∧ (∀ y : nat,
         (∀ i g res,
            i ∈ sched → gs !! i = Some g →
            Call (Fan.g_worker g) (Fan.g_task g) = Ok res →
            ¬ (StartY (Fan.g_task g) ≤ Z.of_nat y
                 < StartY (Fan.g_task g) + len res)) →
         nw' !! y = nw !! y).
Proof.
  induction sched as [|i sched IH]; intros Hnd nw out Hlen.
  { exists nw. rewrite app_nil_r. repeat split; try done.
    intros i g res y Hi. by apply elem_of_nil in Hi. }
  apply NoDup_cons in Hnd as [Hi Hnd].
  assert (Hstep : ∀ st,
    Fan.fan_in line gs (i :: sched) st
    = (match gs !! i with
       | Some g => Fan.finish line st g
       | None => Ok st
       end ≫= Fan.fan_in line gs sched)) by done.
  assert (Hlines :
    lines (i :: sched)
    = match gs !! i ≫= λ g, failure line (Fan.g_worker g) (Fan.g_task g)
      with
      | Some l => l :: lines sched
      | None => lines sched
      end) by done.
  rewrite Hstep, Hlines. clear Hstep Hlines.
  destruct (gs !! i) as [g|] eqn:Hg; cycle 1.
  { rewrite bind_Ok. cbn [mbind option_bind].
    destruct (IH Hnd nw out Hlen) as (nw' & Hrun & Hlen' & Ha & Hb).
    exists nw'. split; [exact Hrun|]. split; [exact Hlen'|]. split.
    - intros j g res y Hj Hgj. apply elem_of_cons in Hj as [->|Hj].
      + congruence.
      + by eapply Ha.
    - intros y Hy. apply Hb. intros j g res Hj. apply Hy. by right. }
  unfold Fan.finish. cbn [mbind option_bind]. unfold failure at 1.
  destruct (Call (Fan.g_worker g) (Fan.g_task g)) as [res|msg|] eqn:Hcall.
  - destruct (Hfit i g res Hg Hcall) as [Hs Hend].
    destruct (merge_lookup nw (StartY (Fan.g_task g)) res)
      as (nw1 & Hmerge & Hlen1 & Hlook);
      [lia|unfold len in *; lia|unfold len; lia|].
    cbn [fst snd]. rewrite Hmerge. cbn [result_bind].
    destruct (IH Hnd nw1 out) as (nw' & Hrun & Hlen' & Ha & Hb); [lia|].
    exists nw'. split; [exact Hrun|]. split; [exact Hlen'|]. split.
    + intros j g' res' y Hj Hgj Hcall' Hy.
      apply elem_of_cons in Hj as [->|Hj]; [|by eapply Ha].
      assert (g' = g) as -> by congruence.
      assert (res' = res) as -> by congruence.
      rewrite Hb, Hlook.
      * by rewrite decide_True by done.
      * intros k gk resk Hk Hgk Hcallk Hyk.
        assert (k = i) as -> by eauto using Hdisjoint.
        done.
    + intros y Hy. rewrite Hb, Hlook.
      * rewrite decide_False; [done|]. eapply Hy; [by left|done..].
      * intros k gk resk Hk. apply Hy. by right.
  - cbn [fst snd result_bind].
    destruct (IH Hnd nw (out ++ [line (Fan.g_worker g) msg]) Hlen)
      as (nw' & Hrun & Hlen' & Ha & Hb).
    exists nw'. rewrite <- app_assoc in Hrun.
    split; [exact Hrun|]. split; [exact Hlen'|]. split.
    + intros j g' res' y Hj Hgj Hcall' Hy.
      apply elem_of_cons in Hj as [->|Hj]; [congruence|by eapply Ha].
    + intros y Hy. apply Hb. intros k gk resk Hk. apply Hy. by right.
  - cbn [fst snd result_bind].
    destruct (IH Hnd nw (out ++ [line (Fan.g_worker g) "unexpected EOF"])
                Hlen)
      as (nw' & Hrun & Hlen' & Ha & Hb).
    exists nw'. rewrite <- app_assoc in Hrun.
    split; [exact Hrun|]. split; [exact Hlen'|]. split.
    + intros j g' res' y Hj Hgj Hcall' Hy.
      apply elem_of_cons in Hj as [->|Hj]; [congruence|by eapply Ha].
    + intros y Hy. apply Hb. intros k gk resk Hk. apply Hy. by right.
Qed.

End FanIn.

(** ** One turn of a broker *)

Lemma omap_pointwise {A B} (f g : A → option B) (l : list A) :
  (∀ a, f a = g a) → omap f l = omap g l.
Proof.
  intros Hfg. induction l as [|a l IH]; [done|].
  cbn [omap list_omap]. by rewrite Hfg, IH.
Qed.

Lemma new_world_Ok (params : WorldParams) :
  0 ≤ ImageHeight params → 0 ≤ ImageWidth params →
  Fan.new_world params
  = Ok (replicate (Z.to_nat (ImageHeight params))
                  (replicate (Z.to_nat (ImageWidth params)) 0)).
Proof.
  intros HH HW. unfold Fan.new_world.
  rewrite (make_Ok [] (ImageHeight params)) by done. rewrite bind_Ok.
  rewrite (mapM_Ok _ (λ _, replicate (Z.to_nat (ImageWidth params)) 0)).
  - by rewrite fmap_replicate.
  - intros r _. by apply make_Ok.
Qed.

Section Turn.

Variable build : WorldParams → Z → Z → result Task.
Variable line : WorkerClient → string → string.
Variable params : WorldParams.
Variable ws : list WorkerClient.
Variable task_of : Z → Task.

Local Abbreviation H := (ImageHeight params).
Local Abbreviation W := (ImageWidth params).
Local Abbreviation N := (len ws).
Local Abbreviation start i := (Fan.band H N i).1.
Local Abbreviation stop i := (Fan.band H N i).2.

Hypothesis HH : 0 ≤ H.
Hypothesis HHmax : H ≤ max_len.
Hypothesis HW : 0 ≤ W.
Hypothesis HN : 1 ≤ N.
Hypothesis HNmax : N ≤ max_len.

(** The task of band [i] is built without a panic and starts at the
    band's first row. *)
Hypothesis Hbuild : ∀ i, 0 ≤ i < N →
  build params (start i) (stop i) = Ok (task_of i)
  ∧ StartY (task_of i) = start i.

(** A call that succeeds returns as many rows as its band has. *)
Hypothesis Hrows : ∀ (i : nat) w res,
  ws !! i = Some w → Call w (task_of (Z.of_nat i)) = Ok res →
  len res = stop (Z.of_nat i) - start (Z.of_nat i).

Local Abbreviation gs :=
  ((λ iw : Z * WorkerClient,
      {| Fan.g_worker := iw.2; Fan.g_task := task_of iw.1 |})
     <$> zip (seqZ 0 N) ws).

Lemma zip_index_lookup (i : nat) w :
  ws !! i = Some w → zip (seqZ 0 N) ws !! i = Some (Z.of_nat i, w).
Proof.
  intros Hw. apply lookup_zip_Some. split; [|done].
  apply lookup_lt_Some in Hw. rewrite lookup_seqZ_lt by (unfold len; lia).
  f_equal; lia.
Qed.

Lemma zip_index_elem iw :
  iw ∈ zip (seqZ 0 N) ws →
  0 ≤ iw.1 < N ∧ ws !! Z.to_nat iw.1 = Some iw.2.
Proof.
  intros [k Hk]%list_elem_of_lookup_1. destruct iw as [i w].
  apply lookup_zip_Some in Hk as [Hi Hw].
  apply lookup_seqZ in Hi as [-> Hi]. simpl.
  rewrite Z.add_0_l, Nat2Z.id. split; [lia|done].
Qed.

Lemma goroutine_lookup (i : nat) g :
  gs !! i = Some g ↔
  ∃ w, ws !! i = Some w
       ∧ g = {| Fan.g_worker := w; Fan.g_task := task_of (Z.of_nat i) |}.
Proof.
  rewrite list_lookup_fmap_Some. split.
  - intros ([j w] & -> & Hz). apply lookup_zip_Some in Hz as [Hj Hw].
    apply lookup_seqZ in Hj as [-> Hj]. exists w. split; [done|].
    simpl. by rewrite Z.add_0_l.
  - intros (w & Hw & ->). exists (Z.of_nat i, w).
    split; [done|]. by apply zip_index_lookup.
Qed.

Lemma spawn_all :
  mapM (Fan.spawn build params N) (zip (seqZ 0 N) ws) = Ok gs.
Proof.
  apply mapM_Ok. intros [i w] Hiw. apply zip_index_elem in Hiw as [Hi _].
  simpl in Hi. unfold Fan.spawn. cbn [fst snd].
  destruct (Fan.band H N i) as [s e] eqn:Hband.
  destruct (Hbuild i Hi) as [Hb _]. rewrite Hband in Hb. simpl in Hb.
  by rewrite Hb.
Qed.

(** Whatever the order [sched] in which the goroutines act,
    [dispatch] returns a world of [H] rows in which the rows of band
    [i] hold the rows that worker [i] returned, or are still the
    zero rows of the allocation when its call failed; it prints one
    line per failed call. *)
Lemma dispatch_spec (sched : list nat) :
  sched ≡ₚ seq 0 (length ws) →
  ∃ g,
    Fan.dispatch build line ws sched params
    = Ok (g, omap (λ i : nat, ws !! i ≫= λ w,
                     failure line w (task_of (Z.of_nat i))) sched)
    ∧ len g = H
    ∧ ∀ (i : nat) w (y : nat),
        ws !! i = Some w →
        start (Z.of_nat i) ≤ Z.of_nat y < stop (Z.of_nat i) →
        g !! y = match Call w (task_of (Z.of_nat i)) with
                 | Ok res => res !! Z.to_nat (Z.of_nat y
                                              - start (Z.of_nat i))
                 | _ => Some (replicate (Z.to_nat W) 0)
                 end.
Proof.
  intros Hperm. unfold Fan.dispatch.
  rewrite new_world_Ok by done. rewrite bind_Ok.
  destruct (N =? 0) eqn:E; [lia|]. clear E.
  rewrite spawn_all, bind_Ok.
  assert (Hin : ∀ i : nat, (i < length ws)%nat → i ∈ sched).
  { intros i Hi. rewrite Hperm. apply elem_of_seq. lia. }
  assert (Hband : ∀ (i : nat) w, ws !! i = Some w → 0 ≤ Z.of_nat i < N).
  { intros i w Hw. apply lookup_lt_Some in Hw. unfold len. lia. }
  edestruct (fan_in_spec line gs (Z.to_nat H)) with (sched := sched)
    as (g & Hrun & Hlen & Ha & Hb).
  - lia.
  - intros i g res (w & Hw & ->)%goroutine_lookup Hcall. cbn [Fan.g_worker Fan.g_task] in *.
    pose proof (Hband i w Hw) as Hi.
    destruct (Hbuild _ Hi) as [_ ->].
    rewrite (Hrows i w res Hw Hcall).
    pose proof (band_bounds H N HH HHmax HN HNmax _ Hi). lia.
  - intros i j g g' res res' y (w & Hw & ->)%goroutine_lookup
      (w' & Hw' & ->)%goroutine_lookup Hcall Hcall'. cbn [Fan.g_worker Fan.g_task] in *.
    pose proof (Hband i w Hw) as Hi. pose proof (Hband j w' Hw') as Hj.
    destruct (Hbuild _ Hi) as [_ ->]. destruct (Hbuild _ Hj) as [_ ->].
    rewrite (Hrows i w res Hw Hcall), (Hrows j w' res' Hw' Hcall').
    intros Hy Hy'.
    apply Nat2Z.inj. apply (band_disjoint H N HH HHmax HN HNmax _ _ y); (done || lia).
  - rewrite Hperm. apply NoDup_seq.
  - apply length_replicate.
  - exists g. split; [|split].
    + rewrite Hrun. cbn [app]. do 2 f_equal.
      apply omap_pointwise. intros i.
      destruct (ws !! i) as [w|] eqn:Hw.
      * assert (Hg : gs !! i = Some {| Fan.g_worker := w;
                         Fan.g_task := task_of (Z.of_nat i) |})
          by (apply goroutine_lookup; eauto).
        by rewrite Hg.
      * destruct (gs !! i) as [g'|] eqn:Hg; [|done].
        apply goroutine_lookup in Hg as (w & Hw' & _). congruence.
    + unfold len. lia.
    + intros i w y Hw Hy.
      pose proof (Hband i w Hw) as Hi.
      pose proof (band_bounds H N HH HHmax HN HNmax _ Hi) as Hbb.
      assert (Hg : gs !! i = Some {| Fan.g_worker := w;
                       Fan.g_task := task_of (Z.of_nat i) |})
        by (apply goroutine_lookup; eauto).
      destruct (Hbuild _ Hi) as [_ Hstart].
      destruct (Call w (task_of (Z.of_nat i))) as [res|msg|] eqn:Hcall.
      * rewrite <- Hstart.
        apply (Ha i {| Fan.g_worker := w;
                       Fan.g_task := task_of (Z.of_nat i) |} res y);
          [apply Hin; by eapply lookup_lt_Some|done..|].
        cbn [Fan.g_worker Fan.g_task].
        rewrite Hstart, (Hrows i w res Hw Hcall). lia.
      * rewrite Hb; [apply lookup_replicate_2; lia|].
        intros k gk resk _ (wk & Hwk & ->)%goroutine_lookup Hcallk.
        cbn [Fan.g_worker Fan.g_task] in *. pose proof (Hband k wk Hwk) as Hk.
        destruct (Hbuild _ Hk) as [_ ->].
        rewrite (Hrows k wk resk Hwk Hcallk). intros Hyk.
        assert (Z.of_nat k = Z.of_nat i)
          by (apply (band_disjoint H N HH HHmax HN HNmax _ _ (Z.of_nat y));
              (done || lia)).
        assert (k = i) as -> by lia. congruence.
      * rewrite Hb; [apply lookup_replicate_2; lia|].
        intros k gk resk _ (wk & Hwk & ->)%goroutine_lookup Hcallk.
        cbn [Fan.g_worker Fan.g_task] in *. pose proof (Hband k wk Hwk) as Hk.
        destruct (Hbuild _ Hk) as [_ ->].
        rewrite (Hrows k wk resk Hwk Hcallk). intros Hyk.
        assert (Z.of_nat k = Z.of_nat i)
          by (apply (band_disjoint H N HH HHmax HN HNmax _ _ (Z.of_nat y));
              (done || lia)).
        assert (k = i) as -> by lia. congruence.
Qed.

End Turn.

Section BandTasks.

Variable params : WorldParams.
Variable N : Z.
Hypothesis HH : 1 ≤ ImageHeight params.
Hypothesis HHmax : ImageHeight params ≤ max_len.
Hypothesis Hlen : len (World params) = ImageHeight params.
Hypothesis HN : 1 ≤ N.
Hypothesis HNmax : N ≤ max_len.

Local Abbreviation H := (ImageHeight params).
Local Abbreviation start i := (Fan.band H N i).1.
Local Abbreviation stop i := (Fan.band H N i).2.

Lemma wrapped_row_lookup y :
  World params !! Z.to_nat (y `mod` H) = Some (wrapped_row params y).
Proof.
  unfold wrapped_row.
  destruct (lookup_in_range (World params) (y `mod` H)) as [r ->];
    [rewrite Hlen; apply Z.mod_pos_bound; lia|done].
Qed.

Lemma build_band_task i :
  0 ≤ i < N →
  Broker.build_task params (start i) (stop i) = Ok (band_task params N i)
  ∧ StartY (band_task params N i) = start i.
Proof.
  intros Hi. split; [|done].
  pose proof (band_bounds H N ltac:(lia) HHmax HN HNmax i Hi) as Hbb.
  apply build_task_layout;
    (done || lia || apply wrapped_row_lookup).
Qed.

Lemma build_band_task_copy i :
  0 ≤ i < N →
  BrokerCopy.build_task params (start i) (stop i)
  = Ok (band_task_copy params N i)
  ∧ StartY (band_task_copy params N i) = start i.
Proof.
  intros Hi. split; [|done].
  pose proof (band_bounds H N ltac:(lia) HHmax HN HNmax i Hi) as Hbb.
  apply build_task_copy_layout;
    (done || lia || apply wrapped_row_lookup).
Qed.

Lemma length_core_rows i :
  0 ≤ i < N →
  length (core_rows params (start i) (stop i))
  = Z.to_nat (stop i - start i).
Proof.
  intros Hi. pose proof (band_bounds H N ltac:(lia) HHmax HN HNmax i Hi) as Hbb.
  apply length_core; (done || lia).
Qed.

Lemma len_band_task i :
  0 ≤ i < N →
  len (WorldPart (band_task params N i)) = stop i - start i + 2.
Proof.
  intros Hi. pose proof (band_bounds H N ltac:(lia) HHmax HN HNmax i Hi) as Hbb.
  unfold len. cbn [band_task WorldPart length].
  rewrite length_app, length_core_rows by done. cbn [length]. lia.
Qed.

Lemma len_band_task_copy i :
  0 ≤ i < N →
  len (WorldPart (band_task_copy params N i)) = stop i - start i + 2.
Proof.
  intros Hi. pose proof (band_bounds H N ltac:(lia) HHmax HN HNmax i Hi) as Hbb.
  unfold len. cbn [band_task_copy WorldPart].
  rewrite length_app, length_core_rows by done. cbn [length]. lia.
Qed.

Variable W : Z.
Hypothesis Hrect : rectangular W (World params).
Hypothesis HWmax : W ≤ max_len.

(** The largest buffer, that of a single band, has two rows more than
    the world. *)
Hypothesis Hbuf : ImageHeight params + 2 ≤ max_len.

Lemma rectangular_wrapped_row y : len (wrapped_row params y) = W.
Proof. eauto using rectangular_lookup, wrapped_row_lookup. Qed.

Lemma rectangular_core_rows s e : rectangular W (core_rows params s e).
Proof.
  unfold rectangular, core_rows. by apply Forall_take, Forall_drop.
Qed.

Lemma rectangular_band_task i :
  rectangular W (WorldPart (band_task params N i)).
Proof.
  unfold rectangular. cbn [band_task WorldPart].
  apply Forall_cons. split; [apply rectangular_wrapped_row|].
  apply Forall_app. split; [apply rectangular_core_rows|].
  apply Forall_cons. split; [apply rectangular_wrapped_row|done].
Qed.

Lemma rectangular_band_task_copy i :
  rectangular W (WorldPart (band_task_copy params N i)).
Proof.
  unfold rectangular. cbn [band_task_copy WorldPart].
  apply Forall_app. split; [apply rectangular_core_rows|].
  repeat (apply Forall_cons; split; [apply rectangular_wrapped_row|]).
  done.
Qed.

(** A worker that runs worker.go returns as many rows as the band has,
    in either layout. *)
Lemma served_rows i :
  0 ≤ i < N →
  Worker.ProcessPart (band_task params N i)
  = if 0 <? stop i - start i
    then Ok (band_next (WorldPart (band_task params N i)) W
                       (stop i - start i))
    else Err "invalid task: height <= 0".
Proof.
  intros Hi. pose proof (band_bounds H N ltac:(lia) HHmax HN HNmax i Hi) as Hbb.
  destruct (0 <? stop i - start i) eqn:E.
  - apply ProcessPart_valid.
    + apply rectangular_band_task.
    + done.
    + rewrite len_band_task by done. lia.
    + cbn [band_task StartY EndY]. lia.
    + rewrite len_band_task by done. cbn [band_task StartY EndY]. lia.
  - unfold Worker.ProcessPart, Worker.height.
    cbn [band_task StartY EndY]. unwrap.
    by destruct (stop i - start i <=? 0) eqn:E'; [|lia].
Qed.

Lemma served_rows_copy i :
  0 ≤ i < N →
  Worker.ProcessPart (band_task_copy params N i)
  = if 0 <? stop i - start i
    then Ok (band_next (WorldPart (band_task_copy params N i)) W
                       (stop i - start i))
    else Err "invalid task: height <= 0".
Proof.
  intros Hi. pose proof (band_bounds H N ltac:(lia) HHmax HN HNmax i Hi) as Hbb.
  destruct (0 <? stop i - start i) eqn:E.
  - apply ProcessPart_valid.
    + apply rectangular_band_task_copy.
    + done.
    + rewrite len_band_task_copy by done. lia.
    + cbn [band_task_copy StartY EndY]. lia.
    + rewrite len_band_task_copy by done.
      cbn [band_task_copy StartY EndY]. lia.
  - unfold Worker.ProcessPart, Worker.height.
    cbn [band_task_copy StartY EndY]. unwrap.
    by destruct (stop i - start i <=? 0) eqn:E'; [|lia].
Qed.

Lemma served_rows_length (w : WorkerClient) (t : Task) i res :
  0 ≤ i < N →
  t = band_task params N i ∨ t = band_task_copy params N i →
  serves_or_fails w →
  Call w t = Ok res → len res = stop i - start i.
Proof.
  intros Hi Ht Hw Hcall.
  destruct (Hw t) as [Hserve|[msg Hmsg]]; [|congruence].
  rewrite Hserve in Hcall.
  destruct Ht as [-> | ->];
    rewrite ?served_rows, ?served_rows_copy in Hcall by done;
    (destruct (0 <? stop i - start i) eqn:E; [|done]);
    injection Hcall as <-; apply length_band_next; lia.
Qed.

End BandTasks.

(** *** Partition *)

(** C4.  For a grid of [H ≥ 1] rows and a registry of [N ≥ 1] workers,
    band [i < N - 1] is the row range [[i * ⌊H/N⌋, (i + 1) * ⌊H/N⌋)] and
    band [N - 1] is [[(N - 1) * ⌊H/N⌋, H)]; the first band starts at row
    0, each band starts where the previous one ends, the last one ends at
    row [H]; every row of [[0, H)] lies in a band, every band lies in
    [[0, H)], and no row lies in two bands.  In both brokers the
    goroutine started for index [i] is given worker [i] of the registry
    and a task with the bounds of band [i].  The world and the registry
    are slices, so [H] and [N] are at most [max_len]. *)
Theorem bands_partition (params : WorldParams) (ws : list WorkerClient) :
  1 ≤ ImageHeight params → ImageHeight params ≤ max_len →
  len (World params) = ImageHeight params →
  1 ≤ len ws → len ws ≤ max_len →
  (∀ i, 0 ≤ i < len ws - 1 →
     Fan.band (ImageHeight params) (len ws) i
     = (i * (ImageHeight params `div` len ws),
        (i + 1) * (ImageHeight params `div` len ws)))
  ∧ Fan.band (ImageHeight params) (len ws) (len ws - 1)
    = ((len ws - 1) * (ImageHeight params `div` len ws),
       ImageHeight params)
  ∧ (Fan.band (ImageHeight params) (len ws) 0).1 = 0
  ∧ (∀ i, 0 ≤ i < len ws - 1 →
       (Fan.band (ImageHeight params) (len ws) (i + 1)).1
       = (Fan.band (ImageHeight params) (len ws) i).2)
  ∧ (∀ i, 0 ≤ i < len ws →
       0 ≤ (Fan.band (ImageHeight params) (len ws) i).1
       ∧ (Fan.band (ImageHeight params) (len ws) i).1
         ≤ (Fan.band (ImageHeight params) (len ws) i).2
       ∧ (Fan.band (ImageHeight params) (len ws) i).2
         ≤ ImageHeight params)
  ∧ (∀ y, 0 ≤ y < ImageHeight params →
       ∃ i, 0 ≤ i < len ws
            ∧ (Fan.band (ImageHeight params) (len ws) i).1 ≤ y
              < (Fan.band (ImageHeight params) (len ws) i).2)
  ∧ (∀ i j y, 0 ≤ i < len ws → 0 ≤ j < len ws →
       (Fan.band (ImageHeight params) (len ws) i).1 ≤ y
         < (Fan.band (ImageHeight params) (len ws) i).2 →
       (Fan.band (ImageHeight params) (len ws) j).1 ≤ y
         < (Fan.band (ImageHeight params) (len ws) j).2 →
       i = j)
  ∧ (∀ build,
       build = Broker.build_task ∨ build = BrokerCopy.build_task →
       ∃ gs,
         mapM (Fan.spawn build params (len ws))
              (zip (seqZ 0 (len ws)) ws) = Ok gs
         ∧ ∀ (i : nat) w, ws !! i = Some w →
             ∃ g, gs !! i = Some g
                  ∧ Fan.g_worker g = w
                  ∧ (StartY (Fan.g_task g), EndY (Fan.g_task g))
                    = Fan.band (ImageHeight params) (len ws) (Z.of_nat i)).
Proof.
  intros HH HHmax Hlen HN HNmax.
  assert (HH' : 0 ≤ ImageHeight params) by lia.
  rewrite <- (quot_floor _ _ HH' HN).
  split; [intros i Hi; apply band_inner; (done || lia)|].
  split; [by apply band_last|].
  split.
  { rewrite band_exact by (done || lia). simpl. lia. }
  split; [intros i Hi; by apply band_next_start|].
  split; [intros i Hi; by apply band_bounds|].
  split; [intros y Hy; by apply band_cover|].
  split; [intros i j y Hi Hj; by apply band_disjoint|].
  intros build [-> | ->].
  - eexists. split.
    + apply (spawn_all _ params ws (band_task params (len ws))).
      intros i Hi. by apply build_band_task.
    + intros i w Hw. eexists. split.
      * apply goroutine_lookup. exists w. split; [exact Hw|reflexivity].
      * split; [done|]. cbn [Fan.g_task band_task StartY EndY].
        by destruct (Fan.band _ _ _).
  - eexists. split.
    + apply (spawn_all _ params ws (band_task_copy params (len ws))).
      intros i Hi. by apply build_band_task_copy.
    + intros i w Hw. eexists. split.
      * apply goroutine_lookup. exists w. split; [exact Hw|reflexivity].
      * split; [done|]. cbn [Fan.g_task band_task_copy StartY EndY].
        by destruct (Fan.band _ _ _).
Qed.

Lemma bands_partition_witness :
  (∀ i, 0 ≤ i < len sample_workers - 1 →
     Fan.band (ImageHeight sample_params) (len sample_workers) i
     = (i * (ImageHeight sample_params `div` len sample_workers),
        (i + 1) * (ImageHeight sample_params `div` len sample_workers)))
  ∧ Fan.band (ImageHeight sample_params) (len sample_workers)
             (len sample_workers - 1)
    = ((len sample_workers - 1)
       * (ImageHeight sample_params `div` len sample_workers),
       ImageHeight sample_params)
  ∧ (Fan.band (ImageHeight sample_params) (len sample_workers) 0).1 = 0
  ∧ (∀ i, 0 ≤ i < len sample_workers - 1 →
       (Fan.band (ImageHeight sample_params) (len sample_workers) (i + 1)).1
       = (Fan.band (ImageHeight sample_params) (len sample_workers) i).2)
  ∧ (∀ i, 0 ≤ i < len sample_workers →
       0 ≤ (Fan.band (ImageHeight sample_params) (len sample_workers) i).1
       ∧ (Fan.band (ImageHeight sample_params) (len sample_workers) i).1
         ≤ (Fan.band (ImageHeight sample_params) (len sample_workers) i).2
       ∧ (Fan.band (ImageHeight sample_params) (len sample_workers) i).2
         ≤ ImageHeight sample_params)
  ∧ (∀ y, 0 ≤ y < ImageHeight sample_params →
       ∃ i, 0 ≤ i < len sample_workers
            ∧ (Fan.band (ImageHeight sample_params)
                        (len sample_workers) i).1 ≤ y
              < (Fan.band (ImageHeight sample_params)
                          (len sample_workers) i).2)
  ∧ (∀ i j y, 0 ≤ i < len sample_workers → 0 ≤ j < len sample_workers →
       (Fan.band (ImageHeight sample_params) (len sample_workers) i).1 ≤ y
         < (Fan.band (ImageHeight sample_params) (len sample_workers) i).2 →
       (Fan.band (ImageHeight sample_params) (len sample_workers) j).1 ≤ y
         < (Fan.band (ImageHeight sample_params) (len sample_workers) j).2 →
       i = j)
  ∧ (∀ build,
       build = Broker.build_task ∨ build = BrokerCopy.build_task →
       ∃ gs,
         mapM (Fan.spawn build sample_params (len sample_workers))
              (zip (seqZ 0 (len sample_workers)) sample_workers) = Ok gs
         ∧ ∀ (i : nat) w, sample_workers !! i = Some w →
             ∃ g, gs !! i = Some g
                  ∧ Fan.g_worker g = w
                  ∧ (StartY (Fan.g_task g), EndY (Fan.g_task g))
                    = Fan.band (ImageHeight sample_params)
                               (len sample_workers) (Z.of_nat i)).
Proof.
  apply (bands_partition sample_params sample_workers);
    [simpl; lia | by vm_compute | reflexivity | unfold len; simpl; lia
    | by vm_compute].
Defined.

(** *** Halo rows *)

(** C2, as the claim states it, fails for the older broker: for band 0
    of two on a world of four rows, the first row of its buffer is row 0
    of the world and not row 3, its last row is row 3 and not row 2, and
    the band's rows are in positions 0 and 1. *)
Lemma copy_broker_layout_differs :
  ∃ t,
    BrokerCopy.build_task numbered_params
      (Fan.band 4 2 0).1 (Fan.band 4 2 0).2 = Ok t
    ∧ (Fan.band 4 2 0) = (0, 2)
    ∧ WorldPart t !! 0%nat
      ≠ World numbered_params !! Z.to_nat ((0 - 1 + 4) `mod` 4)
    ∧ WorldPart t !! 3%nat ≠ World numbered_params !! Z.to_nat (2 `mod` 4)
    ∧ WorldPart t !! 1%nat ≠ World numbered_params !! 0%nat.
Proof. eexists. split; [reflexivity|]. repeat split; vm_compute; congruence. Qed.

(** C2 (amended).  For every band [[startY, endY)] of a turn on a world
    of [H ≥ 1] rows, the broker with the cached world builds a buffer of
    [height + 2] rows with row [(startY - 1 + H) mod H] of the input
    world first, the band's own rows in positions [1 .. height], and row
    [endY mod H] of the input world last.  The older broker builds a
    buffer of [height + 2] rows with the band's own rows in positions
    [0 .. height - 1], row [endY mod H] in position [height] and row
    [(startY - 1 + H) mod H] last.  The world and the registry are
    slices, so [H] and [N] are at most [max_len]. *)
Theorem task_buffer_layout (params : WorldParams) (N i : Z) :
  1 ≤ ImageHeight params → ImageHeight params ≤ max_len →
  len (World params) = ImageHeight params →
  1 ≤ N → N ≤ max_len → 0 ≤ i < N →
  ∃ above below,
    World params
      !! Z.to_nat (((Fan.band (ImageHeight params) N i).1 - 1
                    + ImageHeight params) `mod` ImageHeight params)
    = Some above
    ∧ World params
        !! Z.to_nat ((Fan.band (ImageHeight params) N i).2
                     `mod` ImageHeight params)
      = Some below
    ∧ (∃ t,
         Broker.build_task params (Fan.band (ImageHeight params) N i).1
           (Fan.band (ImageHeight params) N i).2 = Ok t
         ∧ (StartY t, EndY t) = Fan.band (ImageHeight params) N i
         ∧ len (WorldPart t) = EndY t - StartY t + 2
         ∧ WorldPart t !! 0%nat = Some above
         ∧ (∀ k, 0 ≤ k < EndY t - StartY t →
              WorldPart t !! Z.to_nat (k + 1)
              = World params !! Z.to_nat (StartY t + k)
              ∧ is_Some (World params !! Z.to_nat (StartY t + k)))
         ∧ WorldPart t !! Z.to_nat (EndY t - StartY t + 1) = Some below)
    ∧ (∃ t,
         BrokerCopy.build_task params (Fan.band (ImageHeight params) N i).1
           (Fan.band (ImageHeight params) N i).2 = Ok t
         ∧ (StartY t, EndY t) = Fan.band (ImageHeight params) N i
         ∧ len (WorldPart t) = EndY t - StartY t + 2
         ∧ (∀ k, 0 ≤ k < EndY t - StartY t →
              WorldPart t !! Z.to_nat k
              = World params !! Z.to_nat (StartY t + k)
              ∧ is_Some (World params !! Z.to_nat (StartY t + k)))
         ∧ WorldPart t !! Z.to_nat (EndY t - StartY t) = Some below
         ∧ WorldPart t !! Z.to_nat (EndY t - StartY t + 1) = Some above).
Proof.
  intros HH HHmax Hlen HN HNmax Hi.
  pose proof (band_bounds (ImageHeight params) N ltac:(lia) HHmax HN HNmax
                i Hi) as Hbb.
  destruct (Fan.band (ImageHeight params) N i) as [s e] eqn:Hband.
  cbn [fst snd] in *.
  destruct (halo_rows params s e HH Hlen) as (above & below & Ha & Hb).
  assert (Hcore : length (core_rows params s e) = Z.to_nat (e - s))
    by (apply length_core; (done || lia)).
  assert (Hrow : ∀ k, 0 ≤ k < e - s →
            core_rows params s e !! Z.to_nat k
            = World params !! Z.to_nat (s + k)
            ∧ is_Some (World params !! Z.to_nat (s + k))).
  { intros k Hk. split; [apply core_lookup; (done || lia)|].
    apply lookup_lt_is_Some_2. unfold len in Hlen. lia. }
  exists above, below. split; [exact Ha|]. split; [exact Hb|]. split.
  - exists {| StartY := s; EndY := e;
              WorldPart := above :: core_rows params s e ++ [below] |}.
    split; [apply build_task_layout; (done || lia)|].
    cbn [StartY EndY WorldPart]. split; [done|]. split.
    { unfold len. cbn [length]. rewrite length_app, Hcore. cbn [length]. lia. }
    split; [done|]. split.
    + intros k Hk. rewrite lookup_cons_ne_0 by lia.
      replace (Init.Nat.pred (Z.to_nat (k + 1))) with (Z.to_nat k) by lia.
      rewrite lookup_app_l by lia. by apply Hrow.
    + rewrite lookup_cons_ne_0 by lia.
      replace (Init.Nat.pred (Z.to_nat (e - s + 1)))
        with (length (core_rows params s e) + 0)%nat by lia.
      by rewrite lookup_app_r, Nat.add_sub' by lia.
  - exists {| StartY := s; EndY := e;
              WorldPart := core_rows params s e ++ [below; above] |}.
    split; [apply build_task_copy_layout; (done || lia)|].
    cbn [StartY EndY WorldPart]. split; [done|]. split.
    { unfold len. rewrite length_app, Hcore. cbn [length]. lia. }
    split; [|split].
    + intros k Hk. rewrite lookup_app_l by lia. by apply Hrow.
    + replace (Z.to_nat (e - s))
        with (length (core_rows params s e) + 0)%nat by lia.
      by rewrite lookup_app_r, Nat.add_sub' by lia.
    + replace (Z.to_nat (e - s + 1))
        with (length (core_rows params s e) + 1)%nat by lia.
      by rewrite lookup_app_r, Nat.add_sub' by lia.
Qed.

Lemma task_buffer_layout_witness :
  ∃ above below,
    World sample_params
      !! Z.to_nat (((Fan.band (ImageHeight sample_params) 2 1).1 - 1
                    + ImageHeight sample_params)
                   `mod` ImageHeight sample_params)
    = Some above
    ∧ World sample_params
        !! Z.to_nat ((Fan.band (ImageHeight sample_params) 2 1).2
                     `mod` ImageHeight sample_params)
      = Some below
    ∧ (∃ t,
         Broker.build_task sample_params
           (Fan.band (ImageHeight sample_params) 2 1).1
           (Fan.band (ImageHeight sample_params) 2 1).2 = Ok t
         ∧ (StartY t, EndY t) = Fan.band (ImageHeight sample_params) 2 1
         ∧ len (WorldPart t) = EndY t - StartY t + 2
         ∧ WorldPart t !! 0%nat = Some above
         ∧ (∀ k, 0 ≤ k < EndY t - StartY t →
              WorldPart t !! Z.to_nat (k + 1)
              = World sample_params !! Z.to_nat (StartY t + k)
              ∧ is_Some (World sample_params !! Z.to_nat (StartY t + k)))
         ∧ WorldPart t !! Z.to_nat (EndY t - StartY t + 1) = Some below)
    ∧ (∃ t,
         BrokerCopy.build_task sample_params
           (Fan.band (ImageHeight sample_params) 2 1).1
           (Fan.band (ImageHeight sample_params) 2 1).2 = Ok t
         ∧ (StartY t, EndY t) = Fan.band (ImageHeight sample_params) 2 1
         ∧ len (WorldPart t) = EndY t - StartY t + 2
         ∧ (∀ k, 0 ≤ k < EndY t - StartY t →
              WorldPart t !! Z.to_nat k
              = World sample_params !! Z.to_nat (StartY t + k)
              ∧ is_Some (World sample_params !! Z.to_nat (StartY t + k)))
         ∧ WorldPart t !! Z.to_nat (EndY t - StartY t) = Some below
         ∧ WorldPart t !! Z.to_nat (EndY t - StartY t + 1) = Some above).
Proof.
  apply (task_buffer_layout sample_params 2 1);
    [simpl; lia | by vm_compute | reflexivity | lia | by vm_compute | lia].
Defined.

(** *** Failed calls *)

Section Served.

Variable params : WorldParams.
Variable ws : list WorkerClient.
Variable sched : list nat.
Hypothesis HH : 1 ≤ ImageHeight params.
Hypothesis Hbuf : ImageHeight params + 2 ≤ max_len.
Hypothesis HW : 0 ≤ ImageWidth params.
Hypothesis HWmax : ImageWidth params ≤ max_len.
Hypothesis Hlen : len (World params) = ImageHeight params.
Hypothesis Hrect : rectangular (ImageWidth params) (World params).
Hypothesis HN : 1 ≤ len ws.
Hypothesis HNmax : len ws ≤ max_len.
Hypothesis Hws : Forall serves_or_fails ws.
Hypothesis Hsched : sched ≡ₚ seq 0 (length ws).

Local Abbreviation H := (ImageHeight params).
Local Abbreviation W := (ImageWidth params).
Local Abbreviation N := (len ws).

Lemma registry_index (i : nat) w : ws !! i = Some w → 0 ≤ Z.of_nat i < N.
Proof. intros Hw%lookup_lt_Some. unfold len. lia. Qed.

Lemma world_fits : H ≤ max_len.
Proof. lia. Qed.

Lemma dispatch_served :
  ∃ g,
    Fan.dispatch Broker.build_task Broker.line ws sched params
    = Ok (g, omap (λ i : nat, ws !! i ≫= λ w,
                     failure Broker.line w
                       (band_task params N (Z.of_nat i))) sched)
    ∧ len g = H
    ∧ ∀ (i : nat) w (y : nat),
        ws !! i = Some w →
        (Fan.band H N (Z.of_nat i)).1 ≤ Z.of_nat y
          < (Fan.band H N (Z.of_nat i)).2 →
        g !! y = match Call w (band_task params N (Z.of_nat i)) with
                 | Ok res =>
                     res !! Z.to_nat (Z.of_nat y
                                      - (Fan.band H N (Z.of_nat i)).1)
                 | _ => Some (replicate (Z.to_nat W) 0)
                 end.
Proof.
  apply dispatch_spec; try (done || lia).
  - intros i Hi. apply build_band_task; (done || lia).
  - intros i w res Hw Hcall.
    eapply (served_rows_length params N HH world_fits Hlen HN HNmax W
              Hrect HWmax Hbuf w);
      [by eapply registry_index|by left| |exact Hcall].
    eapply (proj1 (Forall_lookup _ _) Hws); eauto.
Qed.

Lemma dispatch_served_copy :
  ∃ g,
    Fan.dispatch BrokerCopy.build_task BrokerCopy.line ws sched params
    = Ok (g, omap (λ i : nat, ws !! i ≫= λ w,
                     failure BrokerCopy.line w
                       (band_task_copy params N (Z.of_nat i))) sched)
    ∧ len g = H
    ∧ ∀ (i : nat) w (y : nat),
        ws !! i = Some w →
        (Fan.band H N (Z.of_nat i)).1 ≤ Z.of_nat y
          < (Fan.band H N (Z.of_nat i)).2 →
        g !! y = match Call w (band_task_copy params N (Z.of_nat i)) with
                 | Ok res =>
                     res !! Z.to_nat (Z.of_nat y
                                      - (Fan.band H N (Z.of_nat i)).1)
                 | _ => Some (replicate (Z.to_nat W) 0)
                 end.
Proof.
  apply dispatch_spec; try (done || lia).
  - intros i Hi. apply build_band_task_copy; (done || lia).
  - intros i w res Hw Hcall.
    eapply (served_rows_length params N HH world_fits Hlen HN HNmax W
              Hrect HWmax Hbuf w);
      [by eapply registry_index|by right| |exact Hcall].
    eapply (proj1 (Forall_lookup _ _) Hws); eauto.
Qed.

End Served.

(** C8.  With at least one worker registered, where every call either
    reaches a worker that runs worker.go or fails, [ProcessTurn] returns
    a [nil] error and a world of [H] rows, whatever the order in which
    the calls complete.  In that world every row of a band whose call
    failed is the all-zero row of the allocation, and every row of a
    band whose call succeeded is the row that the worker returned for
    it.  One line is printed for each failed call and nothing else
    happens.  This holds for both brokers.  The rows, the registry and
    the largest task buffer, of [H + 2] rows, are slices, so [W], [N]
    and [H + 2] are at most [max_len]. *)
Theorem ProcessTurn_survives_failed_calls (b : Broker.t)
    (ws : list WorkerClient) (sched : list nat) (params : WorldParams) :
  1 ≤ ImageHeight params → ImageHeight params + 2 ≤ max_len →
  0 ≤ ImageWidth params → ImageWidth params ≤ max_len →
  len (World params) = ImageHeight params →
  rectangular (ImageWidth params) (World params) →
  1 ≤ len ws → len ws ≤ max_len →
  Forall serves_or_fails ws →
  sched ≡ₚ seq 0 (length ws) →
  (∃ g,
     Broker.ProcessTurn b ws sched params
     = {| Broker.broker := {| Broker.currentWorld := g |};
          Broker.stdout :=
            omap (λ i : nat, ws !! i ≫= λ w,
                    failure Broker.line w
                      (band_task params (len ws) (Z.of_nat i))) sched;
          Broker.ret := Ok g |}
     ∧ len g = ImageHeight params
     ∧ ∀ (i : nat) w (y : nat),
         ws !! i = Some w →
         (Fan.band (ImageHeight params) (len ws) (Z.of_nat i)).1
           ≤ Z.of_nat y
           < (Fan.band (ImageHeight params) (len ws) (Z.of_nat i)).2 →
         match Call w (band_task params (len ws) (Z.of_nat i)) with
         | Ok res =>
             ∃ r, g !! y = Some r
                  ∧ res !! Z.to_nat
                      (Z.of_nat y
                       - (Fan.band (ImageHeight params) (len ws)
                                   (Z.of_nat i)).1) = Some r
         | _ => g !! y = Some (replicate (Z.to_nat (ImageWidth params)) 0)
         end)
  ∧ (∃ g,
       BrokerCopy.ProcessTurn ws sched params
       = Ok (g, omap (λ i : nat, ws !! i ≫= λ w,
                        failure BrokerCopy.line w
                          (band_task_copy params (len ws) (Z.of_nat i)))
                     sched)
       ∧ len g = ImageHeight params
       ∧ ∀ (i : nat) w (y : nat),
           ws !! i = Some w →
           (Fan.band (ImageHeight params) (len ws) (Z.of_nat i)).1
             ≤ Z.of_nat y
             < (Fan.band (ImageHeight params) (len ws) (Z.of_nat i)).2 →
           match Call w (band_task_copy params (len ws) (Z.of_nat i)) with
           | Ok res =>
               ∃ r, g !! y = Some r
                    ∧ res !! Z.to_nat
                        (Z.of_nat y
                         - (Fan.band (ImageHeight params) (len ws)
                                     (Z.of_nat i)).1) = Some r
           | _ => g !! y = Some (replicate (Z.to_nat (ImageWidth params)) 0)
           end).
Proof.
  intros HH Hbuf HW HWmax Hlen Hrect HN HNmax Hws Hsched.
  assert (HHmax : ImageHeight params ≤ max_len) by lia.
  assert (Hrow : ∀ (g : grid) (y : nat),
            len g = ImageHeight params →
            Z.of_nat y < ImageHeight params → ∃ r, g !! y = Some r).
  { intros g y Hg Hy. apply lookup_lt_is_Some_2. unfold len in Hg. lia. }
  split.
  - destruct (dispatch_served params ws sched) as (g & Hrun & Hg & Hrows);
      try done.
    exists g. split; [unfold Broker.ProcessTurn; by rewrite Hrun|].
    split; [done|]. intros i w y Hw Hy.
    pose proof (band_bounds (ImageHeight params) (len ws) ltac:(lia) HHmax
                  HN HNmax _ (registry_index ws i w Hw)) as Hbb.
    specialize (Hrows i w y Hw Hy).
    destruct (Call w _); try done.
    destruct (Hrow g y) as [r Hr]; [done|lia|].
    exists r. split; congruence.
  - destruct (dispatch_served_copy params ws sched)
      as (g & Hrun & Hg & Hrows); try done.
    exists g. split; [done|]. split; [done|]. intros i w y Hw Hy.
    pose proof (band_bounds (ImageHeight params) (len ws) ltac:(lia) HHmax
                  HN HNmax _ (registry_index ws i w Hw)) as Hbb.
    specialize (Hrows i w y Hw Hy).
    destruct (Call w _); try done.
    destruct (Hrow g y) as [r Hr]; [done|lia|].
    exists r. split; congruence.
Qed.

Lemma ProcessTurn_survives_failed_calls_witness :
  (∃ g,
     Broker.ProcessTurn {| Broker.currentWorld := [] |} flaky_workers
       [0; 2; 1]%nat sample_params
     = {| Broker.broker := {| Broker.currentWorld := g |};
          Broker.stdout :=
            omap (λ i : nat, flaky_workers !! i ≫= λ w,
                    failure Broker.line w
                      (band_task sample_params (len flaky_workers)
                                 (Z.of_nat i))) [0; 2; 1]%nat;
          Broker.ret := Ok g |}
     ∧ len g = ImageHeight sample_params
     ∧ ∀ (i : nat) w (y : nat),
         flaky_workers !! i = Some w →
         (Fan.band (ImageHeight sample_params) (len flaky_workers)
                   (Z.of_nat i)).1
           ≤ Z.of_nat y
           < (Fan.band (ImageHeight sample_params) (len flaky_workers)
                       (Z.of_nat i)).2 →
         match Call w (band_task sample_params (len flaky_workers)
                                 (Z.of_nat i)) with
         | Ok res =>
             ∃ r, g !! y = Some r
                  ∧ res !! Z.to_nat
                      (Z.of_nat y
                       - (Fan.band (ImageHeight sample_params)
                                   (len flaky_workers) (Z.of_nat i)).1)
                    = Some r
         | _ => g !! y
                = Some (replicate (Z.to_nat (ImageWidth sample_params)) 0)
         end)
  ∧ (∃ g,
       BrokerCopy.ProcessTurn flaky_workers [0; 2; 1]%nat sample_params
       = Ok (g, omap (λ i : nat, flaky_workers !! i ≫= λ w,
                        failure BrokerCopy.line w
                          (band_task_copy sample_params (len flaky_workers)
                                          (Z.of_nat i)))
                     [0; 2; 1]%nat)
       ∧ len g = ImageHeight sample_params
       ∧ ∀ (i : nat) w (y : nat),
           flaky_workers !! i = Some w →
           (Fan.band (ImageHeight sample_params) (len flaky_workers)
                     (Z.of_nat i)).1
             ≤ Z.of_nat y
             < (Fan.band (ImageHeight sample_params) (len flaky_workers)
                         (Z.of_nat i)).2 →
           match Call w (band_task_copy sample_params (len flaky_workers)
                                        (Z.of_nat i)) with
           | Ok res =>
               ∃ r, g !! y = Some r
                    ∧ res !! Z.to_nat
                        (Z.of_nat y
                         - (Fan.band (ImageHeight sample_params)
                                     (len flaky_workers) (Z.of_nat i)).1)
                      = Some r
           | _ => g !! y
                  = Some (replicate (Z.to_nat (ImageWidth sample_params)) 0)
           end).
Proof.
  apply (ProcessTurn_survives_failed_calls
           {| Broker.currentWorld := [] |} flaky_workers [0; 2; 1]%nat
           sample_params).
  - simpl; lia.
  - by vm_compute.
  - simpl; lia.
  - by vm_compute.
  - reflexivity.
  - rect.
  - unfold len; simpl; lia.
  - by vm_compute.
  - apply Forall_cons; split; [intros t; by left|].
    apply Forall_cons; split; [intros t; right; by eexists|].
    apply Forall_cons; split; [intros t; by left|]. constructor.
  - apply perm_skip, perm_swap.
Defined.

(** *** Merge equivalence *)

Lemma omap_none {A B} (f : A → option B) (l : list A) :
  (∀ a, f a = None) → omap f l = [].
Proof.
  intros Hf. induction l as [|a l IH]; [done|].
  cbn [omap list_omap]. by rewrite Hf.
Qed.

(** The next state of a cell depends on the nine cells around it. *)
Lemma next_ext (read1 read2 : Z → Z → Z) (x y1 y2 : Z) :
  (∀ dx dy, -1 ≤ dx ≤ 1 → -1 ≤ dy ≤ 1 →
     read1 (x + dx) (y1 + dy) = read2 (x + dx) (y2 + dy)) →
  Spec.next read1 x y1 = Spec.next read2 x y2.
Proof.
  intros Hext. unfold Spec.next, Spec.live_neighbours. cbn [foldr Spec.offsets fst snd].
  pose proof (Hext 0 0 ltac:(lia) ltac:(lia)) as Hmid.
  rewrite !Z.add_0_r in Hmid. rewrite Hmid.
  by rewrite !Hext by lia.
Qed.

Section Equivalence.

Variable params : WorldParams.
Variable N : Z.
Hypothesis HW : 1 ≤ ImageWidth params.
Hypothesis HH : 1 ≤ ImageHeight params.
Hypothesis Hlen : len (World params) = ImageHeight params.
Hypothesis HN : 1 ≤ N.
Hypothesis HHmax : ImageHeight params ≤ max_len.
Hypothesis HNmax : N ≤ max_len.

Local Abbreviation H := (ImageHeight params).
Local Abbreviation W := (ImageWidth params).
Local Abbreviation start i := (Fan.band H N i).1.
Local Abbreviation stop i := (Fan.band H N i).2.

(** Row [j] of the buffer of band [i] is row [start i - 1 + j] of the
    torus. *)
Lemma buffer_torus i x j :
  0 ≤ i < N → 0 ≤ j ≤ stop i - start i + 1 →
  Spec.buffer (WorldPart (band_task params N i)) W x j
  = Spec.torus (World params) W H x (start i - 1 + j).
Proof.
  intros Hi Hj.
  pose proof (band_bounds H N ltac:(lia) HHmax HN HNmax i Hi) as Hbb.
  unfold Spec.buffer, Spec.torus.
  destruct (0 <=? j) eqn:E; [|lia].
  cbn [band_task WorldPart].
  by rewrite (buffer_row params (start i) (stop i) HH Hlen ltac:(lia))
    by (lia || apply (wrapped_row_lookup params HH Hlen)).
Qed.

(** The rows that a worker returns for band [i] are the rows of the
    next generation of the whole torus. *)
Lemma band_next_generation i (y : nat) :
  0 ≤ i < N → start i ≤ Z.of_nat y < stop i →
  band_next (WorldPart (band_task params N i)) W (stop i - start i)
    !! Z.to_nat (Z.of_nat y - start i)
  = Spec.next_generation (World params) W H !! y.
Proof.
  intros Hi Hy.
  pose proof (band_bounds H N ltac:(lia) HHmax HN HNmax i Hi) as Hbb.
  unfold band_next, Spec.next_generation.
  rewrite !list_lookup_fmap, !lookup_seqZ_lt by lia.
  cbn [fmap option_fmap option_map]. f_equal.
  apply list_fmap_ext. intros k x Hx. apply lookup_seqZ in Hx as [-> Hk].
  apply next_ext. intros dx dy Hdx Hdy.
  rewrite buffer_torus by lia. f_equal. lia.
Qed.

Lemma band_nonempty i : N ≤ H → 0 ≤ i < N → start i < stop i.
Proof.
  intros HNH Hi.
  pose proof (rows_per_worker H N ltac:(lia) HN) as [Hr1 Hr2].
  assert (1 ≤ H ÷ N).
  { rewrite (quot_floor H N) by lia.
    apply Z.div_le_lower_bound; lia. }
  destruct (decide (i = N - 1)) as [->|Hne].
  - rewrite band_last by (done || lia). cbn [fst snd]. nia.
  - rewrite band_inner by (done || lia). cbn [fst snd]. nia.
Qed.

End Equivalence.

(** C1.  For every toroidal grid of width [W ≥ 1] and height [H ≥ 1]
    and every registry of [N] workers running worker.go, [1 ≤ N ≤ H],
    [ProcessTurn] returns, whatever the order in which the workers
    answer, the grid that one unpartitioned pass over the torus
    computes; that grid is also what the broker caches, and nothing is
    printed.  The rows and the largest task buffer, of [H + 2] rows, are
    slices, so [W] and [H + 2] are at most [max_len]. *)
Theorem ProcessTurn_next_generation (b : Broker.t) (ws : list WorkerClient)
    (sched : list nat) (params : WorldParams) :
  1 ≤ ImageWidth params → ImageWidth params ≤ max_len →
  1 ≤ ImageHeight params → ImageHeight params + 2 ≤ max_len →
  len (World params) = ImageHeight params →
  rectangular (ImageWidth params) (World params) →
  1 ≤ len ws ≤ ImageHeight params →
  Forall serves ws →
  sched ≡ₚ seq 0 (length ws) →
  Broker.ProcessTurn b ws sched params
  = {| Broker.broker :=
         {| Broker.currentWorld :=
              Spec.next_generation (World params) (ImageWidth params)
                                   (ImageHeight params) |};
       Broker.stdout := [];
       Broker.ret :=
         Ok (Spec.next_generation (World params) (ImageWidth params)
                                  (ImageHeight params)) |}.
Proof.
  intros HW HWmax HH Hbuf Hlen Hrect [HN HNH] Hws Hsched.
  assert (HHmax : ImageHeight params ≤ max_len) by lia.
  assert (HNmax : len ws ≤ max_len) by lia.
  assert (Hws' : Forall serves_or_fails ws).
  { eapply Forall_impl; [exact Hws|]. intros w Hw t. left. apply Hw. }
  destruct (dispatch_served params ws sched) as (g & Hrun & Hg & Hrows);
    try (done || lia).
  assert (Hserved : ∀ (i : nat) w, ws !! i = Some w →
            Call w (band_task params (len ws) (Z.of_nat i))
            = Ok (band_next
                    (WorldPart (band_task params (len ws) (Z.of_nat i)))
                    (ImageWidth params)
                    ((Fan.band (ImageHeight params) (len ws)
                               (Z.of_nat i)).2
                     - (Fan.band (ImageHeight params) (len ws)
                                 (Z.of_nat i)).1))).
  { intros i w Hw.
    pose proof (registry_index ws i w Hw) as Hi.
    pose proof (band_nonempty params (len ws) HH HN HHmax HNmax
                  (Z.of_nat i) HNH Hi) as Hne.
    rewrite (proj1 (Forall_lookup _ _) Hws i w Hw).
    rewrite (served_rows params (len ws) HH HHmax Hlen HN HNmax _ Hrect
               HWmax Hbuf) by done.
    by destruct (0 <? _) eqn:E; [|lia]. }
  assert (Hquiet :
    omap (λ i : nat, ws !! i ≫= λ w,
            failure Broker.line w (band_task params (len ws) (Z.of_nat i)))
         sched = []).
  { apply omap_none. intros i. destruct (ws !! i) as [w|] eqn:Hw; [|done].
    cbn [mbind option_bind]. unfold failure.
    by rewrite (Hserved i w Hw). }
  assert (Hsame : g = Spec.next_generation (World params)
                        (ImageWidth params) (ImageHeight params)).
  { apply list_eq. intros y.
    destruct (Z_lt_ge_dec (Z.of_nat y) (ImageHeight params)) as [Hy|Hy].
    - destruct (band_cover (ImageHeight params) (len ws) ltac:(lia)
                  HHmax HN HNmax (Z.of_nat y)) as (i & Hi & Hband); [lia|].
      destruct (lookup_lt_is_Some_2 ws (Z.to_nat i)) as [w Hw];
        [unfold len in Hi; lia|].
      pose proof (Hrows (Z.to_nat i) w y Hw) as Hrow.
      rewrite (Hserved _ w Hw) in Hrow. rewrite Z2Nat.id in Hrow by lia.
      rewrite Hrow by done.
      by apply band_next_generation.
    - rewrite !(proj2 (lookup_ge_None _ _)); [done| |].
      + unfold Spec.next_generation. rewrite length_fmap, length_seqZ. lia.
      + unfold len in Hg. lia. }
  unfold Broker.ProcessTurn. rewrite Hrun, Hquiet. by rewrite Hsame.
Qed.

Lemma ProcessTurn_next_generation_witness :
  Broker.ProcessTurn {| Broker.currentWorld := [] |} sample_workers
    [1; 0]%nat sample_params
  = {| Broker.broker :=
         {| Broker.currentWorld :=
              Spec.next_generation (World sample_params)
                (ImageWidth sample_params) (ImageHeight sample_params) |};
       Broker.stdout := [];
       Broker.ret :=
         Ok (Spec.next_generation (World sample_params)
               (ImageWidth sample_params) (ImageHeight sample_params)) |}.
Proof.
  apply (ProcessTurn_next_generation {| Broker.currentWorld := [] |}
           sample_workers [1; 0]%nat sample_params).
  - simpl; lia.
  - by vm_compute.
  - simpl; lia.
  - by vm_compute.
  - reflexivity.
  - rect.
  - unfold len; simpl; lia.
  - apply Forall_cons; split; [by intros t|].
    apply Forall_cons; split; [by intros t|]. constructor.
  - apply perm_swap.
Defined.

(** ** The controller *)

Section ControllerFacts.

Import Controller.

Variable p : Params.

Lemma turn_emit e c : turn (emit e c) = turn c.
Proof. unfold emit. by destruct (crashed c), (events_open c). Qed.

Lemma turn_close_done c : turn (close_done c) = turn c.
Proof. unfold close_done. by destruct (doneClosed c). Qed.

Lemma turn_close_done_last c : turn (close_done_last c) = turn c.
Proof. unfold close_done_last. by destruct (doneClosed c). Qed.

Lemma turn_saveWorld w n c : turn (saveWorld p w n c) = turn c.
Proof. unfold saveWorld. by rewrite turn_emit. Qed.

Lemma turn_finalizeGame w n c : turn (finalizeGame p w n c) = turn c.
Proof.
  unfold finalizeGame. cbn [close_events turn].
  by rewrite turn_emit, turn_saveWorld, turn_emit.
Qed.

Lemma turn_start input dialed : turn (start p input dialed) = 0.
Proof.
  unfold start. destruct (collect p _) as [initialAlive| |];
    [|cbn [crash turn]; by rewrite turn_emit..].
  destruct dialed; cbn [ret set_background turn];
    rewrite turn_emit; case_bool_decide; by rewrite ?turn_emit.
Qed.

Lemma turn_key_goroutine key c : turn (key_goroutine key c) = turn c.
Proof.
  unfold key_goroutine.
  destruct (negb (background c) || crashed c); [done|].
  destruct (Ascii.eqb key "p"); [by rewrite turn_emit|].
  by destruct (length (controlKeys c) <? 16)%nat.
Qed.

Lemma turn_poller c : turn (poller c) = turn c.
Proof.
  unfold poller.
  destruct (negb (background c) || crashed c || negb (done_open c));
    [done|apply turn_emit].
Qed.

Lemma turn_handleKey key c : turn (handleKey p key c).1 = turn c.
Proof.
  unfold handleKey.
  destruct (Ascii.eqb key "s"); [apply turn_saveWorld|].
  destruct (Ascii.eqb key "q");
    [cbn [fst]; by rewrite turn_finalizeGame, turn_close_done|].
  destruct (Ascii.eqb key "k"); [|done]. cbn [fst].
  rewrite turn_close_done.
  match goal with |- context [if ?b then _ else _] => destruct b end;
    cbn [close_events turn];
    by rewrite turn_emit; cbn [close_client turn]; rewrite turn_saveWorld.
Qed.

(** [turn] changes only in [advance], and only after a reply that the
    controller could compare with its world. *)
Lemma turn_advance rpc c :
  Int.min ≤ turn c < Int.max →
  turn (advance p rpc c)
  = turn c
    + match rpc {| ImageWidth := P_ImageWidth p;
                   ImageHeight := P_ImageHeight p;
                   World := world c |} with
      | Ok newWorld =>
          match collect p (differ_at (world c) newWorld) with
          | Ok _ => 1
          | _ => 0
          end
      | _ => 0
      end.
Proof.
  intros Hturn. unfold advance.
  destruct (rpc _) as [newWorld| |];
    [|cbn [ret turn]; rewrite turn_close_done; lia..].
  destruct (collect p _) as [flipped| |]; [|cbn [crash turn]; lia..].
  rewrite turn_emit.
  case_bool_decide; rewrite ?turn_emit; cbn [incr_turn set_world turn];
    by unwrap.
Qed.

(** The loop runs while [turn < p.Turns], so that [turn++] does not
    wrap. *)
Hypothesis HTurns : Turns p ≤ Int.max.

Lemma turn_step c a :
  Int.min ≤ turn c →
  turn (step p c a) = turn c + if turn_succeeds p c a then 1 else 0.
Proof.
  intros Hturn. destruct a as [key| |rpc]; cbn [step turn_succeeds].
  - rewrite turn_key_goroutine. lia.
  - rewrite turn_poller. lia.
  - unfold main_loop.
    destruct (returned c); [cbn [negb andb]; lia|].
    destruct (turn c <? Turns p) eqn:Hlt; cycle 1.
    { cbn [negb andb ret turn].
      rewrite turn_finalizeGame, turn_close_done_last. lia. }
    destruct (controlKeys c) as [|key keys] eqn:Hkeys.
    + rewrite bool_decide_true by done.
      destruct (isPaused c); [cbn [negb andb]; lia|].
      rewrite turn_advance by lia. cbn [negb andb].
      destruct (rpc _); [|lia..]. destruct (collect p _); lia.
    + rewrite bool_decide_false by done. cbn [negb andb].
      pose proof (turn_handleKey key (set_keys keys c)) as Hk.
      destruct (handleKey p key (set_keys keys c)) as [c' quit].
      cbn [fst set_keys turn] in Hk.
      destruct quit; cbn [ret turn]; lia.
Qed.

Lemma turn_run c trace :
  Int.min ≤ turn c →
  turn (run p c trace) = turn c + successes p c trace.
Proof.
  revert c. induction trace as [|a trace IH]; intros c Hturn.
  - cbn [run foldl successes]. lia.
  - cbn [run foldl successes]. fold (run p (step p c a) trace).
    pose proof (turn_step c a Hturn) as Hstep.
    rewrite IH by (destruct (turn_succeeds p c a); lia). lia.
Qed.

End ControllerFacts.

Lemma mapM_is_Ok {A B} (f : A → result B) (l : list A) :
  (∀ a, a ∈ l → ∃ b, f a = Ok b) → ∃ k, mapM f l = Ok k.
Proof.
  induction l as [|a l IH]; intros Hf; [by eexists|].
  destruct (Hf a) as [b Hb]; [by left|].
  destruct IH as [k Hk]; [intros a' Ha'; apply Hf; by right|].
  exists (b :: k). by rewrite mapM_cons, Hb, bind_Ok, Hk.
Qed.

Section Steady.

Import Controller.

Variable p : Params.
Hypothesis HH : 0 ≤ P_ImageHeight p.
Hypothesis HW : 0 ≤ P_ImageWidth p.
Hypothesis HTurns : Turns p ≤ Int.max.

Lemma cell_in_range (w : grid) y x :
  sized p w → 0 ≤ y < P_ImageHeight p → 0 ≤ x < P_ImageWidth p →
  ∃ r c, at_ w y = Ok r ∧ at_ r x = Ok c.
Proof.
  intros [Hlen Hrect] Hy Hx.
  destruct (lookup_in_range w y) as [r Hr]; [lia|].
  assert (len r = P_ImageWidth p) by eauto using rectangular_lookup.
  destruct (lookup_in_range r x) as [c Hc]; [lia|].
  exists r, c. split; apply at_Ok; (done || lia).
Qed.

(** The two loops over [y] and [x] finish when the test can be
    evaluated at every cell of the run's size. *)
Lemma collect_Ok (test : Z → Z → result bool) :
  (∀ y x, 0 ≤ y < P_ImageHeight p → 0 ≤ x < P_ImageWidth p →
     ∃ b, test y x = Ok b) →
  ∃ cells, collect p test = Ok cells.
Proof.
  intros Htest. unfold collect.
  destruct (mapM_is_Ok
    (λ y, cells ← mapM (λ x, b ← test y x;
                          Ok (if b : bool
                              then [ {| X := x; Y := y |} ] else []))
                       (seqZ 0 (P_ImageWidth p));
          Ok (mjoin cells))
    (seqZ 0 (P_ImageHeight p))) as [rows Hrows].
  - intros y Hy%elem_of_seqZ.
    destruct (mapM_is_Ok
      (λ x, b ← test y x;
            Ok (if b : bool then [ {| X := x; Y := y |} ] else []))
      (seqZ 0 (P_ImageWidth p))) as [cells Hcells].
    + intros x Hx%elem_of_seqZ.
      destruct (Htest y x) as [b ->]; [lia..|]. by eexists.
    + rewrite Hcells, bind_Ok. by eexists.
  - rewrite Hrows, bind_Ok. by eexists.
Qed.

(** Two grids of the size of the run can be compared cell by cell. *)
Lemma collect_differ_Ok (old new : grid) :
  sized p old → sized p new →
  ∃ flipped, collect p (differ_at old new) = Ok flipped.
Proof.
  intros Hold Hnew. apply collect_Ok. intros y x Hy Hx. unfold differ_at.
  destruct (cell_in_range old y x) as (r & a & -> & Ha); [done|lia..|].
  rewrite bind_Ok, Ha, bind_Ok.
  destruct (cell_in_range new y x) as (r' & b & -> & Hb); [done|lia..|].
  rewrite bind_Ok, Hb, !bind_Ok. by eexists.
Qed.

Lemma collect_alive_Ok (w : grid) :
  sized p w → ∃ alive, collect p (alive_at w) = Ok alive.
Proof.
  intros Hw. apply collect_Ok. intros y x Hy Hx. unfold alive_at.
  destruct (cell_in_range w y x) as (r & a & -> & Ha); [done|lia..|].
  rewrite bind_Ok, Ha, bind_Ok. by eexists.
Qed.

Lemma emit_steady e c :
  steady p c →
  steady p (emit e c) ∧ world (emit e c) = world c.
Proof.
  intros (Hr & Hc & He & Hk & Hp & Hw). unfold emit.
  rewrite Hc, He. unfold steady.
  cbn [returned crashed events_open controlKeys isPaused world].
  split; [|done]. by repeat (split; [done|]).
Qed.

(** In a steady state a pass of the loop calls the broker, takes its
    reply as the new world and counts one turn. *)
Lemma main_loop_steady rpc c :
  steady p c → Int.min ≤ turn c < Turns p → replies_grid p rpc →
  steady p (main_loop p rpc c)
  ∧ turn (main_loop p rpc c) = turn c + 1
  ∧ rpc (request p (world c)) = Ok (world (main_loop p rpc c))
  ∧ turn_succeeds p c (MainLoop rpc) = true.
Proof.
  intros Hc Hturn Hrpc.
  pose proof Hc as (Hr & Hcr & He & Hk & Hp & Hw).
  destruct (Hrpc (world c) Hw) as (g & Hg & Hsized).
  destruct (collect_differ_Ok (world c) g Hw Hsized) as [flipped Hfl].
  unfold request in Hg.
  assert (Hloop : main_loop p rpc c = advance p rpc c).
  { unfold main_loop. rewrite Hr, Hk, Hp.
    by destruct (turn c <? Turns p) eqn:E; [|lia]. }
  assert (Hsucc : turn_succeeds p c (MainLoop rpc) = true).
  { cbn [turn_succeeds]. rewrite Hr, Hk, Hp, Hg, Hfl.
    rewrite bool_decide_true by done.
    by destruct (turn c <? Turns p) eqn:E; [|lia]. }
  rewrite Hloop. split; [|split; [|split; [|exact Hsucc]]].
  - unfold advance. rewrite Hg, Hfl.
    assert (Hnext : steady p (incr_turn (set_world g c))) by done.
    case_bool_decide.
    + by apply emit_steady.
    + by apply emit_steady, emit_steady.
  - rewrite turn_advance, Hg, Hfl by lia. lia.
  - unfold advance, request. rewrite Hg, Hfl. f_equal.
    assert (Hnext : steady p (incr_turn (set_world g c))) by done.
    case_bool_decide.
    + by rewrite (proj2 (emit_steady _ _ Hnext)).
    + destruct (emit_steady (CellsFlipped (turn c ⊕ 1) flipped) _ Hnext)
        as [Hs1 Hw1].
      cbn [incr_turn set_world turn].
      by rewrite (proj2 (emit_steady _ _ Hs1)), Hw1.
Qed.

Lemma run_steady (rpcs : list (WorldParams → result grid)) c :
  steady p c → Forall (replies_grid p) rpcs →
  Int.min ≤ turn c →
  turn c + Z.of_nat (length rpcs) ≤ Turns p →
  steady p (run p c (MainLoop <$> rpcs))
  ∧ turn (run p c (MainLoop <$> rpcs))
    = turn c + Z.of_nat (length rpcs).
Proof.
  revert c.
  induction rpcs as [|rpc rpcs IH]; intros c Hc Hrpcs Hmin Hturns.
  { cbn [fmap list_fmap run foldl length]. split; [done|lia]. }
  apply Forall_cons in Hrpcs as [Hrpc Hrpcs].
  cbn [length] in Hturns.
  destruct (main_loop_steady rpc c Hc ltac:(lia) Hrpc)
    as (Hc' & Hturn' & _).
  cbn [fmap list_fmap run foldl step]. fold (fmap MainLoop rpcs).
  fold (run p (main_loop p rpc c) (MainLoop <$> rpcs)).
  destruct (IH (main_loop p rpc c) Hc' Hrpcs) as [Hs Ht]; [lia..|].
  split; [done|]. cbn [length]. lia.
Qed.

Lemma read_world_sized (h w : nat) (input : list Z) :
  (h * w ≤ length input)%nat →
  length (read_world h w input) = h
  ∧ Forall (λ r, length r = w) (read_world h w input).
Proof.
  revert input. induction h as [|h IH]; intros input Hin; [done|].
  cbn [read_world length].
  destruct (IH (drop w input)) as [Hl Hr];
    [rewrite length_drop; lia|].
  split; [by rewrite Hl|].
  apply Forall_cons. split; [rewrite length_take; lia|done].
Qed.

Lemma set_background_steady c : steady p c → steady p (set_background c).
Proof. by intros (? & ? & ? & ? & ? & ?). Qed.

(** After the first events, with the broker dialled, the controller
    is in its loop with a world of the size of the run and [turn] 0. *)
Lemma start_steady (input : list Z) :
  P_ImageHeight p * P_ImageWidth p ≤ Z.of_nat (length input) →
  steady p (start p input true).
Proof.
  intros Hin.
  destruct (read_world_sized (Z.to_nat (P_ImageHeight p))
              (Z.to_nat (P_ImageWidth p)) input) as [Hl Hr]; [nia|].
  unfold start. cbv zeta.
  set (w := read_world _ _ _) in *.
  assert (Hw : sized p w).
  { split; [unfold len; lia|]. unfold rectangular.
    eapply Forall_impl; [exact Hr|]. intros r Hlen. unfold len.
    cbn beta in Hlen. lia. }
  destruct (collect_alive_Ok w Hw) as [initialAlive ->].
  set (c0 := {| world := w; turn := 0 |}).
  assert (Hc0 : steady p c0) by done.
  destruct (emit_steady (StateChange 0 Executing) c0 Hc0) as [Hc1 Hw1].
  assert (Hc2 : ∀ c, steady p c →
            steady p (emit (TurnComplete 0) c))
    by (intros c Hc; by apply emit_steady).
  apply set_background_steady. case_bool_decide.
  - apply Hc2, Hc1.
  - apply Hc2, emit_steady, Hc1.
Qed.

End Steady.

(** A broker with at least one worker, each of which runs worker.go or
    fails, answers every request of the controller with a grid of the
    size of the run. *)
Lemma broker_replies_grid (p : Controller.Params) (b : Broker.t)
    (ws : list WorkerClient) (sched : list nat) :
  1 ≤ Controller.P_ImageHeight p →
  Controller.P_ImageHeight p + 2 ≤ max_len →
  0 ≤ Controller.P_ImageWidth p → Controller.P_ImageWidth p ≤ max_len →
  1 ≤ len ws → len ws ≤ max_len → Forall serves_or_fails ws →
  sched ≡ₚ seq 0 (length ws) →
  replies_grid p (broker_rpc b ws sched).
Proof.
  intros HH Hbuf HW HWmax HN HNmax Hws Hsched w [Hlen Hrect].
  assert (HHmax : Controller.P_ImageHeight p ≤ max_len) by lia.
  destruct (dispatch_served (request p w) ws sched)
    as (g & Hrun & Hg & Hrows); try done.
  exists g. split.
  { unfold broker_rpc, Broker.ProcessTurn. by rewrite Hrun. }
  split; [done|]. apply Forall_lookup. intros y r Hr.
  cbn [request ImageHeight ImageWidth] in *.
  assert (Hy : Z.of_nat y < Controller.P_ImageHeight p).
  { apply lookup_lt_Some in Hr. unfold len in Hg. lia. }
  destruct (band_cover (Controller.P_ImageHeight p) (len ws) ltac:(lia)
              HHmax HN HNmax (Z.of_nat y)) as (i & Hi & Hband); [lia|].
  destruct (lookup_lt_is_Some_2 ws (Z.to_nat i)) as [w' Hw'];
    [unfold len in Hi; lia|].
  specialize (Hrows (Z.to_nat i) w' y Hw').
  rewrite Z2Nat.id in Hrows by lia. rewrite Hrows in Hr by done. clear Hrows.
  destruct (proj1 (Forall_lookup _ _) Hws _ _ Hw'
              (band_task (request p w) (len ws) i)) as [Hs|[msg Hmsg]].
  - rewrite Hs in Hr.
    rewrite (served_rows (request p w) (len ws) HH HHmax Hlen HN HNmax _
               Hrect HWmax Hbuf) in Hr by done.
    cbn [request ImageHeight] in Hr.
    destruct (0 <? _) eqn:E; [|lia].
    unfold band_next in Hr.
    rewrite list_lookup_fmap, lookup_seqZ_lt in Hr by lia.
    injection Hr as <-. unfold len.
    rewrite length_fmap, length_seqZ. lia.
  - rewrite Hmsg in Hr. injection Hr as <-. unfold len.
    rewrite length_replicate. lia.
Qed.

(** *** No workers *)

(** C7.  With an empty registry, [ProcessTurn] returns the error "no
    workers available": no worker is called, nothing is printed, no grid
    is returned, and the broker's cache holds the input world.  A pass of
    the controller's loop that makes this call leaves the turn counter
    as it was, counts no turn, and ends the run. *)
Theorem no_workers_no_turn (b : Broker.t) (sched : list nat)
    (p : Controller.Params) (c : Controller.t) :
  0 ≤ Controller.P_ImageHeight p →
  0 ≤ Controller.P_ImageWidth p →
  Broker.ProcessTurn b [] sched (request p (Controller.world c))
  = {| Broker.broker := {| Broker.currentWorld := Controller.world c |};
       Broker.stdout := [];
       Broker.ret := Err "no workers available" |}
  ∧ Controller.turn
      (Controller.step p c (Controller.MainLoop (broker_rpc b [] sched)))
    = Controller.turn c
  ∧ Controller.turn_succeeds p c
      (Controller.MainLoop (broker_rpc b [] sched)) = false
  ∧ (Controller.returned c = false →
     Controller.turn c < Controller.Turns p →
     Controller.controlKeys c = [] →
     Controller.isPaused c = false →
     Controller.step p c (Controller.MainLoop (broker_rpc b [] sched))
     = Controller.ret (Controller.close_done c)).
Proof.
  intros HH HW.
  assert (Hturn :
    Broker.ProcessTurn b [] sched (request p (Controller.world c))
    = {| Broker.broker := {| Broker.currentWorld := Controller.world c |};
         Broker.stdout := [];
         Broker.ret := Err "no workers available" |}).
  { unfold Broker.ProcessTurn, Fan.dispatch.
    by rewrite new_world_Ok by done. }
  assert (Hrpc : broker_rpc b [] sched (request p (Controller.world c))
                 = Err "no workers available")
    by (unfold broker_rpc; by rewrite Hturn).
  assert (Hfail : Controller.turn_succeeds p c
            (Controller.MainLoop (broker_rpc b [] sched)) = false).
  { cbn [Controller.turn_succeeds]. fold (request p (Controller.world c)).
    rewrite Hrpc. by rewrite andb_false_r. }
  split; [exact Hturn|]. split; [|split; [exact Hfail|]].
  - cbn [Controller.step]. unfold Controller.main_loop.
    destruct (Controller.returned c); [done|].
    destruct (_ <? _);
      [|cbn [Controller.ret Controller.turn];
        by rewrite turn_finalizeGame, turn_close_done_last].
    destruct (Controller.controlKeys c) as [|key keys].
    + destruct (Controller.isPaused c); [done|].
      unfold Controller.advance. fold (request p (Controller.world c)).
      rewrite Hrpc. cbn [Controller.ret Controller.turn].
      apply turn_close_done.
    + pose proof (turn_handleKey p key (Controller.set_keys keys c)) as Hk.
      destruct (Controller.handleKey p key (Controller.set_keys keys c))
        as [c' quit].
      cbn [fst Controller.set_keys Controller.turn] in Hk.
      by destruct quit.
  - intros Hr Ht Hk Hp. cbn [Controller.step]. unfold Controller.main_loop.
    rewrite Hr, Hk, Hp. destruct (_ <? _) eqn:E; [|lia].
    unfold Controller.advance. fold (request p (Controller.world c)).
    by rewrite Hrpc.
Qed.

Lemma no_workers_no_turn_witness :
  Broker.ProcessTurn {| Broker.currentWorld := [] |} [] []
    (request sample_run
       (Controller.world
          (Controller.start sample_run (mjoin sample_world) true)))
  = {| Broker.broker :=
         {| Broker.currentWorld :=
              Controller.world
                (Controller.start sample_run (mjoin sample_world) true) |};
       Broker.stdout := [];
       Broker.ret := Err "no workers available" |}
  ∧ Controller.turn
      (Controller.step sample_run
         (Controller.start sample_run (mjoin sample_world) true)
         (Controller.MainLoop
            (broker_rpc {| Broker.currentWorld := [] |} [] [])))
    = Controller.turn
        (Controller.start sample_run (mjoin sample_world) true)
  ∧ Controller.turn_succeeds sample_run
      (Controller.start sample_run (mjoin sample_world) true)
      (Controller.MainLoop
         (broker_rpc {| Broker.currentWorld := [] |} [] [])) = false
  ∧ (Controller.returned
       (Controller.start sample_run (mjoin sample_world) true) = false →
     Controller.turn
       (Controller.start sample_run (mjoin sample_world) true)
       < Controller.Turns sample_run →
     Controller.controlKeys
       (Controller.start sample_run (mjoin sample_world) true) = [] →
     Controller.isPaused
       (Controller.start sample_run (mjoin sample_world) true) = false →
     Controller.step sample_run
       (Controller.start sample_run (mjoin sample_world) true)
       (Controller.MainLoop
          (broker_rpc {| Broker.currentWorld := [] |} [] []))
     = Controller.ret
         (Controller.close_done
            (Controller.start sample_run (mjoin sample_world) true))).
Proof.
  apply (no_workers_no_turn {| Broker.currentWorld := [] |} [] sample_run
           (Controller.start sample_run (mjoin sample_world) true));
    simpl; lia.
Defined.

(** *** Turn counter *)

Lemma successes_nonneg p c trace : 0 ≤ Controller.successes p c trace.
Proof.
  revert c. induction trace as [|a trace IH]; intros c; [done|].
  cbn [Controller.successes]. specialize (IH (Controller.step p c a)).
  destruct (Controller.turn_succeeds p c a); lia.
Qed.

(** C9.  The turn counter starts at 0.  Every step of the controller
    (a key, a tick of the poller, a pass of the main loop) leaves it
    unchanged, except a pass of the main loop in which
    [Broker.ProcessTurn] is called and succeeds, which adds exactly 1; so
    it never decreases, and along any run it equals the number of
    successful calls.  After [K] consecutive successful calls from the
    start ([K] at most the configured number of turns) it is [K].
    [p.Turns] and [turn] are of type [int]: the first is at most
    [Int.max] and the second at least [Int.min], and [turn++] runs only
    while [turn < p.Turns], so it does not wrap. *)
Theorem turn_counts_successful_turns (p : Controller.Params) :
  Controller.Turns p ≤ Int.max →
  (∀ input dialed, Controller.turn (Controller.start p input dialed) = 0)
  ∧ (∀ c a,
       Int.min ≤ Controller.turn c →
       Controller.turn (Controller.step p c a)
       = Controller.turn c
         + if Controller.turn_succeeds p c a then 1 else 0)
  ∧ (∀ c a,
       Int.min ≤ Controller.turn c →
       Controller.turn c ≤ Controller.turn (Controller.step p c a))
  ∧ (∀ c trace,
       Int.min ≤ Controller.turn c →
       Controller.turn (Controller.run p c trace)
       = Controller.turn c + Controller.successes p c trace
       ∧ Controller.turn c ≤ Controller.turn (Controller.run p c trace))
  ∧ (∀ (input : list Z) (rpcs : list (WorldParams → result grid)),
       0 ≤ Controller.P_ImageHeight p →
       0 ≤ Controller.P_ImageWidth p →
       Controller.P_ImageHeight p * Controller.P_ImageWidth p
         ≤ Z.of_nat (length input) →
       Forall (replies_grid p) rpcs →
       Z.of_nat (length rpcs) ≤ Controller.Turns p →
       Controller.turn
         (Controller.run p (Controller.start p input true)
            (Controller.MainLoop <$> rpcs))
       = Z.of_nat (length rpcs)
       ∧ Controller.successes p (Controller.start p input true)
           (Controller.MainLoop <$> rpcs)
         = Z.of_nat (length rpcs)).
Proof.
  intros HTurns.
  split; [intros input dialed; apply turn_start|].
  split; [by apply turn_step|].
  split.
  { intros c a Hmin. rewrite turn_step by done.
    destruct (Controller.turn_succeeds p c a); lia. }
  split.
  { intros c trace Hmin. rewrite turn_run by done.
    pose proof (successes_nonneg p c trace). lia. }
  intros input rpcs HH HW Hin Hrpcs HK.
  destruct (run_steady p HTurns rpcs (Controller.start p input true))
    as [_ Hturn].
  - by apply start_steady.
  - exact Hrpcs.
  - by rewrite turn_start.
  - rewrite turn_start. lia.
  - rewrite turn_start in Hturn. split; [lia|].
    pose proof (turn_run p HTurns (Controller.start p input true)
                  (Controller.MainLoop <$> rpcs)) as Hrun.
    rewrite turn_start in Hrun. specialize (Hrun ltac:(done)). lia.
Qed.

Lemma turn_counts_successful_turns_witness :
  Controller.turn
    (Controller.run sample_run
       (Controller.start sample_run (mjoin sample_world) true)
       (Controller.MainLoop
          <$> [ broker_rpc {| Broker.currentWorld := [] |}
                  sample_workers [1; 0]%nat;
                broker_rpc {| Broker.currentWorld := [] |}
                  flaky_workers [0; 2; 1]%nat ]))
  = 2
  ∧ Controller.successes sample_run
      (Controller.start sample_run (mjoin sample_world) true)
      (Controller.MainLoop
         <$> [ broker_rpc {| Broker.currentWorld := [] |}
                 sample_workers [1; 0]%nat;
               broker_rpc {| Broker.currentWorld := [] |}
                 flaky_workers [0; 2; 1]%nat ])
    = 2.
Proof.
  apply (turn_counts_successful_turns sample_run).
  - by vm_compute.
  - simpl; lia.
  - simpl; lia.
  - simpl; lia.
  - apply Forall_cons; split.
    { apply broker_replies_grid;
        [simpl; lia | by vm_compute | simpl; lia | by vm_compute
        | unfold len; simpl; lia | by vm_compute | | apply perm_swap].
      apply Forall_cons; split; [intros t; by left|].
      apply Forall_cons; split; [intros t; by left|]. constructor. }
    apply Forall_cons; split; [|constructor].
    apply broker_replies_grid;
      [simpl; lia | by vm_compute | simpl; lia | by vm_compute
      | unfold len; simpl; lia | by vm_compute |
      | apply perm_skip, perm_swap].
    apply Forall_cons; split; [intros t; by left|].
    apply Forall_cons; split; [intros t; right; by eexists|].
    apply Forall_cons; split; [intros t; by left|]. constructor.
  - simpl; lia.
Defined.

(** *** Horizontal wrap-around *)

(** In the worker the columns wrap: the left neighbour of column 0 is
    column [W - 1] and the right neighbour of column [W - 1] is column 0,
    in every row of the buffer. *)
Lemma worker_wraps_columns (t : Task) (W srcY dy n : Z) :
  rectangular W (WorldPart t) → 1 ≤ W → W ≤ max_len →
  0 ≤ srcY + dy < len (WorldPart t) → len (WorldPart t) ≤ max_len →
  0 ≤ n ≤ 8 →
  Worker.wrap 0 (-1) W = Ok (W - 1)
  ∧ Worker.wrap (W - 1) 1 W = Ok 0
  ∧ Worker.visit t srcY 0 W dy n (-1)
    = Ok (n + Spec.live
                (default 0 (WorldPart t !! Z.to_nat (srcY + dy)
                            ≫= λ r, r !! Z.to_nat (W - 1))))
  ∧ Worker.visit t srcY (W - 1) W dy n 1
    = Ok (n + Spec.live
                (default 0 (WorldPart t !! Z.to_nat (srcY + dy)
                            ≫= λ r, r !! 0%nat))).
Proof.
  intros Hrect HW HWmax Hy Hfits Hn.
  assert (Hl : (0 + -1) `mod` W = W - 1).
  { rewrite <- (Z.mod_add _ 1 W) by lia.
    replace (0 + -1 + 1 * W) with (W - 1) by lia. apply Z.mod_small. lia. }
  assert (Hr : (W - 1 + 1) `mod` W = 0).
  { replace (W - 1 + 1) with (0 + 1 * W) by lia.
    rewrite Z.mod_add by lia. apply Z.mod_small. lia. }
  split; [|split; [|split]].
  - destruct (wrap_in_range 0 (-1) W) as [-> _]; [lia..|]. by rewrite Hl.
  - destruct (wrap_in_range (W - 1) 1 W) as [-> _]; [lia..|]. by rewrite Hr.
  - rewrite (visit_counts t W Hrect HWmax Hfits) by lia.
    unfold Spec.buffer. destruct (0 <=? srcY + dy) eqn:E; [|lia].
    by rewrite Hl.
  - rewrite (visit_counts t W Hrect HWmax Hfits) by lia.
    unfold Spec.buffer. destruct (0 <=? srcY + dy) eqn:E; [|lia].
    by rewrite Hr.
Qed.

(** C3: the code departs from the claim.  [countLiveNeighbors], the
    count of the local broker, skips the columns outside [0 .. W - 1]
    instead of wrapping.  In a 3 by 3 world whose last column is alive,
    the cell in column 0 of row 1 has three live neighbours on the torus
    (and the worker counts three), but [countLiveNeighbors] counts none;
    so [ProcessTurnLocal] and the broker disagree on the next world. *)
Theorem countLiveNeighbors_skips_wrapped_columns :
  Local.countLiveNeighbors (World edge_params) 0 1 3 3 = Ok 0
  ∧ Spec.live_neighbours (Spec.torus (World edge_params) 3 3) 0 1 = 3
  ∧ Worker.count_neighbors (band_task edge_params 1 0) 2 0 3 = Ok 3
  ∧ Local.ProcessTurnLocal edge_params
    = Ok [ [0; 0; 0]; [0; 255; 255]; [0; 0; 0] ]
  ∧ Broker.ret (Broker.ProcessTurn {| Broker.currentWorld := [] |}
                  [serving "10.0.0.1:8031"] [0%nat] edge_params)
    = Ok [ [255; 255; 255]; [255; 255; 255]; [255; 255; 255] ].
Proof. repeat split. Qed.

(** The buffer of the older broker does not fit the worker of worker.go,
    which takes row 0 of the buffer for the halo above the band: the rows
    that come back are those of the next generation moved up by one. *)
Example copy_broker_with_this_worker :
  BrokerCopy.ProcessTurn sample_workers [0; 1]%nat sample_params
  = Ok ([ [255; 0; 255; 255]; [0; 255; 255; 255]; [0; 255; 0; 0];
          [0; 0; 0; 0]; [0; 0; 0; 0] ], [])
  ∧ Spec.next_generation (World sample_params) 4 5
    = [ [0; 0; 0; 0]; [255; 0; 255; 255]; [0; 255; 255; 255];
        [0; 255; 0; 0]; [0; 0; 0; 0] ].
Proof. split; reflexivity. Qed.

(** ** Further properties of the worker *)

Lemma mapM_Ok_inv {A B} (f : A → result B) (l : list A) (k : list B) :
  mapM f l = Ok k → Forall2 (λ a b, f a = Ok b) l k.
Proof.
  revert k. induction l as [|a l IH]; intros k Hk.
  - injection Hk as <-. constructor.
  - rewrite mapM_cons in Hk. destruct (f a) as [b| |] eqn:Hb; try done.
    rewrite bind_Ok in Hk. destruct (mapM f l) as [k'| |]; try done.
    injection Hk as <-. constructor; [done|]. by apply IH.
Qed.

Lemma mapM_ext {A B} (f g : A → result B) (l : list A) :
  (∀ a, a ∈ l → f a = g a) → mapM f l = mapM g l.
Proof.
  induction l as [|a l IH]; intros Hfg; [done|].
  rewrite !mapM_cons, Hfg by left.
  rewrite IH; [done|]. intros b Hb. apply Hfg. by right.
Qed.

Lemma foldM_ext {A B} (f g : B → A → result B) (l : list A) (b : B) :
  (∀ b a, a ∈ l → f b a = g b a) → foldM f b l = foldM g b l.
Proof.
  revert b. induction l as [|a l IH]; intros b Hfg; [done|].
  cbn [foldM]. rewrite Hfg by left. destruct (g b a); try done.
  rewrite !bind_Ok. apply IH. intros b' a' Ha'. apply Hfg. by right.
Qed.

Lemma transition_binary (cell n : Z) :
  Worker.transition cell n = 0 ∨ Worker.transition cell n = 255.
Proof.
  unfold Worker.transition.
  destruct (cell =? 255), ((n =? 2) || (n =? 3)), (n =? 3); auto.
Qed.

(** X1. Whatever the task, when [ProcessPart] returns rows the task has
    passed both checks, there are as many rows as the height, every row is
    as wide as row 0 of the buffer, and every cell is 0 or 255. *)
Theorem ProcessPart_result_shape (t : Task) (rows : grid) :
  Worker.ProcessPart t = Ok rows →
  0 < Worker.height t
  ∧ Worker.height t ⊕ 2 ≤ len (WorldPart t)
  ∧ len rows = Worker.height t
  ∧ ∃ row0,
      WorldPart t !! 0%nat = Some row0
      ∧ Forall (λ r : row,
                  len r = len row0 ∧ Forall (λ c, c = 0 ∨ c = 255) r) rows.
Proof.
  unfold Worker.ProcessPart. cbv zeta. intros Hrows.
  destruct (Worker.height t <=? 0) eqn:E1; [done|].
  destruct (len (WorldPart t) <? Worker.height t ⊕ 2) eqn:E2; [done|].
  split; [lia|]. split; [lia|].
  unfold at_ in Hrows. change (Z.to_nat 0) with 0%nat in Hrows.
  change (0 <=? 0) with true in Hrows. cbv iota in Hrows.
  destruct (WorldPart t !! 0%nat) as [row0|] eqn:H0; [|done].
  rewrite bind_Ok in Hrows. apply mapM_Ok_inv in Hrows.
  split.
  { apply Forall2_length in Hrows. rewrite length_seqZ in Hrows.
    unfold len. lia. }
  exists row0. split; [done|].
  apply list.Forall_forall. intros r Hr.
  destruct (proj1 (list_elem_of_lookup _ _) Hr) as [i Hi].
  destruct (Forall2_lookup_r _ _ _ _ _ Hrows Hi) as (y & _ & Hy).
  unfold Worker.next_row in Hy. apply mapM_Ok_inv in Hy.
  split.
  { apply Forall2_length in Hy. rewrite length_seqZ in Hy.
    pose proof (len_nonneg row0). unfold len in *. lia. }
  apply list.Forall_forall. intros c Hc.
  destruct (proj1 (list_elem_of_lookup _ _) Hc) as [j Hj].
  destruct (Forall2_lookup_r _ _ _ _ _ Hy Hj) as (x & _ & Hx).
  unfold Worker.next_cell in Hx.
  destruct (Worker.count_neighbors _ _ _ _) as [n| |]; try done.
  rewrite bind_Ok in Hx.
  destruct (at_ (WorldPart t) _) as [r'| |]; try done.
  rewrite bind_Ok in Hx.
  destruct (at_ r' x) as [cell| |]; try done.
  rewrite bind_Ok in Hx. injection Hx as <-.
  destruct (transition_binary cell n); auto.
Qed.

Lemma ProcessPart_result_shape_witness :
  0 < Worker.height sample_task
  ∧ Worker.height sample_task ⊕ 2 ≤ len (WorldPart sample_task)
  ∧ len [ [255; 255; 255]; [255; 255; 255] ] = Worker.height sample_task
  ∧ ∃ row0,
      WorldPart sample_task !! 0%nat = Some row0
      ∧ Forall (λ r : row,
                  len r = len row0 ∧ Forall (λ c, c = 0 ∨ c = 255) r)
               [ [255; 255; 255]; [255; 255; 255] ].
Proof.
  apply (ProcessPart_result_shape sample_task). reflexivity.
Defined.

Lemma at_app_l {A} (s more : list A) (i : Z) :
  0 ≤ i < len s → at_ (s ++ more) i = at_ s i.
Proof.
  intros Hi. unfold at_. rewrite lookup_app_l; [done|].
  unfold len in Hi. lia.
Qed.

(** X2. [ProcessPart] reads the buffer's length and its first [height + 2]
    rows, and nothing else of it: rows appended to a buffer that is long
    enough, whatever they hold, do not change the outcome. *)
Theorem ProcessPart_ignores_further_rows (t : Task) (more : grid) :
  1 ≤ EndY t - StartY t →
  EndY t - StartY t + 2 ≤ len (WorldPart t) →
  len (WorldPart t) ≤ max_len →
  Worker.ProcessPart {| StartY := StartY t; EndY := EndY t;
                        WorldPart := WorldPart t ++ more |}
  = Worker.ProcessPart t.
Proof.
  intros Hh Hlen Hmax.
  assert (Happ : len (WorldPart t ++ more) = len (WorldPart t) + len more)
    by (unfold len; rewrite length_app; lia).
  pose proof (len_nonneg more) as Hmore.
  unfold Worker.ProcessPart, Worker.height. cbn [StartY EndY WorldPart].
  unwrap. rewrite Happ.
  destruct (EndY t - StartY t <=? 0) eqn:E1; [lia|].
  destruct (len (WorldPart t) <? EndY t - StartY t + 2) eqn:E2; [lia|].
  destruct (len (WorldPart t) + len more <? EndY t - StartY t + 2) eqn:E3;
    [lia|].
  rewrite at_app_l by lia.
  destruct (at_ (WorldPart t) 0) as [row0| |]; [|done..].
  rewrite !bind_Ok. apply mapM_ext. intros y Hy%elem_of_seqZ.
  unfold Worker.next_row. apply mapM_ext. intros x Hx.
  unfold Worker.next_cell. cbn [WorldPart]. unwrap.
  rewrite at_app_l by lia. f_equal.
  unfold Worker.count_neighbors.
  apply foldM_ext. intros n dy Hdy%elem_of_seqZ.
  apply foldM_ext. intros n' dx _.
  unfold Worker.visit, Worker.outside. cbn [WorldPart]. unwrap.
  rewrite Happ, at_app_l by lia.
  destruct ((dx =? 0) && (dy =? 0)); [done|].
  destruct (y + 1 + dy <? 0) eqn:E4; [lia|].
  destruct (y + 1 + dy >=? len (WorldPart t)) eqn:E5; [lia|].
  by destruct (y + 1 + dy >=? len (WorldPart t) + len more) eqn:E6; [lia|].
Qed.

Lemma ProcessPart_ignores_further_rows_witness :
  Worker.ProcessPart
    {| StartY := StartY sample_task; EndY := EndY sample_task;
       WorldPart := WorldPart sample_task ++ [ [255]; []; [0; 255] ] |}
  = Worker.ProcessPart sample_task.
Proof.
  apply (ProcessPart_ignores_further_rows sample_task);
    [simpl; lia | unfold len; simpl; lia | by vm_compute].
Defined.

(** *** Columns are a ring *)

Lemma buffer_rotate (buf : grid) (W : Z) (k : nat) (x j : Z) :
  rectangular W buf → 1 ≤ W →
  Spec.buffer (rotate k <$> buf) W x j
  = Spec.buffer buf W (Z.of_nat k + x) j.
Proof.
  intros Hrect HW. unfold Spec.buffer.
  destruct (0 <=? j); [|done]. rewrite list_lookup_fmap.
  destruct (buf !! Z.to_nat j) as [r|] eqn:Hr; [|done].
  cbn [fmap option_fmap option_map mbind option_bind].
  assert (Hlen : len r = W) by eauto using rectangular_lookup.
  unfold len in Hlen.
  pose proof (Z.mod_pos_bound x W ltac:(lia)) as Hx.
  rewrite lookup_rotate_r by lia. unfold rotate_nat_add.
  rewrite Z2Nat.id, Hlen by lia.
  by rewrite Zplus_mod_idemp_r.
Qed.

Lemma buffer_periodic (buf : grid) (W x j : Z) :
  Spec.buffer buf W (x `mod` W) j = Spec.buffer buf W x j.
Proof.
  unfold Spec.buffer. destruct (Z.eq_dec W 0) as [->|HW].
  - by rewrite !Z.mod_0_r.
  - by rewrite Z.mod_mod by done.
Qed.

(** The next state of a cell depends on the nine cells around it,
    wherever they are read from. *)
Lemma next_shift (read1 read2 : Z → Z → Z) (x1 x2 y1 y2 : Z) :
  (∀ dx dy, -1 ≤ dx ≤ 1 → -1 ≤ dy ≤ 1 →
     read1 (x1 + dx) (y1 + dy) = read2 (x2 + dx) (y2 + dy)) →
  Spec.next read1 x1 y1 = Spec.next read2 x2 y2.
Proof.
  intros Hext. unfold Spec.next, Spec.live_neighbours.
  cbn [foldr Spec.offsets fst snd].
  pose proof (Hext 0 0 ltac:(lia) ltac:(lia)) as Hmid.
  rewrite !Z.add_0_r in Hmid. rewrite Hmid.
  by rewrite !Hext by lia.
Qed.

Lemma band_next_rotate (buf : grid) (W h : Z) (k : nat) :
  rectangular W buf →
  band_next (rotate k <$> buf) W h = rotate k <$> band_next buf W h.
Proof.
  intros Hrect. unfold band_next. rewrite <- list_fmap_compose.
  apply list_fmap_ext. intros _ y _. cbn [compose].
  apply list_eq. intros i.
  destruct (decide (Z.of_nat i < W)) as [Hi|Hi].
  - rewrite lookup_rotate_r by (rewrite length_fmap, length_seqZ; lia).
    rewrite length_fmap, length_seqZ.
    pose proof (rotate_nat_add_lt k i (Z.to_nat W) ltac:(lia)) as Hlt.
    rewrite !list_lookup_fmap, !lookup_seqZ_lt by lia.
    cbn [fmap option_fmap option_map]. f_equal.
    rewrite !Z.add_0_l. unfold rotate_nat_add.
    rewrite !Z2Nat.id
      by (try apply Z.mod_pos_bound; lia).
    apply next_shift. intros dx dy _ _.
    rewrite buffer_rotate by (done || lia).
    rewrite <- (buffer_periodic buf W (_ `mod` W + dx)).
    rewrite Zplus_mod_idemp_l, buffer_periodic. f_equal. lia.
  - rewrite !(proj2 (lookup_ge_None _ _)); [done| |];
      rewrite ?length_rotate, length_fmap, length_seqZ; lia.
Qed.

(** X3. Shifting every row of the buffer [k] columns to the left, with the
    cells that leave on the left coming back on the right, shifts every row
    of the result in the same way: the worker treats each row as a ring of
    columns. *)
Theorem ProcessPart_rotate (t : Task) (W : Z) (k : nat) :
  1 ≤ EndY t - StartY t →
  EndY t - StartY t + 2 ≤ len (WorldPart t) →
  rectangular W (WorldPart t) →
  len (WorldPart t) ≤ max_len → W ≤ max_len →
  ∃ rows,
    Worker.ProcessPart t = Ok rows
    ∧ Worker.ProcessPart {| StartY := StartY t; EndY := EndY t;
                            WorldPart := rotate k <$> WorldPart t |}
      = Ok (rotate k <$> rows).
Proof.
  intros Hh Hlen Hrect Hfits HW.
  exists (band_next (WorldPart t) W (EndY t - StartY t)).
  split; [apply ProcessPart_valid; (done || lia)|].
  rewrite <- band_next_rotate by done.
  assert (Hrect' : rectangular W (rotate k <$> WorldPart t)).
  { unfold rectangular. apply Forall_fmap.
    eapply Forall_impl; [exact Hrect|]. intros r Hr. cbn [compose].
    unfold len in *. by rewrite length_rotate. }
  assert (Hlen' : len (rotate k <$> WorldPart t) = len (WorldPart t))
    by (unfold len; by rewrite length_fmap).
  pose proof (ProcessPart_valid
                {| StartY := StartY t; EndY := EndY t;
                   WorldPart := rotate k <$> WorldPart t |} W) as Hv.
  cbn [StartY EndY WorldPart] in Hv. apply Hv; (done || lia).
Qed.

Lemma ProcessPart_rotate_witness :
  ∃ rows,
    Worker.ProcessPart sample_task = Ok rows
    ∧ Worker.ProcessPart
        {| StartY := StartY sample_task; EndY := EndY sample_task;
           WorldPart := rotate 2 <$> WorldPart sample_task |}
      = Ok (rotate 2 <$> rows).
Proof.
  apply (ProcessPart_rotate sample_task 3 2);
    [simpl; lia | unfold len; simpl; lia | rect | by vm_compute
    | by vm_compute].
Defined.

(** ** Further properties of the brokers *)

Lemma omap_seq_take {A B} (f : nat → option B) (g : A → B) (l : list A)
    (k : nat) :
  (k ≤ length l)%nat →
  (∀ i a, (i < k)%nat → l !! i = Some a → f i = Some (g a)) →
  omap f (seq 0 k) = g <$> take k l.
Proof.
  induction k as [|k IH]; intros Hk Hf; [done|].
  destruct (lookup_lt_is_Some_2 l k) as [a Ha]; [lia|].
  rewrite seq_S, omap_app, IH by (lia || (intros; apply Hf; (lia || done))).
  rewrite (take_S_r l k a) by done. rewrite fmap_app.
  cbn [omap list_omap plus]. by rewrite (Hf k a) by (lia || done).
Qed.

(** With more workers than rows, every band but the last is empty. *)
Lemma band_crowded (H N i : Z) :
  0 ≤ H → H < N → N ≤ max_len → 0 ≤ i < N →
  Fan.band H N i = (0, if i =? N - 1 then H else 0).
Proof.
  intros HH HN HNmax Hi.
  rewrite band_exact by (done || int_lia).
  rewrite Z.quot_small by lia. by rewrite Z.mul_0_r.
Qed.

Section Serving.

Variable params : WorldParams.
Variable ws : list WorkerClient.
Variable sched : list nat.
Hypothesis HW : 0 ≤ ImageWidth params.
Hypothesis HWmax : ImageWidth params ≤ max_len.
Hypothesis HH : 1 ≤ ImageHeight params.
Hypothesis Hbuf : ImageHeight params + 2 ≤ max_len.
Hypothesis Hlen : len (World params) = ImageHeight params.
Hypothesis Hrect : rectangular (ImageWidth params) (World params).
Hypothesis HN : 1 ≤ len ws.
Hypothesis HNmax : len ws ≤ max_len.
Hypothesis Hws : Forall serves ws.
Hypothesis Hsched : sched ≡ₚ seq 0 (length ws).

Local Abbreviation H := (ImageHeight params).
Local Abbreviation W := (ImageWidth params).
Local Abbreviation N := (len ws).
Local Abbreviation start i := (Fan.band H N i).1.
Local Abbreviation stop i := (Fan.band H N i).2.

(** What a worker that runs worker.go answers for band [i]. *)
Lemma serving_call (i : nat) w :
  ws !! i = Some w →
  Call w (band_task params N (Z.of_nat i))
  = if 0 <? stop (Z.of_nat i) - start (Z.of_nat i)
    then Ok (band_next (WorldPart (band_task params N (Z.of_nat i))) W
                       (stop (Z.of_nat i) - start (Z.of_nat i)))
    else Err "invalid task: height <= 0".
Proof.
  intros Hw. pose proof (registry_index ws i w Hw) as Hi.
  rewrite (proj1 (Forall_lookup _ _) Hws i w Hw).
  by apply (served_rows params N HH ltac:(lia) Hlen HN HNmax _ Hrect
              HWmax Hbuf).
Qed.

(** The world that the goroutines have filled when all of them are
    done is the next generation of the torus. *)
Lemma dispatch_serving :
  Fan.dispatch Broker.build_task Broker.line ws sched params
  = Ok (Spec.next_generation (World params) W H,
        omap (λ i : nat, ws !! i ≫= λ w,
                failure Broker.line w (band_task params N (Z.of_nat i)))
             sched).
Proof.
  assert (HHmax : H ≤ max_len) by lia.
  assert (Hws' : Forall serves_or_fails ws).
  { eapply Forall_impl; [exact Hws|]. intros w Hw t. left. apply Hw. }
  destruct (dispatch_served params ws sched) as (g & Hrun & Hg & Hrows);
    try (done || lia).
  rewrite Hrun. do 2 f_equal.
  apply list_eq. intros y.
  destruct (Z_lt_ge_dec (Z.of_nat y) H) as [Hy|Hy].
  - destruct (band_cover H N ltac:(lia) HHmax HN HNmax (Z.of_nat y))
      as (i & Hi & Hband); [lia|].
    destruct (lookup_lt_is_Some_2 ws (Z.to_nat i)) as [w Hw];
      [unfold len in Hi; lia|].
    pose proof (Hrows (Z.to_nat i) w y Hw) as Hrow.
    rewrite (serving_call _ w Hw) in Hrow. rewrite Z2Nat.id in Hrow by lia.
    destruct (0 <? _) eqn:E; [|lia].
    rewrite Hrow by done.
    by apply band_next_generation.
  - rewrite !(proj2 (lookup_ge_None _ _)); [done| |].
    + unfold Spec.next_generation. rewrite length_fmap, length_seqZ. lia.
    + unfold len in Hg. lia.
Qed.

End Serving.

(** X4. The broker of part_001 with workers that all run worker.go, for a
    registry of any size [N ≥ 1]: the reply, and the world the broker
    caches, is the next generation of the torus. With at most as many
    workers as rows nothing is printed. With more workers than rows the
    bands of the first [N - 1] workers are empty, each of their calls fails
    with "invalid task: height <= 0" and is reported on a line of its own,
    and the last worker computes the whole world. *)
Theorem ProcessTurn_any_registry (b : Broker.t) (ws : list WorkerClient)
    (sched : list nat) (params : WorldParams) :
  0 ≤ ImageWidth params → ImageWidth params ≤ max_len →
  1 ≤ ImageHeight params → ImageHeight params + 2 ≤ max_len →
  len (World params) = ImageHeight params →
  rectangular (ImageWidth params) (World params) →
  1 ≤ len ws → len ws ≤ max_len →
  Forall serves ws →
  sched ≡ₚ seq 0 (length ws) →
  Broker.ret (Broker.ProcessTurn b ws sched params)
  = Ok (Spec.next_generation (World params) (ImageWidth params)
                             (ImageHeight params))
  ∧ Broker.broker (Broker.ProcessTurn b ws sched params)
    = {| Broker.currentWorld :=
           Spec.next_generation (World params) (ImageWidth params)
                                (ImageHeight params) |}
  ∧ (len ws ≤ ImageHeight params →
     Broker.stdout (Broker.ProcessTurn b ws sched params) = [])
  ∧ (ImageHeight params < len ws →
     Broker.stdout (Broker.ProcessTurn b ws sched params)
     ≡ₚ (λ w, Broker.line w "invalid task: height <= 0")
          <$> take (length ws - 1) ws).
Proof.
  intros HW HWmax HH Hbuf Hlen Hrect HN HNmax Hws Hsched.
  assert (HHmax : ImageHeight params ≤ max_len) by lia.
  pose proof (serving_call params ws HWmax HH Hbuf Hlen Hrect HN HNmax Hws)
    as Hcall.
  unfold Broker.ProcessTurn.
  rewrite (dispatch_serving params ws sched) by done.
  cbn [Broker.ret Broker.broker Broker.stdout].
  split; [done|]. split; [done|]. split.
  - intros HNH. apply omap_none. intros i.
    destruct (ws !! i) as [w|] eqn:Hw; [|done].
    cbn [mbind option_bind]. unfold failure. rewrite (Hcall i w Hw).
    pose proof (band_nonempty params (len ws) HH HN HHmax HNmax
                  (Z.of_nat i) HNH (registry_index ws i w Hw)).
    by destruct (0 <? _) eqn:E; [|lia].
  - intros HNH. rewrite Hsched.
    replace (length ws) with (S (length ws - 1)) at 1
      by (unfold len in HN; lia).
    rewrite seq_S, omap_app. cbn [plus omap list_omap].
    destruct (lookup_lt_is_Some_2 ws (length ws - 1)) as [w Hw];
      [unfold len in HN; lia|].
    rewrite Hw. cbn [mbind option_bind]. unfold failure at 2.
    rewrite (Hcall _ w Hw).
    rewrite band_crowded by (unfold len in *; lia).
    replace (Z.of_nat (length ws - 1) =? len ws - 1) with true
      by (symmetry; apply Z.eqb_eq; unfold len in *; lia).
    cbn [fst snd]. destruct (0 <? ImageHeight params - 0) eqn:E; [|lia].
    rewrite app_nil_r.
    rewrite (omap_seq_take _ (λ w, Broker.line w "invalid task: height <= 0")
               ws); [done|lia|].
    intros i a Hi Ha. rewrite Ha. cbn [mbind option_bind].
    unfold failure. rewrite (Hcall i a Ha).
    rewrite band_crowded by (unfold len in *; lia).
    replace (Z.of_nat i =? len ws - 1) with false
      by (symmetry; apply Z.eqb_neq; unfold len in *; lia).
    done.
Qed.

Lemma ProcessTurn_any_registry_witness :
  Broker.ret (Broker.ProcessTurn {| Broker.currentWorld := [] |}
                (serving <$> ["a"; "b"; "c"; "d"]) [3; 1; 0; 2]%nat
                edge_params)
  = Ok (Spec.next_generation (World edge_params) (ImageWidth edge_params)
                             (ImageHeight edge_params))
  ∧ Broker.broker (Broker.ProcessTurn {| Broker.currentWorld := [] |}
                     (serving <$> ["a"; "b"; "c"; "d"]) [3; 1; 0; 2]%nat
                     edge_params)
    = {| Broker.currentWorld :=
           Spec.next_generation (World edge_params)
             (ImageWidth edge_params) (ImageHeight edge_params) |}
  ∧ (len (serving <$> ["a"; "b"; "c"; "d"]) ≤ ImageHeight edge_params →
     Broker.stdout (Broker.ProcessTurn {| Broker.currentWorld := [] |}
                      (serving <$> ["a"; "b"; "c"; "d"]) [3; 1; 0; 2]%nat
                      edge_params) = [])
  ∧ (ImageHeight edge_params < len (serving <$> ["a"; "b"; "c"; "d"]) →
     Broker.stdout (Broker.ProcessTurn {| Broker.currentWorld := [] |}
                      (serving <$> ["a"; "b"; "c"; "d"]) [3; 1; 0; 2]%nat
                      edge_params)
     ≡ₚ (λ w, Broker.line w "invalid task: height <= 0")
          <$> take (length (serving <$> ["a"; "b"; "c"; "d"]) - 1)
                   (serving <$> ["a"; "b"; "c"; "d"])).
Proof.
  apply (ProcessTurn_any_registry {| Broker.currentWorld := [] |}
           (serving <$> ["a"; "b"; "c"; "d"]) [3; 1; 0; 2]%nat edge_params).
  - simpl; lia.
  - by vm_compute.
  - simpl; lia.
  - by vm_compute.
  - reflexivity.
  - rect.
  - unfold len; simpl; lia.
  - by vm_compute.
  - repeat (apply Forall_cons; split; [by intros t|]). constructor.
  - symmetry.
    apply (Permutation_cons_app [3; 1]%nat [2]%nat 0%nat).
    apply (Permutation_cons_app [3]%nat [2]%nat 1%nat).
    apply perm_swap.
Defined.

(** *** The order in which the workers answer *)

(** X5. The reply of either broker does not depend on the order in which the
    calls to the workers complete, when each call runs worker.go or fails;
    nor does it depend on what the broker cached before. The same lines are
    printed, in the order of completion. *)
Theorem ProcessTurn_any_schedule (b b' : Broker.t) (ws : list WorkerClient)
    (sched sched' : list nat) (params : WorldParams) :
  1 ≤ ImageHeight params → ImageHeight params + 2 ≤ max_len →
  0 ≤ ImageWidth params → ImageWidth params ≤ max_len →
  len (World params) = ImageHeight params →
  rectangular (ImageWidth params) (World params) →
  1 ≤ len ws → len ws ≤ max_len →
  Forall serves_or_fails ws →
  sched ≡ₚ seq 0 (length ws) →
  sched' ≡ₚ seq 0 (length ws) →
  (Broker.ret (Broker.ProcessTurn b ws sched params)
   = Broker.ret (Broker.ProcessTurn b' ws sched' params)
   ∧ Broker.broker (Broker.ProcessTurn b ws sched params)
     = Broker.broker (Broker.ProcessTurn b' ws sched' params)
   ∧ Broker.stdout (Broker.ProcessTurn b ws sched params)
     ≡ₚ Broker.stdout (Broker.ProcessTurn b' ws sched' params))
  ∧ ∃ g out out',
      BrokerCopy.ProcessTurn ws sched params = Ok (g, out)
      ∧ BrokerCopy.ProcessTurn ws sched' params = Ok (g, out')
      ∧ out ≡ₚ out'.
Proof.
  intros HH Hbuf HW HWmax Hlen Hrect HN HNmax Hws Hsched Hsched'.
  assert (HHmax : ImageHeight params ≤ max_len) by lia.
  assert (Hunique : ∀ (task_of : Z → Task) (g g' : grid),
    len g = ImageHeight params → len g' = ImageHeight params →
    (∀ (i : nat) w (y : nat), ws !! i = Some w →
       (Fan.band (ImageHeight params) (len ws) (Z.of_nat i)).1
         ≤ Z.of_nat y
         < (Fan.band (ImageHeight params) (len ws) (Z.of_nat i)).2 →
       g !! y = match Call w (task_of (Z.of_nat i)) with
                | Ok res =>
                    res !! Z.to_nat
                      (Z.of_nat y
                       - (Fan.band (ImageHeight params) (len ws)
                                   (Z.of_nat i)).1)
                | _ => Some (replicate (Z.to_nat (ImageWidth params)) 0)
                end) →
    (∀ (i : nat) w (y : nat), ws !! i = Some w →
       (Fan.band (ImageHeight params) (len ws) (Z.of_nat i)).1
         ≤ Z.of_nat y
         < (Fan.band (ImageHeight params) (len ws) (Z.of_nat i)).2 →
       g' !! y = match Call w (task_of (Z.of_nat i)) with
                 | Ok res =>
                     res !! Z.to_nat
                       (Z.of_nat y
                        - (Fan.band (ImageHeight params) (len ws)
                                    (Z.of_nat i)).1)
                 | _ => Some (replicate (Z.to_nat (ImageWidth params)) 0)
                 end) →
    g = g').
  { intros task_of g g' Hg Hg' Hrows Hrows'. apply list_eq. intros y.
    destruct (Z_lt_ge_dec (Z.of_nat y) (ImageHeight params)) as [Hy|Hy].
    - destruct (band_cover (ImageHeight params) (len ws) ltac:(lia)
                  HHmax HN HNmax (Z.of_nat y)) as (i & Hi & Hband); [lia|].
      destruct (lookup_lt_is_Some_2 ws (Z.to_nat i)) as [w Hw];
        [unfold len in Hi; lia|].
      rewrite (Hrows (Z.to_nat i) w y Hw), (Hrows' (Z.to_nat i) w y Hw);
        rewrite ?Z2Nat.id by lia; done.
    - rewrite !(proj2 (lookup_ge_None _ _)); [done|..];
        unfold len in *; lia. }
  split.
  - destruct (dispatch_served params ws sched) as (g & Hrun & Hg & Hrows);
      try done.
    destruct (dispatch_served params ws sched')
      as (g' & Hrun' & Hg' & Hrows'); try done.
    assert (g = g') as <- by (eapply Hunique; eauto).
    unfold Broker.ProcessTurn. rewrite Hrun, Hrun'.
    cbn [Broker.ret Broker.broker Broker.stdout].
    split; [done|]. split; [done|]. by rewrite Hsched, Hsched'.
  - destruct (dispatch_served_copy params ws sched)
      as (g & Hrun & Hg & Hrows); try done.
    destruct (dispatch_served_copy params ws sched')
      as (g' & Hrun' & Hg' & Hrows'); try done.
    assert (g = g') as <- by (eapply Hunique; eauto).
    eexists g, _, _. split; [exact Hrun|]. split; [exact Hrun'|].
    by rewrite Hsched, Hsched'.
Qed.

Lemma ProcessTurn_any_schedule_witness :
  (Broker.ret (Broker.ProcessTurn {| Broker.currentWorld := [] |}
                 flaky_workers [0; 2; 1]%nat sample_params)
   = Broker.ret (Broker.ProcessTurn
                   {| Broker.currentWorld := sample_world |}
                   flaky_workers [1; 0; 2]%nat sample_params)
   ∧ Broker.broker (Broker.ProcessTurn {| Broker.currentWorld := [] |}
                      flaky_workers [0; 2; 1]%nat sample_params)
     = Broker.broker (Broker.ProcessTurn
                        {| Broker.currentWorld := sample_world |}
                        flaky_workers [1; 0; 2]%nat sample_params)
   ∧ Broker.stdout (Broker.ProcessTurn {| Broker.currentWorld := [] |}
                      flaky_workers [0; 2; 1]%nat sample_params)
     ≡ₚ Broker.stdout (Broker.ProcessTurn
                         {| Broker.currentWorld := sample_world |}
                         flaky_workers [1; 0; 2]%nat sample_params))
  ∧ ∃ g out out',
      BrokerCopy.ProcessTurn flaky_workers [0; 2; 1]%nat sample_params
      = Ok (g, out)
      ∧ BrokerCopy.ProcessTurn flaky_workers [1; 0; 2]%nat sample_params
        = Ok (g, out')
      ∧ out ≡ₚ out'.
Proof.
  apply (ProcessTurn_any_schedule {| Broker.currentWorld := [] |}
           {| Broker.currentWorld := sample_world |} flaky_workers
           [0; 2; 1]%nat [1; 0; 2]%nat sample_params).
  - simpl; lia.
  - by vm_compute.
  - simpl; lia.
  - by vm_compute.
  - reflexivity.
  - rect.
  - unfold len; simpl; lia.
  - by vm_compute.
  - apply Forall_cons; split; [intros t; by left|].
    apply Forall_cons; split; [intros t; right; by eexists|].
    apply Forall_cons; split; [intros t; by left|]. constructor.
  - apply perm_skip, perm_swap.
  - apply perm_swap.
Defined.

(** *** A world without rows *)

Lemma band_no_rows (N : Z) :
  1 ≤ N → N ≤ max_len → Fan.band 0 N 0 = (0, 0).
Proof.
  intros HN HNmax. rewrite band_exact by (done || int_lia).
  rewrite Z.quot_0_l by lia. by destruct (0 =? N - 1).
Qed.

Lemma build_task_no_rows (params : WorldParams) :
  ImageHeight params = 0 →
  Broker.build_task params 0 0 = Panic
  ∧ BrokerCopy.build_task params 0 0 = Panic.
Proof.
  intros HH. pose proof (len_nonneg (World params)) as Hlen.
  unfold Broker.build_task, BrokerCopy.build_task. rewrite HH.
  rewrite (slice_Ok (World params) 0 0) by lia.
  split; reflexivity.
Qed.

(** X6. When the request has no rows and a worker is registered, neither
    broker returns: the index of the halo row is taken modulo the height,
    and the division by zero panics before any worker is called. *)
Theorem ProcessTurn_no_rows (b : Broker.t) (ws : list WorkerClient)
    (sched : list nat) (params : WorldParams) :
  ImageHeight params = 0 → 0 ≤ ImageWidth params →
  1 ≤ len ws → len ws ≤ max_len →
  Broker.ret (Broker.ProcessTurn b ws sched params) = Panic
  ∧ BrokerCopy.ProcessTurn ws sched params = Panic.
Proof.
  intros HH HW HN HNmax.
  destruct (build_task_no_rows params HH) as [Hb Hc].
  destruct ws as [|w ws]; [unfold len in HN; simpl in HN; lia|].
  assert (Hseq : seqZ 0 (len (w :: ws))
                 = 0 :: seqZ 1 (Z.pred (len (w :: ws))))
    by (rewrite seqZ_cons by lia; done).
  assert (Hspawn : ∀ build, build params 0 0 = Panic →
            Fan.spawn build params (len (w :: ws)) (0, w) = Panic).
  { intros build Hbuild. unfold Fan.spawn. cbn [fst snd].
    rewrite HH, band_no_rows by done. by rewrite Hbuild. }
  unfold Broker.ProcessTurn, BrokerCopy.ProcessTurn, Fan.dispatch.
  rewrite !new_world_Ok by lia. rewrite !bind_Ok.
  destruct (len (w :: ws) =? 0) eqn:E; [lia|].
  rewrite Hseq. cbn [zip zip_with]. rewrite !mapM_cons.
  by rewrite !Hspawn by done.
Qed.

Lemma ProcessTurn_no_rows_witness :
  Broker.ret (Broker.ProcessTurn {| Broker.currentWorld := [] |}
                sample_workers [0; 1]%nat
                {| ImageWidth := 4; ImageHeight := 0; World := [] |})
  = Panic
  ∧ BrokerCopy.ProcessTurn sample_workers [0; 1]%nat
      {| ImageWidth := 4; ImageHeight := 0; World := [] |}
    = Panic.
Proof.
  apply (ProcessTurn_no_rows {| Broker.currentWorld := [] |}
           sample_workers [0; 1]%nat
           {| ImageWidth := 4; ImageHeight := 0; World := [] |});
    [reflexivity | simpl; lia | unfold len; simpl; lia | by vm_compute].
Defined.

(** *** Merging a reply *)

Lemma merge_prefix_fits (nw : grid) (s : Z) (res : grid) (m : nat) :
  0 ≤ s → s + Z.of_nat m ≤ len nw → len nw ≤ max_len →
  (m ≤ length res)%nat →
  ∃ nw',
    foldM (λ nw y, r ← at_ res y; set_at nw (s ⊕ y) r) nw
          (seqZ 0 (Z.of_nat m)) = Ok nw'
    ∧ length nw' = length nw.
Proof.
  intros Hs Hfit Hmax. unfold len in Hfit, Hmax.
  induction m as [|m IH]; intros Hm.
  - by exists nw.
  - destruct IH as (nw1 & Hfold & Hlen1); [lia..|].
    destruct (lookup_lt_is_Some_2 res m) as [r Hr]; [lia|].
    exists (<[Z.to_nat (s + Z.of_nat m) := r]> nw1).
    split; [|by rewrite length_insert].
    rewrite seqZ_S, foldM_app, Hfold, bind_Ok. cbn [foldM].
    rewrite Z.add_0_l.
    rewrite (at_Ok _ _ r) by (rewrite ?Nat2Z.id; (lia || done)).
    rewrite bind_Ok. unwrap.
    by rewrite set_at_Ok by (unfold len; lia).
Qed.

(** X7. The broker takes the number of rows of a reply as it comes. A reply
    that fits below its first row is written row by row and leaves every
    other row of the new world as it was, also the rows of its band that it
    does not reach; a reply that does not fit makes the broker index out of
    range. *)
Theorem merge_fits_or_panics (nw : grid) (s : Z) (res : grid) :
  0 ≤ s ≤ len nw → len nw ≤ max_len → len res ≤ max_len →
  (s + len res ≤ len nw →
   ∃ nw',
     Fan.merge nw s res = Ok nw'
     ∧ len nw' = len nw
     ∧ ∀ j : nat,
         nw' !! j = if decide (s ≤ Z.of_nat j < s + len res)
                    then res !! Z.to_nat (Z.of_nat j - s) else nw !! j)
  ∧ (len nw < s + len res → Fan.merge nw s res = Panic).
Proof.
  intros Hs Hmax Hres. split.
  - intros Hfit.
    destruct (merge_lookup nw s res) as (nw' & Hm & Hl & Hrows);
      [lia..|].
    exists nw'. split; [done|]. split; [unfold len; lia|done].
  - intros Hover. unfold Fan.merge.
    replace (seqZ 0 (len res))
      with (seqZ 0 ((len nw - s) + (len res - (len nw - s))))
      by (f_equal; lia).
    rewrite seqZ_app, foldM_app by lia.
    destruct (merge_prefix_fits nw s res (Z.to_nat (len nw - s)))
      as (nw1 & Hfold & Hlen1); [unfold len in *; lia..|].
    rewrite Z2Nat.id in Hfold by lia. rewrite Hfold, bind_Ok.
    rewrite seqZ_cons by lia. cbn [foldM].
    destruct (lookup_in_range res (len nw - s)) as [r Hr]; [lia|].
    rewrite Z.add_0_l, (at_Ok _ _ r), bind_Ok by (lia || done).
    unwrap. unfold set_at.
    replace (s + (len nw - s) <? len nw1) with false; [|symmetry].
    + by rewrite andb_false_r.
    + apply Z.ltb_ge. unfold len in *. lia.
Qed.

Lemma merge_fits_or_panics_witness :
  (1 + len [ [255]; [255] ] ≤ len [ [0]; [0]; [0]; [0] ] →
   ∃ nw',
     Fan.merge [ [0]; [0]; [0]; [0] ] 1 [ [255]; [255] ] = Ok nw'
     ∧ len nw' = len [ [0]; [0]; [0]; [0] ]
     ∧ ∀ j : nat,
         nw' !! j
         = if decide (1 ≤ Z.of_nat j < 1 + len [ [255]; [255] ])
           then [ [255]; [255] ] !! Z.to_nat (Z.of_nat j - 1)
           else [ [0]; [0]; [0]; [0] ] !! j)
  ∧ (len [ [0]; [0]; [0]; [0] ] < 1 + len [ [255]; [255] ] →
     Fan.merge [ [0]; [0]; [0]; [0] ] 1 [ [255]; [255] ] = Panic).
Proof.
  apply (merge_fits_or_panics [ [0]; [0]; [0]; [0] ] 1 [ [255]; [255] ]);
    [unfold len; simpl; lia | by vm_compute | by vm_compute].
Defined.

(** *** The older broker in front of worker.go *)

(** Row [k] of the buffer of the older broker is row [start + k] of the
    torus, for the band's rows and the row that follows them. *)
Lemma buffer_copy_torus (params : WorldParams) (N i x k : Z) :
  1 ≤ ImageHeight params → ImageHeight params ≤ max_len →
  len (World params) = ImageHeight params →
  1 ≤ N → N ≤ max_len → 0 ≤ i < N →
  0 ≤ k ≤ (Fan.band (ImageHeight params) N i).2
          - (Fan.band (ImageHeight params) N i).1 →
  Spec.buffer (WorldPart (band_task_copy params N i)) (ImageWidth params)
              x k
  = Spec.torus (World params) (ImageWidth params) (ImageHeight params) x
               ((Fan.band (ImageHeight params) N i).1 + k).
Proof.
  intros HH HHmax Hlen HN HNmax Hi Hk.
  pose proof (band_bounds (ImageHeight params) N ltac:(lia) HHmax HN HNmax
                i Hi) as Hbb.
  pose proof (length_core_rows params N HH HHmax Hlen HN HNmax i Hi)
    as Hcore.
  unfold Spec.buffer, Spec.torus.
  destruct (0 <=? k) eqn:E; [|lia].
  cbn [band_task_copy WorldPart].
  destruct (decide (k = (Fan.band (ImageHeight params) N i).2
                       - (Fan.band (ImageHeight params) N i).1))
    as [->|Hne].
  - rewrite lookup_app_r by lia.
    replace (Z.to_nat _ - length _)%nat with 0%nat by lia.
    cbn [lookup list_lookup].
    replace ((Fan.band (ImageHeight params) N i).1
             + ((Fan.band (ImageHeight params) N i).2
                - (Fan.band (ImageHeight params) N i).1))
      with (Fan.band (ImageHeight params) N i).2 by lia.
    by rewrite (wrapped_row_lookup params HH Hlen).
  - rewrite lookup_app_l by lia. unfold core_rows.
    rewrite core_lookup by lia.
    by rewrite (Z.mod_small (_ + k)) by lia.
Qed.

(** X8. The older broker stores the band in rows [0 .. height - 1] of the
    buffer, and worker.go takes row 0 for the row above the band. So when
    its workers run worker.go, every row of a band but the last comes back
    as the next generation of the row below it: in the reply, row [y] holds
    row [y + 1] of the next generation of the world. *)
Theorem copy_broker_rows_move_up (ws : list WorkerClient)
    (sched : list nat) (params : WorldParams) :
  0 ≤ ImageWidth params → ImageWidth params ≤ max_len →
  1 ≤ ImageHeight params → ImageHeight params + 2 ≤ max_len →
  len (World params) = ImageHeight params →
  rectangular (ImageWidth params) (World params) →
  1 ≤ len ws → len ws ≤ max_len →
  Forall serves ws →
  sched ≡ₚ seq 0 (length ws) →
  ∃ g out,
    BrokerCopy.ProcessTurn ws sched params = Ok (g, out)
    ∧ ∀ (i y : nat),
        (i < length ws)%nat →
        (Fan.band (ImageHeight params) (len ws) (Z.of_nat i)).1
          ≤ Z.of_nat y →
        Z.of_nat y + 1
          < (Fan.band (ImageHeight params) (len ws) (Z.of_nat i)).2 →
        g !! y
        = Spec.next_generation (World params) (ImageWidth params)
                               (ImageHeight params) !! S y.
Proof.
  intros HW HWmax HH Hbuf Hlen Hrect HN HNmax Hws Hsched.
  assert (HHmax : ImageHeight params ≤ max_len) by lia.
  assert (Hws' : Forall serves_or_fails ws).
  { eapply Forall_impl; [exact Hws|]. intros w Hw t. left. apply Hw. }
  destruct (dispatch_served_copy params ws sched)
    as (g & Hrun & Hg & Hrows); try (done || lia).
  eexists g, _. split; [exact Hrun|].
  intros i y Hi Hlo Hhi.
  destruct (lookup_lt_is_Some_2 ws i Hi) as [w Hw].
  pose proof (registry_index ws i w Hw) as Hi'.
  pose proof (band_bounds (ImageHeight params) (len ws) ltac:(lia) HHmax
                HN HNmax _ Hi') as Hbb.
  rewrite (Hrows i w y Hw) by lia.
  rewrite (proj1 (Forall_lookup _ _) Hws i w Hw).
  rewrite (served_rows_copy params (len ws) HH HHmax Hlen HN HNmax _ Hrect
             HWmax Hbuf) by done.
  destruct (0 <? _) eqn:E; [|lia].
  unfold band_next, Spec.next_generation.
  rewrite !list_lookup_fmap, !lookup_seqZ_lt by lia.
  cbn [fmap option_fmap option_map]. f_equal.
  apply list_fmap_ext. intros k x Hx.
  apply next_ext. intros dx dy Hdx Hdy.
  rewrite buffer_copy_torus by (done || lia). f_equal. lia.
Qed.

Lemma copy_broker_rows_move_up_witness :
  ∃ g out,
    BrokerCopy.ProcessTurn sample_workers [0; 1]%nat sample_params
    = Ok (g, out)
    ∧ ∀ (i y : nat),
        (i < length sample_workers)%nat →
        (Fan.band (ImageHeight sample_params) (len sample_workers)
                  (Z.of_nat i)).1 ≤ Z.of_nat y →
        Z.of_nat y + 1
          < (Fan.band (ImageHeight sample_params) (len sample_workers)
                      (Z.of_nat i)).2 →
        g !! y
        = Spec.next_generation (World sample_params)
            (ImageWidth sample_params) (ImageHeight sample_params) !! S y.
Proof.
  apply (copy_broker_rows_move_up sample_workers [0; 1]%nat sample_params).
  - simpl; lia.
  - by vm_compute.
  - simpl; lia.
  - by vm_compute.
  - reflexivity.
  - rect.
  - unfold len; simpl; lia.
  - by vm_compute.
  - apply Forall_cons; split; [by intros t|].
    apply Forall_cons; split; [by intros t|]. constructor.
  - done.
Defined.

(** ** Counting the cells that are alive *)

Lemma count_row (r : row) (n : Z) :
  Int.min ≤ n → n + len r ≤ Int.max →
  foldl (λ n cell, if cell =? 255 then n ⊕ 1 else n) n r
  = n + Z.of_nat (length (filter (λ cell, cell = 255) r)).
Proof.
  revert n. induction r as [|cell r IH]; intros n Hmin Hmax.
  - cbn. lia.
  - unfold len in *. cbn [length] in Hmax. cbn [foldl].
    pose proof (length_filter (λ cell, cell = 255) r) as Hle.
    rewrite filter_cons. destruct (Z.eqb_spec cell 255) as [->|Hne].
    + rewrite decide_True by done. rewrite add_small by int_lia.
      rewrite IH by lia. cbn [length]. lia.
    + rewrite decide_False by done. rewrite IH by lia. lia.
Qed.

Lemma count_grid (w : grid) (n : Z) :
  Int.min ≤ n → n + len (mjoin w) ≤ Int.max →
  foldl (λ count r,
           foldl (λ n cell, if cell =? 255 then n ⊕ 1 else n) count r)
        n w
  = n + alive_cells w.
Proof.
  unfold alive_cells.
  revert n. induction w as [|r w IH]; intros n Hmin Hmax.
  - cbn. lia.
  - unfold len in *. change (mjoin (r :: w)) with (r ++ mjoin w) in *.
    rewrite length_app in Hmax. cbn [foldl].
    pose proof (length_filter (λ cell, cell = 255) r) as Hle.
    rewrite count_row by (unfold len; lia).
    rewrite IH by lia. rewrite filter_app, length_app. lia.
Qed.

Lemma length_alive_row {B} (mk : nat → B) (h : nat → nat) (r : row) :
  length (omap (λ xc : nat * Z,
                  if xc.2 =? 255 then Some (mk xc.1) else None)
               (imap (λ x cell, (h x, cell)) r))
  = length (filter (λ cell, cell = 255) r).
Proof.
  revert h. induction r as [|cell r IH]; intros h; [done|].
  cbn [imap omap list_omap snd]. rewrite filter_cons.
  specialize (IH (h ∘ S)). unfold compose in *.
  destruct (Z.eqb_spec cell 255) as [->|Hne].
  - rewrite decide_True by done. cbn [length]. by rewrite IH.
  - by rewrite decide_False by done.
Qed.

Lemma length_alive_rows (g : nat → nat) (w : grid) :
  length (mjoin (imap (λ (y : nat) (r : row),
            omap (λ xc : nat * Z,
                    if xc.2 =? 255
                    then Some {| Controller.X := Z.of_nat xc.1;
                                 Controller.Y := Z.of_nat (g y) |}
                    else None)
                 (imap (λ x cell, (x, cell)) r)) w))
  = length (filter (λ cell, cell = 255) (mjoin w)).
Proof.
  revert g. induction w as [|r w IH]; intros g; [done|].
  cbn [imap]. change (mjoin (?a :: ?l)) with (a ++ mjoin l).
  rewrite !length_app, filter_app, length_app. f_equal.
  - exact (length_alive_row
             (λ x, {| Controller.X := Z.of_nat x;
                      Controller.Y := Z.of_nat (g 0%nat) |}) id r).
  - exact (IH (g ∘ S)).
Qed.

Lemma length_getAliveCells (w : grid) :
  len (Controller.getAliveCells w) = alive_cells w.
Proof.
  unfold Controller.getAliveCells, alive_cells, len. f_equal.
  exact (length_alive_rows id w).
Qed.

(** X9. [countAlive] and the broker's [GetAliveCellsCount] return the number
    of cells equal to 255, which is also the number of cells that
    [getAliveCells] lists; the counter does not wrap on a grid whose number
    of cells is an [int]. *)
Theorem countAlive_counts (w : grid) :
  len (mjoin w) ≤ Int.max →
  Controller.countAlive w = alive_cells w
  ∧ Broker.GetAliveCellsCount {| Broker.currentWorld := w |}
    = alive_cells w
  ∧ len (Controller.getAliveCells w) = alive_cells w
  ∧ 0 ≤ alive_cells w ≤ len (mjoin w).
Proof.
  intros Hmax. unfold Controller.countAlive, Broker.GetAliveCellsCount.
  cbn [Broker.currentWorld].
  rewrite !count_grid by int_lia.
  split; [lia|]. split; [lia|]. split; [apply length_getAliveCells|].
  unfold alive_cells, len.
  pose proof (length_filter (λ cell, cell = 255) (mjoin w)). lia.
Qed.

Lemma countAlive_counts_witness :
  Controller.countAlive sample_world = alive_cells sample_world
  ∧ Broker.GetAliveCellsCount {| Broker.currentWorld := sample_world |}
    = alive_cells sample_world
  ∧ len (Controller.getAliveCells sample_world) = alive_cells sample_world
  ∧ 0 ≤ alive_cells sample_world ≤ len (mjoin sample_world).
Proof. apply (countAlive_counts sample_world). by vm_compute. Defined.

(** X10. [getAliveCells] lists the cell [(x, y)] exactly when the grid holds
    255 at column [x] of row [y]. *)
Theorem getAliveCells_lists_alive (w : grid) (x y : Z) :
  {| Controller.X := x; Controller.Y := y |} ∈ Controller.getAliveCells w
  ↔ 0 ≤ x ∧ 0 ≤ y
    ∧ w !! Z.to_nat y ≫= (λ r : row, r !! Z.to_nat x) = Some 255.
Proof.
  unfold Controller.getAliveCells. rewrite list_elem_of_join. split.
  - intros (l & Hcell & Hl).
    apply elem_of_lookup_imap in Hl as (i & r & -> & Hr).
    apply list_elem_of_omap in Hcell as ([j c] & Hjc & Hsome).
    apply elem_of_lookup_imap in Hjc as (j' & c' & [= -> ->] & Hc).
    cbn [fst snd] in Hsome.
    destruct (Z.eqb_spec c' 255) as [->|]; [|done].
    injection Hsome as <- <-. rewrite !Nat2Z.id, Hr.
    split; [lia|]. split; [lia|]. done.
  - intros (Hx & Hy & Hcell).
    destruct (w !! Z.to_nat y) as [r|] eqn:Hr; [|done].
    cbn [mbind option_bind] in Hcell.
    eexists. split; [|apply elem_of_lookup_imap; eauto].
    apply list_elem_of_omap. exists (Z.to_nat x, 255). split.
    + apply elem_of_lookup_imap. eauto.
    + cbn [fst snd]. rewrite !Z2Nat.id by lia. done.
Qed.

(** X11. After a call of [ProcessTurn], the broker's [GetAliveCellsCount]
    counts the world that the call cached: the reply when the call
    succeeded, which is the world the controller then holds, and the
    request's world when it did not. *)
Theorem GetAliveCellsCount_after_turn (b : Broker.t)
    (ws : list WorkerClient) (sched : list nat) (params : WorldParams) :
  len (mjoin (World params)) ≤ Int.max →
  (∀ g, Broker.ret (Broker.ProcessTurn b ws sched params) = Ok g →
        len (mjoin g) ≤ Int.max) →
  Broker.GetAliveCellsCount
    (Broker.broker (Broker.ProcessTurn b ws sched params))
  = match Broker.ret (Broker.ProcessTurn b ws sched params) with
    | Ok g => Controller.countAlive g
    | _ => Controller.countAlive (World params)
    end
  ∧ Broker.GetAliveCellsCount
      (Broker.broker (Broker.ProcessTurn b ws sched params))
    = match Broker.ret (Broker.ProcessTurn b ws sched params) with
      | Ok g => alive_cells g
      | _ => alive_cells (World params)
      end.
Proof.
  intros Hworld Hreply. revert Hreply. unfold Broker.ProcessTurn.
  destruct (Fan.dispatch _ _ _ _ _) as [[g out]|msg|];
    cbn [Broker.ret Broker.broker]; intros Hreply;
    try specialize (Hreply g eq_refl);
    unfold Broker.GetAliveCellsCount, Controller.countAlive;
    cbn [Broker.currentWorld]; by rewrite !count_grid by int_lia.
Qed.

Lemma GetAliveCellsCount_after_turn_witness :
  Broker.GetAliveCellsCount
    (Broker.broker (Broker.ProcessTurn {| Broker.currentWorld := [] |}
                      flaky_workers [0; 2; 1]%nat sample_params))
  = match Broker.ret (Broker.ProcessTurn {| Broker.currentWorld := [] |}
                        flaky_workers [0; 2; 1]%nat sample_params) with
    | Ok g => Controller.countAlive g
    | _ => Controller.countAlive (World sample_params)
    end
  ∧ Broker.GetAliveCellsCount
      (Broker.broker (Broker.ProcessTurn {| Broker.currentWorld := [] |}
                        flaky_workers [0; 2; 1]%nat sample_params))
    = match Broker.ret (Broker.ProcessTurn {| Broker.currentWorld := [] |}
                          flaky_workers [0; 2; 1]%nat sample_params) with
      | Ok g => alive_cells g
      | _ => alive_cells (World sample_params)
      end.
Proof.
  apply (GetAliveCellsCount_after_turn {| Broker.currentWorld := [] |}
           flaky_workers [0; 2; 1]%nat sample_params).
  - by vm_compute.
  - intros g Hg. vm_compute in Hg. injection Hg as <-. by vm_compute.
Defined.

(** ** The local broker *)

Section LocalTurn.

Variable params : WorldParams.
Hypothesis HH : 0 ≤ ImageHeight params.
Hypothesis HHmax : ImageHeight params ≤ max_len.
Hypothesis HW : 0 ≤ ImageWidth params.
Hypothesis HWmax : ImageWidth params ≤ max_len.
Hypothesis Hlen : len (World params) = ImageHeight params.
Hypothesis Hrect : rectangular (ImageWidth params) (World params).

Local Abbreviation H := (ImageHeight params).
Local Abbreviation W := (ImageWidth params).
Local Abbreviation read := (dead_border (World params) W H).

(** One direction of [countLiveNeighbors]: a neighbour inside the grid
    is counted when alive, and one outside is passed over. *)
Lemma local_step (x y dx dy count : Z) :
  0 ≤ x < W → 0 ≤ y < H → -1 ≤ dx ≤ 1 → -1 ≤ dy ≤ 1 → 0 ≤ count ≤ 8 →
  (let nx := x ⊕ dx in
   let ny := y ⊕ dy in
   if (nx >=? 0) && (nx <? W) && (ny >=? 0) && (ny <? H)
   then
     r ← at_ (World params) ny;
     c ← at_ r nx;
     Ok (if c =? 255 then count ⊕ 1 else count)
   else Ok count)
  = Ok (count + Spec.live (read (x + dx) (y + dy))).
Proof.
  intros Hx Hy Hdx Hdy Hcount. cbv zeta. unwrap. unfold dead_border.
  replace (x + dx >=? 0) with (0 <=? x + dx)
    by (apply eq_true_iff_eq; rewrite Z.geb_le, Z.leb_le; lia).
  replace (y + dy >=? 0) with (0 <=? y + dy)
    by (apply eq_true_iff_eq; rewrite Z.geb_le, Z.leb_le; lia).
  destruct ((0 <=? x + dx) && (x + dx <? W) && (0 <=? y + dy)
            && (y + dy <? H)) eqn:E.
  - apply andb_true_iff in E as [E E4].
    apply andb_true_iff in E as [E E3].
    apply andb_true_iff in E as [E1 E2].
    destruct (lookup_in_range (World params) (y + dy)) as [r Hr]; [lia|].
    assert (Hlr : len r = W) by eauto using rectangular_lookup.
    destruct (lookup_in_range r (x + dx)) as [c Hc]; [lia|].
    rewrite (at_Ok _ _ r), bind_Ok by (lia || done).
    rewrite (at_Ok _ _ c), bind_Ok by (lia || done).
    rewrite Hr. cbn [mbind option_bind]. rewrite Hc. cbn [default].
    unfold Spec.live, id. destruct (c =? 255); f_equal; lia.
  - unfold Spec.live. cbn. f_equal. lia.
Qed.

Lemma countLiveNeighbors_counts (x y : Z) :
  0 ≤ x < W → 0 ≤ y < H →
  Local.countLiveNeighbors (World params) x y W H
  = Ok (Spec.live_neighbours read x y).
Proof.
  intros Hx Hy. unfold Local.countLiveNeighbors.
  pose proof (λ dx dy count, local_step x y dx dy count Hx Hy) as Hstep.
  cbv zeta in Hstep. cbn [foldM Local.dirs fst snd].
  repeat (rewrite Hstep by int_lia; rewrite bind_Ok).
  f_equal. unfold Spec.live_neighbours. cbn. lia.
Qed.

Lemma read_inside (x y : Z) r c :
  0 ≤ x < W → 0 ≤ y < H →
  World params !! Z.to_nat y = Some r → r !! Z.to_nat x = Some c →
  read x y = c.
Proof.
  intros Hx Hy Hr Hc. unfold dead_border.
  replace ((0 <=? x) && (x <? W) && (0 <=? y) && (y <? H)) with true
    by (symmetry; rewrite !andb_true_iff, !Z.leb_le, !Z.ltb_lt; lia).
  by rewrite Hr; cbn [mbind option_bind]; rewrite Hc.
Qed.

Lemma ProcessTurnLocal_spec :
  Local.ProcessTurnLocal params
  = Ok (next_generation_dead_border (World params) W H).
Proof.
  unfold Local.ProcessTurnLocal. cbv zeta.
  rewrite (make_Ok [] H) by done. rewrite bind_Ok.
  unfold next_generation_dead_border. apply mapM_Ok.
  intros y Hy%elem_of_seqZ.
  rewrite (make_Ok 0 W) by done. rewrite bind_Ok. apply mapM_Ok.
  intros x Hx%elem_of_seqZ.
  rewrite countLiveNeighbors_counts, bind_Ok by lia.
  destruct (lookup_in_range (World params) y) as [r Hr]; [lia|].
  assert (Hlr : len r = W) by eauto using rectangular_lookup.
  destruct (lookup_in_range r x) as [c Hc]; [lia|].
  rewrite (at_Ok _ _ r), bind_Ok by (lia || done).
  rewrite (at_Ok _ _ c), bind_Ok by (lia || done).
  f_equal. change (Worker.transition c (Spec.live_neighbours read x y)
                   = Spec.next read x y).
  rewrite transition_rule. unfold Spec.next.
  by rewrite (read_inside x y r c) by (lia || done).
Qed.

(** Away from the border, a cell surrounded by dead cells and a cell on
    the torus have the same neighbours. *)
Lemma next_interior (x y : Z) :
  1 ≤ x → x + 1 < W → 1 ≤ y → y + 1 < H →
  Spec.next read x y = Spec.next (Spec.torus (World params) W H) x y.
Proof.
  intros Hx1 Hx2 Hy1 Hy2. apply next_ext. intros dx dy Hdx Hdy.
  unfold dead_border, Spec.torus.
  replace ((0 <=? x + dx) && (x + dx <? W) && (0 <=? y + dy)
           && (y + dy <? H)) with true
    by (symmetry; rewrite !andb_true_iff, !Z.leb_le, !Z.ltb_lt; lia).
  by rewrite !Z.mod_small by lia.
Qed.

End LocalTurn.

Lemma length_join_rows {A B} (f : B → list A) (n : nat) (l : list B) :
  (∀ y, length (f y) = n) →
  length (mjoin (f <$> l)) = (length l * n)%nat.
Proof.
  intros Hf. induction l as [|y l IH]; [done|].
  cbn [fmap list_fmap]. change (mjoin (?a :: ?k)) with (a ++ mjoin k).
  rewrite length_app, IH, Hf. cbn [length]. lia.
Qed.

(** X12. On a world of [H] rows of [W] cells, [ProcessTurnLocal] returns,
    without a panic, one generation of Life on a grid surrounded by dead
    cells: a neighbour outside the grid is not counted. The local broker
    replies with that grid and keeps it, and its [GetAliveCellsCount] then
    counts it (the number of cells is an [int]). *)
Theorem ProcessTurnLocal_dead_border (params : WorldParams)
    (sampleWorld : option grid) :
  0 ≤ ImageHeight params → ImageHeight params ≤ max_len →
  0 ≤ ImageWidth params → ImageWidth params ≤ max_len →
  len (World params) = ImageHeight params →
  rectangular (ImageWidth params) (World params) →
  ImageHeight params * ImageWidth params ≤ Int.max →
  Local.ProcessTurnLocal params
  = Ok (next_generation_dead_border (World params) (ImageWidth params)
                                    (ImageHeight params))
  ∧ LocalBroker.ProcessTurn sampleWorld params
    = (Some (next_generation_dead_border (World params)
               (ImageWidth params) (ImageHeight params)),
       Ok (next_generation_dead_border (World params)
             (ImageWidth params) (ImageHeight params)))
  ∧ LocalBroker.GetAliveCellsCount
      (LocalBroker.ProcessTurn sampleWorld params).1
    = alive_cells (next_generation_dead_border (World params)
                     (ImageWidth params) (ImageHeight params)).
Proof.
  intros HH HHmax HW HWmax Hlen Hrect Hcount.
  pose proof (ProcessTurnLocal_spec params HH HHmax HW HWmax Hlen Hrect)
    as Hturn.
  split; [done|]. unfold LocalBroker.ProcessTurn. rewrite Hturn.
  split; [done|]. cbn [fst LocalBroker.GetAliveCellsCount].
  unfold Controller.countAlive. rewrite count_grid; [lia|int_lia|].
  assert (Hcells : len (mjoin (next_generation_dead_border (World params)
                                 (ImageWidth params) (ImageHeight params)))
                   = ImageHeight params * ImageWidth params).
  { unfold next_generation_dead_border, len.
    rewrite (length_join_rows _ (Z.to_nat (ImageWidth params)))
      by (intros y; by rewrite length_fmap, length_seqZ).
    rewrite length_seqZ, Nat2Z.inj_mul, !Z2Nat.id by lia. done. }
  rewrite Hcells. lia.
Qed.

Lemma ProcessTurnLocal_dead_border_witness :
  Local.ProcessTurnLocal edge_params
  = Ok (next_generation_dead_border (World edge_params)
          (ImageWidth edge_params) (ImageHeight edge_params))
  ∧ LocalBroker.ProcessTurn None edge_params
    = (Some (next_generation_dead_border (World edge_params)
               (ImageWidth edge_params) (ImageHeight edge_params)),
       Ok (next_generation_dead_border (World edge_params)
             (ImageWidth edge_params) (ImageHeight edge_params)))
  ∧ LocalBroker.GetAliveCellsCount
      (LocalBroker.ProcessTurn None edge_params).1
    = alive_cells (next_generation_dead_border (World edge_params)
                     (ImageWidth edge_params) (ImageHeight edge_params)).
Proof.
  apply (ProcessTurnLocal_dead_border edge_params None);
    [simpl; lia | by vm_compute | simpl; lia | by vm_compute
    | reflexivity | rect | by vm_compute].
Defined.

(** X13. Away from the border the local broker agrees with the torus, and so
    with the brokers that call worker.go: every cell that is not in the
    first or last row or column gets the state it has in the next generation
    of the torus. *)
Theorem ProcessTurnLocal_interior (params : WorldParams) :
  0 ≤ ImageHeight params → ImageHeight params ≤ max_len →
  0 ≤ ImageWidth params → ImageWidth params ≤ max_len →
  len (World params) = ImageHeight params →
  rectangular (ImageWidth params) (World params) →
  ∃ g,
    Local.ProcessTurnLocal params = Ok g
    ∧ len g = ImageHeight params
    ∧ ∀ x y, 1 ≤ x → x + 1 < ImageWidth params →
             1 ≤ y → y + 1 < ImageHeight params →
        g !! Z.to_nat y ≫= (λ r : row, r !! Z.to_nat x)
        = Spec.next_generation (World params) (ImageWidth params)
            (ImageHeight params) !! Z.to_nat y
          ≫= (λ r : row, r !! Z.to_nat x).
Proof.
  intros HH HHmax HW HWmax Hlen Hrect. eexists.
  split; [by apply ProcessTurnLocal_spec|].
  split.
  { unfold next_generation_dead_border, len.
    rewrite length_fmap, length_seqZ. lia. }
  intros x y Hx1 Hx2 Hy1 Hy2.
  unfold next_generation_dead_border, Spec.next_generation.
  rewrite !list_lookup_fmap, !lookup_seqZ_lt by lia.
  cbn [fmap option_fmap option_map mbind option_bind].
  rewrite !list_lookup_fmap, !lookup_seqZ_lt by lia.
  cbn [fmap option_fmap option_map]. f_equal.
  rewrite !Z.add_0_l, !Z2Nat.id by lia.
  by apply next_interior.
Qed.

Lemma ProcessTurnLocal_interior_witness :
  ∃ g,
    Local.ProcessTurnLocal sample_params = Ok g
    ∧ len g = ImageHeight sample_params
    ∧ ∀ x y, 1 ≤ x → x + 1 < ImageWidth sample_params →
             1 ≤ y → y + 1 < ImageHeight sample_params →
        g !! Z.to_nat y ≫= (λ r : row, r !! Z.to_nat x)
        = Spec.next_generation (World sample_params)
            (ImageWidth sample_params) (ImageHeight sample_params)
            !! Z.to_nat y
          ≫= (λ r : row, r !! Z.to_nat x).
Proof.
  apply (ProcessTurnLocal_interior sample_params);
    [simpl; lia | by vm_compute | simpl; lia | by vm_compute
    | reflexivity | rect].
Defined.

(** ** The controller: copies, events and pauses *)

Lemma copy_fresh (r : row) : copy (replicate (length r) 0) r = r.
Proof.
  unfold copy. rewrite length_replicate, firstn_all.
  rewrite drop_ge by (rewrite length_replicate; lia). apply app_nil_r.
Qed.

Lemma deep_copy_prefix (src : grid) (m : nat) :
  (m ≤ length src)%nat →
  foldM (λ dst i,
           r ← at_ src i;
           row ← make 0 (len r);
           let row := copy row r in
           set_at dst i row)
        (replicate (length src) ([] : row)) (seqZ 0 (Z.of_nat m))
  = Ok (take m src ++ replicate (length src - m) ([] : row)).
Proof.
  induction m as [|m IH]; intros Hm.
  - cbn [foldM seqZ take app]. by rewrite Nat.sub_0_r.
  - rewrite seqZ_S, foldM_app, IH, bind_Ok by lia.
    rewrite Z.add_0_l. cbn [foldM].
    destruct (lookup_lt_is_Some_2 src m) as [r Hr]; [lia|].
    rewrite (at_Ok _ _ r), bind_Ok by (rewrite ?Nat2Z.id; (lia || done)).
    rewrite (make_Ok 0 (len r)), bind_Ok by apply len_nonneg.
    cbv zeta. unfold len at 1. rewrite Nat2Z.id, copy_fresh.
    rewrite set_at_Ok, bind_Ok
      by (unfold len; rewrite length_app, length_take, length_replicate;
          lia).
    f_equal. rewrite Nat2Z.id.
    rewrite insert_app_r_alt by (rewrite length_take; lia).
    rewrite length_take, Nat.min_l, Nat.sub_diag by lia.
    rewrite (take_S_r src m r) by done.
    replace (length src - m)%nat with (S (length src - S m)) by lia.
    cbn [replicate]. by rewrite <- app_assoc.
Qed.

(** X14. [deepCopyWorldUint8] returns, without a panic, a grid with the rows
    and cells of its argument, whatever the lengths of the rows. *)
Theorem deepCopyWorldUint8_copies (src : grid) :
  deepCopyWorldUint8 src = Ok src.
Proof.
  unfold deepCopyWorldUint8. case_bool_decide as Hnil; [by subst|].
  cbv zeta. rewrite (make_Ok [] (len src)), bind_Ok by apply len_nonneg.
  unfold len. rewrite Nat2Z.id.
  rewrite deep_copy_prefix by done.
  by rewrite firstn_all, Nat.sub_diag, app_nil_r.
Qed.

Section Events.

Import Controller.

Variable p : Params.
Hypothesis HTurns : Turns p ≤ Int.max.

Lemma events_emit e c :
  crashed c = false → events_open c = true →
  events (emit e c) = events c ++ [e].
Proof. intros Hc He. unfold emit. by rewrite Hc, He. Qed.

(** A successful turn in the loop reports [turn + 1] as completed. *)
Lemma completed_main_loop rpc c :
  steady p c → Int.min ≤ turn c < Turns p → replies_grid p rpc →
  omap completed (events (main_loop p rpc c))
  = omap completed (events c) ++ [turn c + 1].
Proof.
  intros Hc Hturn Hrpc.
  pose proof Hc as (Hr & Hcr & He & Hk & Hp & Hw).
  destruct (Hrpc (world c) Hw) as (g & Hg & Hsized).
  destruct (collect_differ_Ok p (world c) g Hw Hsized) as [flipped Hfl].
  unfold request in Hg.
  unfold main_loop. rewrite Hr, Hk, Hp.
  destruct (turn c <? Turns p) eqn:E; [|lia].
  unfold advance. rewrite Hg, Hfl.
  assert (Hnext : steady p (incr_turn (set_world g c))) by done.
  assert (Hturn' : turn (incr_turn (set_world g c)) = turn c + 1)
    by (cbn [incr_turn set_world turn]; by unwrap).
  rewrite Hturn'. case_bool_decide.
  - rewrite events_emit by done. by rewrite omap_app.
  - destruct (emit_steady p (CellsFlipped (turn c + 1) flipped) _ Hnext)
      as [(_ & Hcr1 & He1 & _) _].
    rewrite !events_emit by done. by rewrite !omap_app, app_nil_r.
Qed.

Lemma completed_run (rpcs : list (WorldParams → result grid)) c :
  steady p c → Forall (replies_grid p) rpcs →
  Int.min ≤ turn c →
  turn c + Z.of_nat (length rpcs) ≤ Turns p →
  omap completed (events (run p c (MainLoop <$> rpcs)))
  = omap completed (events c) ++ seqZ (turn c + 1) (Z.of_nat (length rpcs)).
Proof.
  revert c.
  induction rpcs as [|rpc rpcs IH]; intros c Hc Hrpcs Hmin Hturns.
  { cbn [fmap list_fmap run foldl length]. by rewrite app_nil_r. }
  apply Forall_cons in Hrpcs as [Hrpc Hrpcs].
  cbn [length] in Hturns.
  destruct (main_loop_steady p HTurns rpc c Hc ltac:(lia) Hrpc)
    as (Hc' & Hturn' & _).
  cbn [fmap list_fmap run foldl step]. fold (fmap MainLoop rpcs).
  fold (run p (main_loop p rpc c) (MainLoop <$> rpcs)).
  rewrite IH by (done || lia).
  rewrite completed_main_loop by (done || lia).
  rewrite Hturn', <- app_assoc. f_equal.
  rewrite (seqZ_cons (turn c + 1)) by (cbn [length]; lia).
  cbn [app]. do 2 f_equal; cbn [length]; lia.
Qed.

End Events.

(** The loop over the columns of one row that the controller runs, and
    the loop of [getAliveCells], list the same cells. *)
Lemma alive_row (y : Z) (r : row) :
  mjoin ((λ x, if default 0 (r !! Z.to_nat x) =? 255
               then [ {| Controller.X := x; Controller.Y := y |} ]
               else [])
           <$> seqZ 0 (len r))
  = omap (λ xc : nat * Z,
            if xc.2 =? 255
            then Some {| Controller.X := Z.of_nat xc.1; Controller.Y := y |}
            else None)
         (imap (λ x cell, (x, cell)) r).
Proof.
  induction r as [|c r IH] using rev_ind; [done|].
  unfold len in *. rewrite length_app. cbn [length].
  rewrite Nat.add_1_r, seqZ_S, fmap_app, join_app, imap_app, omap_app.
  f_equal.
  - rewrite <- IH. f_equal. apply list_fmap_ext.
    intros i x [-> Hi]%lookup_seqZ.
    by rewrite lookup_app_l by lia.
  - cbn [fmap list_fmap imap omap list_omap fst snd].
    rewrite Z.add_0_l, Nat2Z.id, Nat.add_0_r.
    rewrite lookup_app_r, Nat.sub_diag by lia. cbn [lookup list_lookup default].
    unfold id. by destruct (c =? 255).
Qed.

Section Start.

Import Controller.

Variable p : Params.

(** The two loops that collect [initialAlive] list the cells that
    [getAliveCells] lists, in the same order. *)
Lemma collect_alive_spec (w : grid) :
  sized p w → collect p (alive_at w) = Ok (getAliveCells w).
Proof.
  intros [Hlen Hrect]. unfold collect.
  rewrite (mapM_Ok _
    (λ y, mjoin ((λ x, if default 0 (w !! Z.to_nat y
                                       ≫= λ r : row, r !! Z.to_nat x)
                          =? 255
                       then [ {| X := x; Y := y |} ] else [])
                   <$> seqZ 0 (P_ImageWidth p)))).
  - rewrite bind_Ok. f_equal. unfold getAliveCells. f_equal.
    apply list_eq. intros i.
    rewrite list_lookup_fmap, list_lookup_imap.
    destruct (decide (i < length w)%nat) as [Hi|Hi].
    + destruct (lookup_lt_is_Some_2 w i Hi) as [r Hr].
      assert (Hlr : len r = P_ImageWidth p)
        by eauto using rectangular_lookup.
      rewrite lookup_seqZ_lt by (unfold len in Hlen; lia).
      rewrite Hr. cbn [fmap option_fmap option_map]. f_equal.
      rewrite Z.add_0_l, Nat2Z.id, Hr. cbn [mbind option_bind].
      rewrite <- Hlr. apply alive_row.
    + rewrite (proj2 (lookup_ge_None w i)) by lia.
      rewrite (proj2 (lookup_ge_None _ i)); [done|].
      rewrite length_seqZ. unfold len in Hlen. lia.
  - intros y Hy%elem_of_seqZ.
    destruct (lookup_in_range w y) as [r Hr]; [lia|].
    assert (Hlr : len r = P_ImageWidth p) by eauto using rectangular_lookup.
    rewrite (mapM_Ok _
      (λ x, if default 0 (w !! Z.to_nat y ≫= λ r : row, r !! Z.to_nat x)
               =? 255
            then [ {| X := x; Y := y |} ] else [])); [done|].
    intros x Hx%elem_of_seqZ. unfold alive_at.
    destruct (lookup_in_range r x) as [c Hc]; [lia|].
    rewrite (at_Ok _ _ r), bind_Ok by (lia || done).
    rewrite (at_Ok _ _ c), bind_Ok by (lia || done).
    rewrite bind_Ok, Hr. cbn [mbind option_bind]. by rewrite Hc.
Qed.

Lemma sized_read_world (input : list Z) :
  0 ≤ P_ImageHeight p → 0 ≤ P_ImageWidth p →
  P_ImageHeight p * P_ImageWidth p ≤ Z.of_nat (length input) →
  sized p (read_world (Z.to_nat (P_ImageHeight p))
                      (Z.to_nat (P_ImageWidth p)) input).
Proof.
  intros HH HW Hin.
  destruct (read_world_sized (Z.to_nat (P_ImageHeight p))
              (Z.to_nat (P_ImageWidth p)) input) as [Hl Hr]; [nia|].
  split; [unfold len; lia|]. unfold rectangular.
  eapply Forall_impl; [exact Hr|]. intros r Hlen. unfold len.
  cbn beta in Hlen. lia.
Qed.

End Start.

(** X15. The controller starts by sending [StateChange{0, Executing}], then
    one [CellsFlipped] for turn 0 with the cells that are alive, unless
    there are none, then [TurnComplete{0}]; the cells are the ones that
    [getAliveCells] lists for the world that was read. When the broker
    cannot be dialled, it returns at this point and leaves the events
    channel open. *)
Theorem start_events (p : Controller.Params) (input : list Z)
    (dialed : bool) :
  0 ≤ Controller.P_ImageHeight p → 0 ≤ Controller.P_ImageWidth p →
  Controller.P_ImageHeight p * Controller.P_ImageWidth p
    ≤ Z.of_nat (length input) →
  Controller.events (Controller.start p input dialed)
  = Controller.StateChange 0 Controller.Executing
    :: (if bool_decide
             (Controller.getAliveCells
                (Controller.world (Controller.start p input dialed)) = [])
        then []
        else [ Controller.CellsFlipped 0
                 (Controller.getAliveCells
                    (Controller.world (Controller.start p input dialed))) ])
    ++ [ Controller.TurnComplete 0 ]
  ∧ sized p (Controller.world (Controller.start p input dialed))
  ∧ Controller.returned (Controller.start p input dialed) = negb dialed
  ∧ Controller.events_open (Controller.start p input dialed) = true
  ∧ Controller.crashed (Controller.start p input dialed) = false.
Proof.
  intros HH HW Hin.
  pose proof (sized_read_world p input HH HW Hin) as Hw.
  unfold Controller.start. cbv zeta.
  set (w := Controller.read_world _ _ _) in *.
  rewrite (collect_alive_spec p w Hw).
  destruct dialed; case_bool_decide as Halive; cbn;
    rewrite ?bool_decide_true by done;
    rewrite ?bool_decide_false by done; done.
Qed.

Lemma start_events_witness :
  Controller.events
    (Controller.start sample_run (mjoin sample_world) true)
  = Controller.StateChange 0 Controller.Executing
    :: (if bool_decide
             (Controller.getAliveCells
                (Controller.world
                   (Controller.start sample_run (mjoin sample_world) true))
              = [])
        then []
        else [ Controller.CellsFlipped 0
                 (Controller.getAliveCells
                    (Controller.world
                       (Controller.start sample_run (mjoin sample_world)
                          true))) ])
    ++ [ Controller.TurnComplete 0 ]
  ∧ sized sample_run
      (Controller.world
         (Controller.start sample_run (mjoin sample_world) true))
  ∧ Controller.returned
      (Controller.start sample_run (mjoin sample_world) true) = negb true
  ∧ Controller.events_open
      (Controller.start sample_run (mjoin sample_world) true) = true
  ∧ Controller.crashed
      (Controller.start sample_run (mjoin sample_world) true) = false.
Proof.
  apply (start_events sample_run (mjoin sample_world) true);
    simpl; lia.
Defined.

(** X16. After [K] successful turns from the start, the [TurnComplete]
    events that have been sent report the turns 0, 1, ..., [K], in this
    order and each once. *)
Theorem turns_complete_in_order (p : Controller.Params) (input : list Z)
    (rpcs : list (WorldParams → result grid)) :
  0 ≤ Controller.P_ImageHeight p → 0 ≤ Controller.P_ImageWidth p →
  Controller.P_ImageHeight p * Controller.P_ImageWidth p
    ≤ Z.of_nat (length input) →
  Controller.Turns p ≤ Int.max →
  Forall (replies_grid p) rpcs →
  Z.of_nat (length rpcs) ≤ Controller.Turns p →
  omap completed
    (Controller.events
       (Controller.run p (Controller.start p input true)
          (Controller.MainLoop <$> rpcs)))
  = seqZ 0 (Z.of_nat (length rpcs) + 1).
Proof.
  intros HH HW Hin HTurns Hrpcs HK.
  rewrite completed_run;
    [|done|by apply start_steady|done|by rewrite turn_start
     |rewrite turn_start; lia].
  rewrite turn_start.
  destruct (start_steady p HH HW input Hin) as (_ & Hcr & He & _).
  assert (Hstart : omap completed
                     (Controller.events (Controller.start p input true))
                   = [0]).
  { unfold Controller.start. cbv zeta.
    destruct (collect_alive_Ok p _ (sized_read_world p input HH HW Hin))
      as [alive ->].
    case_bool_decide; by cbn. }
  rewrite Hstart. rewrite (seqZ_cons 0) by lia. cbn [app].
  do 2 f_equal. lia.
Qed.

Lemma turns_complete_in_order_witness :
  omap completed
    (Controller.events
       (Controller.run sample_run
          (Controller.start sample_run (mjoin sample_world) true)
          (Controller.MainLoop
             <$> [ broker_rpc {| Broker.currentWorld := [] |}
                     sample_workers [1; 0]%nat;
                   broker_rpc {| Broker.currentWorld := [] |}
                     flaky_workers [0; 2; 1]%nat ])))
  = seqZ 0 (Z.of_nat
              (length [ broker_rpc {| Broker.currentWorld := [] |}
                          sample_workers [1; 0]%nat;
                        broker_rpc {| Broker.currentWorld := [] |}
                          flaky_workers [0; 2; 1]%nat ]) + 1).
Proof.
  apply (turns_complete_in_order sample_run).
  - simpl; lia.
  - simpl; lia.
  - simpl; lia.
  - by vm_compute.
  - apply Forall_cons; split.
    { apply broker_replies_grid;
        [simpl; lia | by vm_compute | simpl; lia | by vm_compute
        | unfold len; simpl; lia | by vm_compute | | apply perm_swap].
      apply Forall_cons; split; [intros t; by left|].
      apply Forall_cons; split; [intros t; by left|]. constructor. }
    apply Forall_cons; split; [|constructor].
    apply broker_replies_grid;
      [simpl; lia | by vm_compute | simpl; lia | by vm_compute
      | unfold len; simpl; lia | by vm_compute |
      | apply perm_skip, perm_swap].
    apply Forall_cons; split; [intros t; by left|].
    apply Forall_cons; split; [intros t; right; by eexists|].
    apply Forall_cons; split; [intros t; by left|]. constructor.
  - simpl; lia.
Defined.

Section Done.

Import Controller.

Variable p : Params.
Hypothesis HTurns : Turns p ≤ Int.max.

Lemma doneClosed_emit e c : doneClosed (emit e c) = doneClosed c.
Proof. unfold emit. by destruct (crashed c), (events_open c). Qed.

(** A successful turn does not close [done]. *)
Lemma doneClosed_main_loop rpc c :
  steady p c → Int.min ≤ turn c < Turns p → replies_grid p rpc →
  doneClosed (main_loop p rpc c) = doneClosed c.
Proof.
  intros Hc Hturn Hrpc.
  pose proof Hc as (Hr & Hcr & He & Hk & Hp & Hw).
  destruct (Hrpc (world c) Hw) as (g & Hg & Hsized).
  destruct (collect_differ_Ok p (world c) g Hw Hsized) as [flipped Hfl].
  unfold request in Hg.
  unfold main_loop. rewrite Hr, Hk, Hp.
  destruct (turn c <? Turns p) eqn:E; [|lia].
  unfold advance. rewrite Hg, Hfl.
  case_bool_decide; by rewrite !doneClosed_emit.
Qed.

Lemma doneClosed_run (rpcs : list (WorldParams → result grid)) c :
  steady p c → Forall (replies_grid p) rpcs →
  Int.min ≤ turn c →
  turn c + Z.of_nat (length rpcs) ≤ Turns p →
  doneClosed (run p c (MainLoop <$> rpcs)) = doneClosed c.
Proof.
  revert c.
  induction rpcs as [|rpc rpcs IH]; intros c Hc Hrpcs Hmin Hturns; [done|].
  apply Forall_cons in Hrpcs as [Hrpc Hrpcs].
  cbn [length] in Hturns.
  destruct (main_loop_steady p HTurns rpc c Hc ltac:(lia) Hrpc)
    as (Hc' & Hturn' & _).
  cbn [fmap list_fmap run foldl step]. fold (fmap MainLoop rpcs).
  fold (run p (main_loop p rpc c) (MainLoop <$> rpcs)).
  rewrite IH by (done || lia).
  apply doneClosed_main_loop; (done || lia).
Qed.

Lemma doneClosed_start input dialed :
  doneClosed (start p input dialed) = false.
Proof.
  unfold start. cbv zeta.
  destruct (collect p _) as [alive| |];
    [|cbn [crash doneClosed]; by rewrite doneClosed_emit..].
  destruct dialed; cbn [ret set_background doneClosed];
    rewrite doneClosed_emit; case_bool_decide;
    by rewrite ?doneClosed_emit.
Qed.

End Done.

(** X17. When the loop has run all its turns, the next evaluation of its
    condition ends the run: the controller sends [FinalTurnComplete] with
    the cells of its world that are alive, hands the world to the IO
    goroutine under the name [WxHxTurns], sends [ImageOutputComplete] and
    [StateChange{Turns, Quitting}], closes the events channel and [done],
    and returns. The broker is not called again. *)
Theorem run_to_completion (p : Controller.Params) (input : list Z)
    (rpcs : list (WorldParams → result grid))
    (rpc : WorldParams → result grid) :
  0 ≤ Controller.P_ImageHeight p → 0 ≤ Controller.P_ImageWidth p →
  Controller.P_ImageHeight p * Controller.P_ImageWidth p
    ≤ Z.of_nat (length input) →
  Controller.Turns p ≤ Int.max →
  Forall (replies_grid p) rpcs →
  Z.of_nat (length rpcs) = Controller.Turns p →
  let c := Controller.run p (Controller.start p input true)
             (Controller.MainLoop <$> rpcs) in
  let c' := Controller.main_loop p rpc c in
  let name := {| Controller.f_width := Controller.P_ImageWidth p;
                 Controller.f_height := Controller.P_ImageHeight p;
                 Controller.f_turn := Controller.Turns p |} in
  Controller.returned c = false
  ∧ Controller.turn c = Controller.Turns p
  ∧ Controller.events c'
    = Controller.events c
      ++ [ Controller.FinalTurnComplete (Controller.Turns p)
             (Controller.getAliveCells (Controller.world c));
           Controller.ImageOutputComplete (Controller.Turns p) name;
           Controller.StateChange (Controller.Turns p)
             Controller.Quitting ]
  ∧ Controller.images c' = Controller.images c ++ [ (name, Controller.world c) ]
  ∧ Controller.world c' = Controller.world c
  ∧ Controller.turn c' = Controller.Turns p
  ∧ Controller.returned c' = true
  ∧ Controller.crashed c' = false
  ∧ Controller.events_open c' = false
  ∧ Controller.done_open c' = false.
Proof.
  intros HH HW Hin HTurns Hrpcs HK c c' name.
  destruct (run_steady p HTurns rpcs (Controller.start p input true))
    as [Hc Hturn];
    [by apply start_steady|done|by rewrite turn_start
    |rewrite turn_start; lia|].
  rewrite turn_start in Hturn. fold c in Hc, Hturn.
  assert (Hd : Controller.doneClosed c = false).
  { subst c. rewrite doneClosed_run;
      [apply doneClosed_start|done|by apply start_steady|done
      |by rewrite turn_start|rewrite turn_start; lia]. }
  destruct Hc as (Hr & Hcr & He & Hk & Hp & Hw).
  split; [done|]. split; [lia|].
  subst c' name. unfold Controller.main_loop. rewrite Hr.
  destruct (Controller.turn c <? Controller.Turns p) eqn:E; [lia|].
  replace (Controller.Turns p) with (Controller.turn c) by lia.
  clearbody c. destruct c. cbn in Hr, Hcr, He, Hk, Hp, Hd |- *. subst.
  unfold Controller.emit. cbn. by rewrite <- !app_assoc.
Qed.

Lemma run_to_completion_witness :
  let c := Controller.run sample_run
             (Controller.start sample_run (mjoin sample_world) true)
             (Controller.MainLoop
                <$> [ broker_rpc {| Broker.currentWorld := [] |}
                        sample_workers [1; 0]%nat;
                      broker_rpc {| Broker.currentWorld := [] |}
                        flaky_workers [0; 2; 1]%nat;
                      broker_rpc {| Broker.currentWorld := [] |}
                        sample_workers [0; 1]%nat ]) in
  let c' := Controller.main_loop sample_run
              (broker_rpc {| Broker.currentWorld := [] |} [] []) c in
  let name := {| Controller.f_width := Controller.P_ImageWidth sample_run;
                 Controller.f_height := Controller.P_ImageHeight sample_run;
                 Controller.f_turn := Controller.Turns sample_run |} in
  Controller.returned c = false
  ∧ Controller.turn c = Controller.Turns sample_run
  ∧ Controller.events c'
    = Controller.events c
      ++ [ Controller.FinalTurnComplete (Controller.Turns sample_run)
             (Controller.getAliveCells (Controller.world c));
           Controller.ImageOutputComplete (Controller.Turns sample_run)
             name;
           Controller.StateChange (Controller.Turns sample_run)
             Controller.Quitting ]
  ∧ Controller.images c'
    = Controller.images c ++ [ (name, Controller.world c) ]
  ∧ Controller.world c' = Controller.world c
  ∧ Controller.turn c' = Controller.Turns sample_run
  ∧ Controller.returned c' = true
  ∧ Controller.crashed c' = false
  ∧ Controller.events_open c' = false
  ∧ Controller.done_open c' = false.
Proof.
  assert (Hsample : replies_grid sample_run
            (broker_rpc {| Broker.currentWorld := [] |} sample_workers
               [1; 0]%nat)).
  { apply broker_replies_grid;
      [simpl; lia | by vm_compute | simpl; lia | by vm_compute
      | unfold len; simpl; lia | by vm_compute | | apply perm_swap].
    apply Forall_cons; split; [intros t; by left|].
    apply Forall_cons; split; [intros t; by left|]. constructor. }
  assert (Hsample' : replies_grid sample_run
            (broker_rpc {| Broker.currentWorld := [] |} sample_workers
               [0; 1]%nat)).
  { apply broker_replies_grid;
      [simpl; lia | by vm_compute | simpl; lia | by vm_compute
      | unfold len; simpl; lia | by vm_compute | | done].
    apply Forall_cons; split; [intros t; by left|].
    apply Forall_cons; split; [intros t; by left|]. constructor. }
  assert (Hflaky : replies_grid sample_run
            (broker_rpc {| Broker.currentWorld := [] |} flaky_workers
               [0; 2; 1]%nat)).
  { apply broker_replies_grid;
      [simpl; lia | by vm_compute | simpl; lia | by vm_compute
      | unfold len; simpl; lia | by vm_compute |
      | apply perm_skip, perm_swap].
    apply Forall_cons; split; [intros t; by left|].
    apply Forall_cons; split; [intros t; right; by eexists|].
    apply Forall_cons; split; [intros t; by left|]. constructor. }
  apply (run_to_completion sample_run (mjoin sample_world)
           [ broker_rpc {| Broker.currentWorld := [] |}
               sample_workers [1; 0]%nat;
             broker_rpc {| Broker.currentWorld := [] |}
               flaky_workers [0; 2; 1]%nat;
             broker_rpc {| Broker.currentWorld := [] |}
               sample_workers [0; 1]%nat ]
           (broker_rpc {| Broker.currentWorld := [] |} [] []));
    [simpl; lia | simpl; lia | simpl; lia | by vm_compute | | reflexivity].
  repeat (apply Forall_cons; split; [done|]). constructor.
Defined.

(** *** Pause *)

Section Pause.

Import Controller.

Variable p : Params.







End Pause.



(** ** Registration of the workers *)

Lemma register_all_cons (dial : string → Registry.dialed) (a : string)
    (addresses : list string) (st : Registry.t) :
  Registry.register_all dial (a :: addresses) st
  = Registry.register_all dial addresses
      match dial a with
      | Registry.Connected call =>
          Registry.print
            ("Worker " +:+ a +:+ " registered successfully" +:+ newline)
            {| Registry.workerList :=
                 Registry.workerList st ++ [ {| addr := a; Call := call |} ];
               Registry.stdout := Registry.stdout st |}
      | Registry.Refused err =>
          Registry.print
            ("Register worker " +:+ a +:+ " failed" +:+ newline)
            (Registry.print
               ("Connect worker " +:+ a +:+ " failed: " +:+ err +:+ newline)
               st)
      end.
Proof.
  unfold Registry.register_all at 1. cbn [foldl].
  unfold Registry.registerWorker. by destruct (dial a).
Qed.

(** X19. The loop of [main] that registers the workers leaves in the
    registry one client for every address that could be dialled, in the
    order of the addresses, after the workers that were registered before,
    and none for the others. It prints one line for a worker that it
    registers and two for one that it cannot reach, and goes on to the next
    address in either case. *)
Theorem register_all_registry (dial : string → Registry.dialed)
    (addresses : list string) (st : Registry.t) :
  Registry.workerList (Registry.register_all dial addresses st)
  = Registry.workerList st
    ++ omap (λ a, match dial a with
                  | Registry.Connected call =>
                      Some {| addr := a; Call := call |}
                  | Registry.Refused _ => None
                  end) addresses
  ∧ Registry.stdout (Registry.register_all dial addresses st)
    = Registry.stdout st
      ++ mjoin ((λ a, match dial a with
                      | Registry.Connected _ =>
                          [ "Worker " +:+ a +:+ " registered successfully"
                            +:+ newline ]
                      | Registry.Refused err =>
                          [ "Connect worker " +:+ a +:+ " failed: " +:+ err
                            +:+ newline;
                            "Register worker " +:+ a +:+ " failed"
                            +:+ newline ]
                      end) <$> addresses).
Proof.
  revert st. induction addresses as [|a addresses IH]; intros st.
  - cbn. by rewrite !app_nil_r.
  - rewrite register_all_cons.
    cbn [omap list_omap fmap list_fmap].
    change (mjoin (?x :: ?l)) with (x ++ mjoin l).
    destruct (dial a) as [call|err];
      match goal with
      | |- context [Registry.register_all dial addresses ?s] =>
          destruct (IH s) as [-> ->]
      end;
      cbn [Registry.print Registry.workerList Registry.stdout];
      by rewrite <- ?app_assoc.
Qed.

(** X20. When no worker can be dialled the registry stays empty, and every
    turn that the broker is then asked for fails with "no workers
    available". *)
Theorem broker_without_workers (dial : string → Registry.dialed)
    (addresses : list string) (b : Broker.t) (sched : list nat)
    (params : WorldParams) :
  Forall (λ a, Registry.reachable dial a = false) addresses →
  0 ≤ ImageHeight params → 0 ≤ ImageWidth params →
  Registry.workerList
    (Registry.register_all dial addresses
       {| Registry.workerList := []; Registry.stdout := [] |}) = []
  ∧ Broker.ret
      (Broker.ProcessTurn b
         (Registry.workerList
            (Registry.register_all dial addresses
               {| Registry.workerList := []; Registry.stdout := [] |}))
         sched params)
    = Err "no workers available".
Proof.
  intros Hdial HH HW.
  assert (Hempty : ∀ st, Registry.workerList st = [] →
            Registry.workerList (Registry.register_all dial addresses st)
            = []).
  { induction Hdial as [|a addresses Ha Hdial IH]; intros st Hst; [done|].
    rewrite register_all_cons. unfold Registry.reachable in Ha.
    destruct (dial a) as [call|err]; [done|]. by apply IH. }
  rewrite Hempty by done. split; [done|].
  unfold Broker.ProcessTurn, Fan.dispatch.
  by rewrite new_world_Ok by done.
Qed.

Lemma broker_without_workers_witness :
  Registry.workerList
    (Registry.register_all (λ _, Registry.Refused "connection refused")
       Registry.workerAddresses
       {| Registry.workerList := []; Registry.stdout := [] |}) = []
  ∧ Broker.ret
      (Broker.ProcessTurn {| Broker.currentWorld := [] |}
         (Registry.workerList
            (Registry.register_all
               (λ _, Registry.Refused "connection refused")
               Registry.workerAddresses
               {| Registry.workerList := []; Registry.stdout := [] |}))
         [] sample_params)
    = Err "no workers available".
Proof.
  apply (broker_without_workers
           (λ _, Registry.Refused "connection refused")
           Registry.workerAddresses {| Broker.currentWorld := [] |} []
           sample_params);
    [by repeat constructor | simpl; lia | simpl; lia].
Defined.

(** ** Controller, broker and workers together *)

Section EndToEnd.

Import Controller.

Variable p : Params.
Variable b : Broker.t.
Variable ws : list WorkerClient.
Hypothesis HH : 1 ≤ P_ImageHeight p.
Hypothesis Hbuf : P_ImageHeight p + 2 ≤ max_len.
Hypothesis HW : 0 ≤ P_ImageWidth p.
Hypothesis HWmax : P_ImageWidth p ≤ max_len.
Hypothesis HTurns : Turns p ≤ Int.max.
Hypothesis HN : 1 ≤ len ws.
Hypothesis HNmax : len ws ≤ max_len.
Hypothesis Hws : Forall serves ws.

Local Abbreviation generation :=
  (λ g : grid, Spec.next_generation g (P_ImageWidth p) (P_ImageHeight p)).

Lemma serving_replies_grid (sched : list nat) :
  sched ≡ₚ seq 0 (length ws) → replies_grid p (broker_rpc b ws sched).
Proof.
  intros Hsched. apply broker_replies_grid; try (done || lia).
  eapply Forall_impl; [exact Hws|]. intros w Hw t. left. apply Hw.
Qed.

Lemma world_main_loop (sched : list nat) c :
  sched ≡ₚ seq 0 (length ws) →
  steady p c → Int.min ≤ turn c < Turns p →
  world (main_loop p (broker_rpc b ws sched) c) = generation (world c).
Proof.
  intros Hsched Hc Hturn.
  destruct (main_loop_steady p HTurns (broker_rpc b ws sched) c Hc Hturn
              (serving_replies_grid sched Hsched)) as (_ & _ & Hreply & _).
  pose proof Hc as (_ & _ & _ & _ & _ & Hlen & Hrect).
  assert (Hrpc : broker_rpc b ws sched (request p (world c))
                 = Ok (generation (world c))).
  { unfold broker_rpc, Broker.ProcessTurn.
    by rewrite (dispatch_serving (request p (world c)) ws sched) by done. }
  rewrite Hrpc in Hreply. congruence.
Qed.

Lemma world_run (scheds : list (list nat)) c :
  Forall (λ sched, sched ≡ₚ seq 0 (length ws)) scheds →
  steady p c → Int.min ≤ turn c →
  turn c + Z.of_nat (length scheds) ≤ Turns p →
  world (run p c (MainLoop <$> (broker_rpc b ws <$> scheds)))
  = Nat.iter (length scheds) generation (world c).
Proof.
  intros Hscheds. revert c.
  induction Hscheds as [|sched scheds Hsched Hscheds IH];
    intros c Hc Hmin Hturns; [done|].
  cbn [length] in Hturns.
  destruct (main_loop_steady p HTurns (broker_rpc b ws sched) c Hc
              ltac:(lia) (serving_replies_grid sched Hsched))
    as (Hc' & Hturn' & _).
  cbn [fmap list_fmap run foldl step length].
  fold (fmap (broker_rpc b ws) scheds).
  fold (fmap MainLoop (broker_rpc b ws <$> scheds)).
  fold (run p (main_loop p (broker_rpc b ws sched) c)
          (MainLoop <$> (broker_rpc b ws <$> scheds))).
  rewrite IH by (done || lia).
  rewrite world_main_loop by (done || lia).
  by rewrite Nat.iter_succ_r.
Qed.

End EndToEnd.

(** X21. The three programs together. With a broker whose workers all run
    worker.go, after [K] passes of the controller's loop the world that the
    controller holds is the [K]-th generation on the torus of the world that
    it read, whatever the order in which the workers answered in each turn;
    and its turn counter is [K]. *)
Theorem controller_runs_generations (p : Controller.Params)
    (input : list Z) (b : Broker.t) (ws : list WorkerClient)
    (scheds : list (list nat)) :
  1 ≤ Controller.P_ImageHeight p →
  Controller.P_ImageHeight p + 2 ≤ max_len →
  0 ≤ Controller.P_ImageWidth p → Controller.P_ImageWidth p ≤ max_len →
  Controller.P_ImageHeight p * Controller.P_ImageWidth p
    ≤ Z.of_nat (length input) →
  Controller.Turns p ≤ Int.max →
  1 ≤ len ws → len ws ≤ max_len →
  Forall serves ws →
  Forall (λ sched, sched ≡ₚ seq 0 (length ws)) scheds →
  Z.of_nat (length scheds) ≤ Controller.Turns p →
  Controller.world
    (Controller.run p (Controller.start p input true)
       (Controller.MainLoop <$> (broker_rpc b ws <$> scheds)))
  = Nat.iter (length scheds)
      (λ g, Spec.next_generation g (Controller.P_ImageWidth p)
              (Controller.P_ImageHeight p))
      (Controller.read_world (Z.to_nat (Controller.P_ImageHeight p))
         (Z.to_nat (Controller.P_ImageWidth p)) input)
  ∧ Controller.turn
      (Controller.run p (Controller.start p input true)
         (Controller.MainLoop <$> (broker_rpc b ws <$> scheds)))
    = Z.of_nat (length scheds).
Proof.
  intros HH Hbuf HW HWmax Hin HTurns HN HNmax Hws Hscheds HK.
  assert (Hstart : steady p (Controller.start p input true))
    by (apply start_steady; (done || lia)).
  assert (Hworld : Controller.world (Controller.start p input true)
                   = Controller.read_world
                       (Z.to_nat (Controller.P_ImageHeight p))
                       (Z.to_nat (Controller.P_ImageWidth p)) input).
  { unfold Controller.start. cbv zeta.
    destruct (collect_alive_Ok p _
                (sized_read_world p input ltac:(lia) HW Hin))
      as [alive ->].
    unfold Controller.emit. by case_bool_decide; cbn. }
  split.
  - rewrite (world_run p b ws HH Hbuf HW HWmax HTurns HN HNmax Hws)
      by (done || (rewrite turn_start; int_lia)).
    by rewrite Hworld.
  - destruct (run_steady p HTurns (broker_rpc b ws <$> scheds)
                (Controller.start p input true)) as [_ Hturn];
      [done| |by rewrite turn_start
      |rewrite turn_start, length_fmap; lia|].
    + apply Forall_fmap. eapply Forall_impl; [exact Hscheds|].
      intros sched Hsched. cbn [compose].
      by apply serving_replies_grid.
    + by rewrite Hturn, turn_start, length_fmap.
Qed.

Lemma controller_runs_generations_witness :
  Controller.world
    (Controller.run sample_run
       (Controller.start sample_run (mjoin sample_world) true)
       (Controller.MainLoop
          <$> (broker_rpc {| Broker.currentWorld := [] |} sample_workers
                 <$> [ [1; 0]%nat; [0; 1]%nat ])))
  = Nat.iter (length [ [1; 0]%nat; [0; 1]%nat ])
      (λ g, Spec.next_generation g (Controller.P_ImageWidth sample_run)
              (Controller.P_ImageHeight sample_run))
      (Controller.read_world
         (Z.to_nat (Controller.P_ImageHeight sample_run))
         (Z.to_nat (Controller.P_ImageWidth sample_run))
         (mjoin sample_world))
  ∧ Controller.turn
      (Controller.run sample_run
         (Controller.start sample_run (mjoin sample_world) true)
         (Controller.MainLoop
            <$> (broker_rpc {| Broker.currentWorld := [] |} sample_workers
                   <$> [ [1; 0]%nat; [0; 1]%nat ])))
    = Z.of_nat (length [ [1; 0]%nat; [0; 1]%nat ]).
Proof.
  apply (controller_runs_generations sample_run (mjoin sample_world)
           {| Broker.currentWorld := [] |} sample_workers
           [ [1; 0]%nat; [0; 1]%nat ]).
  - simpl; lia.
  - by vm_compute.
  - simpl; lia.
  - by vm_compute.
  - simpl; lia.
  - by vm_compute.
  - unfold len; simpl; lia.
  - by vm_compute.
  - apply Forall_cons; split; [by intros t|].
    apply Forall_cons; split; [by intros t|]. constructor.
  - apply Forall_cons; split; [apply perm_swap|].
    apply Forall_cons; split; [done|]. constructor.
  - simpl; lia.
Defined.

(** ** The keys *)

(** X22. The key [q], pressed while the loop runs, is handed to the main
    loop, which on its next pass ends the run as if all turns were done: it
    sends [FinalTurnComplete] with the current turn and the cells that are
    alive, saves the world under [WxHxturn], sends [ImageOutputComplete] and
    [StateChange{turn, Quitting}], closes the events channel and [done], and
    returns without calling the broker. *)
Theorem quit_key (p : Controller.Params) (c : Controller.t)
    (rpc : WorldParams → result grid) :
  steady p c →
  Controller.background c = true →
  Controller.doneClosed c = false →
  Controller.turn c < Controller.Turns p →
  let c1 := Controller.step p c (Controller.KeyPress "q") in
  let c2 := Controller.step p c1 (Controller.MainLoop rpc) in
  let name := {| Controller.f_width := Controller.P_ImageWidth p;
                 Controller.f_height := Controller.P_ImageHeight p;
                 Controller.f_turn := Controller.turn c |} in
  Controller.events c1 = Controller.events c
  ∧ Controller.events c2
    = Controller.events c
      ++ [ Controller.FinalTurnComplete (Controller.turn c)
             (Controller.getAliveCells (Controller.world c));
           Controller.ImageOutputComplete (Controller.turn c) name;
           Controller.StateChange (Controller.turn c) Controller.Quitting ]
  ∧ Controller.images c2
    = Controller.images c ++ [ (name, Controller.world c) ]
  ∧ Controller.world c2 = Controller.world c
  ∧ Controller.turn c2 = Controller.turn c
  ∧ Controller.controlKeys c2 = []
  ∧ Controller.returned c2 = true
  ∧ Controller.crashed c2 = false
  ∧ Controller.events_open c2 = false
  ∧ Controller.done_open c2 = false.
Proof.
  intros (Hr & Hcr & He & Hk & Hp & Hw) Hb Hd Hturn c1 c2 name.
  subst c1 c2 name. destruct c. cbn in Hr, Hcr, He, Hk, Hp, Hb, Hd, Hturn.
  subst. cbn. apply Z.ltb_lt in Hturn. rewrite Hturn. cbn.
  by rewrite <- !app_assoc.
Qed.

Lemma quit_key_witness :
  let c := Controller.start sample_run (mjoin sample_world) true in
  let c1 := Controller.step sample_run c (Controller.KeyPress "q") in
  let c2 := Controller.step sample_run c1
              (Controller.MainLoop
                 (broker_rpc {| Broker.currentWorld := [] |} sample_workers
                    [1; 0]%nat)) in
  let name := {| Controller.f_width := Controller.P_ImageWidth sample_run;
                 Controller.f_height := Controller.P_ImageHeight sample_run;
                 Controller.f_turn := Controller.turn c |} in
  Controller.events c1 = Controller.events c
  ∧ Controller.events c2
    = Controller.events c
      ++ [ Controller.FinalTurnComplete (Controller.turn c)
             (Controller.getAliveCells (Controller.world c));
           Controller.ImageOutputComplete (Controller.turn c) name;
           Controller.StateChange (Controller.turn c) Controller.Quitting ]
  ∧ Controller.images c2
    = Controller.images c ++ [ (name, Controller.world c) ]
  ∧ Controller.world c2 = Controller.world c
  ∧ Controller.turn c2 = Controller.turn c
  ∧ Controller.controlKeys c2 = []
  ∧ Controller.returned c2 = true
  ∧ Controller.crashed c2 = false
  ∧ Controller.events_open c2 = false
  ∧ Controller.done_open c2 = false.
Proof.
  apply (quit_key sample_run
           (Controller.start sample_run (mjoin sample_world) true)
           (broker_rpc {| Broker.currentWorld := [] |} sample_workers
              [1; 0]%nat));
    [apply start_steady; simpl; lia | reflexivity | reflexivity | by vm_compute].
Defined.

(** X23. The key [s] makes the main loop, on its next pass, save the world
    it holds under [WxHxturn] and send [ImageOutputComplete]; the game goes
    on from where it was. *)
Theorem save_key (p : Controller.Params) (c : Controller.t)
    (rpc : WorldParams → result grid) :
  steady p c →
  Controller.background c = true →
  Controller.turn c < Controller.Turns p →
  let c1 := Controller.step p c (Controller.KeyPress "s") in
  let c2 := Controller.step p c1 (Controller.MainLoop rpc) in
  let name := {| Controller.f_width := Controller.P_ImageWidth p;
                 Controller.f_height := Controller.P_ImageHeight p;
                 Controller.f_turn := Controller.turn c |} in
  Controller.events c2
  = Controller.events c
    ++ [ Controller.ImageOutputComplete (Controller.turn c) name ]
  ∧ Controller.images c2
    = Controller.images c ++ [ (name, Controller.world c) ]
  ∧ Controller.turn c2 = Controller.turn c
  ∧ steady p c2
  ∧ Controller.world c2 = Controller.world c.
Proof.
  intros (Hr & Hcr & He & Hk & Hp & Hw) Hb Hturn c1 c2 name.
  subst c1 c2 name. destruct c. cbn in Hr, Hcr, He, Hk, Hp, Hb, Hturn, Hw.
  subst. cbn. apply Z.ltb_lt in Hturn. rewrite Hturn. cbn.
  split; [done|]. split; [done|]. split; [done|]. split; [|done].
  by repeat (split; [done|]).
Qed.

Lemma save_key_witness :
  let c := Controller.start sample_run (mjoin sample_world) true in
  let c1 := Controller.step sample_run c (Controller.KeyPress "s") in
  let c2 := Controller.step sample_run c1
              (Controller.MainLoop
                 (broker_rpc {| Broker.currentWorld := [] |} sample_workers
                    [1; 0]%nat)) in
  let name := {| Controller.f_width := Controller.P_ImageWidth sample_run;
                 Controller.f_height := Controller.P_ImageHeight sample_run;
                 Controller.f_turn := Controller.turn c |} in
  Controller.events c2
  = Controller.events c
    ++ [ Controller.ImageOutputComplete (Controller.turn c) name ]
  ∧ Controller.images c2
    = Controller.images c ++ [ (name, Controller.world c) ]
  ∧ Controller.turn c2 = Controller.turn c
  ∧ steady sample_run c2
  ∧ Controller.world c2 = Controller.world c.
Proof.
  apply (save_key sample_run
           (Controller.start sample_run (mjoin sample_world) true)
           (broker_rpc {| Broker.currentWorld := [] |} sample_workers
              [1; 0]%nat));
    [apply start_steady; simpl; lia | reflexivity | by vm_compute].
Defined.

(** X24. The key [k] makes the main loop, on its next pass, save the world,
    close the connection to the broker, send [StateChange{turn, Quitting}]
    (and no [FinalTurnComplete]), close the events channel and [done], and
    return. *)
Theorem kill_key (p : Controller.Params) (c : Controller.t)
    (rpc : WorldParams → result grid) :
  steady p c →
  Controller.background c = true →
  Controller.doneClosed c = false →
  Controller.eventsClosed c = false →
  Controller.turn c < Controller.Turns p →
  let c1 := Controller.step p c (Controller.KeyPress "k") in
  let c2 := Controller.step p c1 (Controller.MainLoop rpc) in
  let name := {| Controller.f_width := Controller.P_ImageWidth p;
                 Controller.f_height := Controller.P_ImageHeight p;
                 Controller.f_turn := Controller.turn c |} in
  Controller.events c2
  = Controller.events c
    ++ [ Controller.ImageOutputComplete (Controller.turn c) name;
         Controller.StateChange (Controller.turn c) Controller.Quitting ]
  ∧ Controller.images c2
    = Controller.images c ++ [ (name, Controller.world c) ]
  ∧ Controller.turn c2 = Controller.turn c
  ∧ Controller.returned c2 = true
  ∧ Controller.crashed c2 = false
  ∧ Controller.client_open c2 = false
  ∧ Controller.events_open c2 = false
  ∧ Controller.done_open c2 = false.
Proof.
  intros (Hr & Hcr & He & Hk & Hp & Hw) Hb Hd Hec Hturn c1 c2 name.
  subst c1 c2 name.
  destruct c. cbn in Hr, Hcr, He, Hk, Hp, Hb, Hd, Hec, Hturn.
  subst. cbn. apply Z.ltb_lt in Hturn. rewrite Hturn. cbn.
  by rewrite <- !app_assoc.
Qed.

Lemma kill_key_witness :
  let c := Controller.start sample_run (mjoin sample_world) true in
  let c1 := Controller.step sample_run c (Controller.KeyPress "k") in
  let c2 := Controller.step sample_run c1
              (Controller.MainLoop
                 (broker_rpc {| Broker.currentWorld := [] |} sample_workers
                    [1; 0]%nat)) in
  let name := {| Controller.f_width := Controller.P_ImageWidth sample_run;
                 Controller.f_height := Controller.P_ImageHeight sample_run;
                 Controller.f_turn := Controller.turn c |} in
  Controller.events c2
  = Controller.events c
    ++ [ Controller.ImageOutputComplete (Controller.turn c) name;
         Controller.StateChange (Controller.turn c) Controller.Quitting ]
  ∧ Controller.images c2
    = Controller.images c ++ [ (name, Controller.world c) ]
  ∧ Controller.turn c2 = Controller.turn c
  ∧ Controller.returned c2 = true
  ∧ Controller.crashed c2 = false
  ∧ Controller.client_open c2 = false
  ∧ Controller.events_open c2 = false
  ∧ Controller.done_open c2 = false.
Proof.
  apply (kill_key sample_run
           (Controller.start sample_run (mjoin sample_world) true)
           (broker_rpc {| Broker.currentWorld := [] |} sample_workers
              [1; 0]%nat));
    [apply start_steady; simpl; lia | reflexivity | reflexivity | reflexivity | by vm_compute].
Defined.

(** X25. A key other than [p], [s], [q] and [k] is taken off the queue by
    the main loop and has no other effect: the pass of the loop that takes
    it calls no broker and sends nothing. *)
Theorem other_keys_ignored (p : Controller.Params) (c : Controller.t)
    (key : Ascii.ascii) (rpc : WorldParams → result grid) :
  steady p c →
  Controller.background c = true →
  Controller.turn c < Controller.Turns p →
  key ≠ "p"%char → key ≠ "s"%char → key ≠ "q"%char → key ≠ "k"%char →
  Controller.step p (Controller.step p c (Controller.KeyPress key))
    (Controller.MainLoop rpc) = c.
Proof.
  intros (Hr & Hcr & He & Hk & Hp & Hw) Hb Hturn Hnp Hns Hnq Hnk.
  apply Ascii.eqb_neq in Hnp, Hns, Hnq, Hnk.
  destruct c. cbn in Hr, Hcr, He, Hk, Hp, Hb, Hturn.
  subst. apply Z.ltb_lt in Hturn.
  cbn [Controller.step]. unfold Controller.key_goroutine. cbn.
  rewrite Hnp. cbn. rewrite Hturn.
  unfold Controller.handleKey. by rewrite Hns, Hnq, Hnk.
Qed.

Lemma other_keys_ignored_witness :
  Controller.step sample_run
    (Controller.step sample_run
       (Controller.start sample_run (mjoin sample_world) true)
       (Controller.KeyPress "x"))
    (Controller.MainLoop
       (broker_rpc {| Broker.currentWorld := [] |} sample_workers
          [1; 0]%nat))
  = Controller.start sample_run (mjoin sample_world) true.
Proof.
  apply (other_keys_ignored sample_run
           (Controller.start sample_run (mjoin sample_world) true) "x"
           (broker_rpc {| Broker.currentWorld := [] |} sample_workers
              [1; 0]%nat));
    [apply start_steady; simpl; lia | reflexivity | by vm_compute
    | done | done | done | done].
Defined.

(** ** The ticker *)

Section Ticker.

Import Controller.

Variable p : Params.
Hypothesis HTurns : Turns p ≤ Int.max.

Lemma background_emit e c : background (emit e c) = background c.
Proof. unfold emit. by destruct (crashed c), (events_open c). Qed.

Lemma done_open_emit e c : done_open (emit e c) = done_open c.
Proof. unfold emit. by destruct (crashed c), (events_open c). Qed.

(** A successful turn leaves the two background goroutines running. *)
Lemma ticking_main_loop rpc c :
  steady p c → Int.min ≤ turn c < Turns p → replies_grid p rpc →
  background (main_loop p rpc c) = background c
  ∧ done_open (main_loop p rpc c) = done_open c.
Proof.
  intros Hc Hturn Hrpc.
  pose proof Hc as (Hr & Hcr & He & Hk & Hp & Hw).
  destruct (Hrpc (world c) Hw) as (g & Hg & Hsized).
  destruct (collect_differ_Ok p (world c) g Hw Hsized) as [flipped Hfl].
  unfold request in Hg.
  unfold main_loop. rewrite Hr, Hk, Hp.
  destruct (turn c <? Turns p) eqn:E; [|lia].
  unfold advance. rewrite Hg, Hfl.
  case_bool_decide; by rewrite !background_emit, !done_open_emit.
Qed.

Lemma ticking_run (rpcs : list (WorldParams → result grid)) c :
  steady p c → Forall (replies_grid p) rpcs →
  Int.min ≤ turn c →
  turn c + Z.of_nat (length rpcs) ≤ Turns p →
  background (run p c (MainLoop <$> rpcs)) = background c
  ∧ done_open (run p c (MainLoop <$> rpcs)) = done_open c.
Proof.
  revert c.
  induction rpcs as [|rpc rpcs IH]; intros c Hc Hrpcs Hmin Hturns; [done|].
  apply Forall_cons in Hrpcs as [Hrpc Hrpcs].
  cbn [length] in Hturns.
  destruct (main_loop_steady p HTurns rpc c Hc ltac:(lia) Hrpc)
    as (Hc' & Hturn' & _).
  destruct (ticking_main_loop rpc c Hc ltac:(lia) Hrpc) as [Hb Hd].
  cbn [fmap list_fmap run foldl step]. fold (fmap MainLoop rpcs).
  fold (run p (main_loop p rpc c) (MainLoop <$> rpcs)).
  destruct (IH (main_loop p rpc c)) as [-> ->]; (done || lia).
Qed.

Lemma ticking_start input :
  0 ≤ P_ImageHeight p → 0 ≤ P_ImageWidth p →
  P_ImageHeight p * P_ImageWidth p ≤ Z.of_nat (length input) →
  background (start p input true) = true
  ∧ done_open (start p input true) = true.
Proof.
  intros HH HW Hin. unfold start. cbv zeta.
  destruct (collect_alive_Ok p _ (sized_read_world p input HH HW Hin))
    as [alive ->].
  cbn [set_background background done_open].
  rewrite done_open_emit. case_bool_decide; by rewrite ?done_open_emit.
Qed.

End Ticker.

Lemma len_join_rectangular (W : Z) (g : grid) :
  rectangular W g → len (mjoin g) = len g * W.
Proof.
  unfold rectangular, len. induction 1 as [|r g Hr Hg IH]; [done|].
  change (mjoin (r :: g)) with (r ++ mjoin g).
  rewrite length_app. cbn [length]. lia.
Qed.

(** X26. The ticker and the turns.  After [K] turns with a broker whose
    workers all run worker.go, a tick of the ticker sends one event,
    [AliveCellsCount], with the turn [K] and the number of cells that
    are alive in the [K]-th generation of the world that was read: the
    turn and the count that an event reports belong together. *)
Theorem ticker_reports_generation (p : Controller.Params)
    (input : list Z) (b : Broker.t) (ws : list WorkerClient)
    (scheds : list (list nat)) :
  1 ≤ Controller.P_ImageHeight p →
  Controller.P_ImageHeight p + 2 ≤ max_len →
  0 ≤ Controller.P_ImageWidth p → Controller.P_ImageWidth p ≤ max_len →
  Controller.P_ImageHeight p * Controller.P_ImageWidth p
    ≤ Z.of_nat (length input) →
  Controller.P_ImageHeight p * Controller.P_ImageWidth p ≤ Int.max →
  Controller.Turns p ≤ Int.max →
  1 ≤ len ws → len ws ≤ max_len →
  Forall serves ws →
  Forall (λ sched, sched ≡ₚ seq 0 (length ws)) scheds →
  Z.of_nat (length scheds) ≤ Controller.Turns p →
  Controller.events
    (Controller.step p
       (Controller.run p (Controller.start p input true)
          (Controller.MainLoop <$> (broker_rpc b ws <$> scheds)))
       Controller.Tick)
  = Controller.events
      (Controller.run p (Controller.start p input true)
         (Controller.MainLoop <$> (broker_rpc b ws <$> scheds)))
    ++ [ Controller.AliveCellsCount (Z.of_nat (length scheds))
           (alive_cells
              (Nat.iter (length scheds)
                 (λ g, Spec.next_generation g (Controller.P_ImageWidth p)
                         (Controller.P_ImageHeight p))
                 (Controller.read_world
                    (Z.to_nat (Controller.P_ImageHeight p))
                    (Z.to_nat (Controller.P_ImageWidth p)) input))) ].
Proof.
  intros HH Hbuf HW HWmax Hin Hcells HTurns HN HNmax Hws Hscheds HK.
  assert (Hstart : steady p (Controller.start p input true))
    by (apply start_steady; (done || lia)).
  assert (Hrpcs : Forall (replies_grid p) (broker_rpc b ws <$> scheds)).
  { apply Forall_fmap. eapply Forall_impl; [exact Hscheds|].
    intros sched Hsched. cbn [compose].
    by apply serving_replies_grid. }
  assert (Hworld : Controller.world (Controller.start p input true)
                   = Controller.read_world
                       (Z.to_nat (Controller.P_ImageHeight p))
                       (Z.to_nat (Controller.P_ImageWidth p)) input).
  { unfold Controller.start. cbv zeta.
    destruct (collect_alive_Ok p _
                (sized_read_world p input ltac:(lia) HW Hin))
      as [alive ->].
    unfold Controller.emit. by case_bool_decide; cbn. }
  pose proof (world_run p b ws HH Hbuf HW HWmax HTurns HN HNmax Hws
                scheds (Controller.start p input true) Hscheds Hstart)
    as Hrun.
  rewrite turn_start, Hworld in Hrun.
  specialize (Hrun ltac:(done) ltac:(lia)).
  destruct (run_steady p HTurns (broker_rpc b ws <$> scheds)
              (Controller.start p input true)) as [Hc Hturn];
    [done|done|by rewrite turn_start
    |rewrite turn_start, length_fmap; lia|].
  rewrite turn_start, length_fmap, Z.add_0_l in Hturn.
  destruct (ticking_run p HTurns (broker_rpc b ws <$> scheds)
              (Controller.start p input true)) as [Hb Hd];
    [done|done|by rewrite turn_start
    |rewrite turn_start, length_fmap; lia|].
  destruct (ticking_start p input ltac:(lia) HW Hin) as [Hb0 Hd0].
  rewrite Hb0 in Hb. rewrite Hd0 in Hd.
  pose proof Hc as (Hr & Hcr & He & Hk & Hp & Hlen & Hrect).
  cbn [Controller.step]. unfold Controller.poller.
  rewrite Hb, Hcr, Hd. cbn [negb orb].
  rewrite events_emit by done. rewrite Hturn.
  do 3 f_equal. unfold Controller.countAlive.
  rewrite count_grid;
    [by rewrite Hrun|int_lia
    |rewrite (len_join_rectangular _ _ Hrect), Hlen; lia].
Qed.

Lemma ticker_reports_generation_witness :
  Controller.events
    (Controller.step sample_run
       (Controller.run sample_run
          (Controller.start sample_run (mjoin sample_world) true)
          (Controller.MainLoop
             <$> (broker_rpc {| Broker.currentWorld := [] |} sample_workers
                    <$> [ [1; 0]%nat; [0; 1]%nat ])))
       Controller.Tick)
  = Controller.events
      (Controller.run sample_run
         (Controller.start sample_run (mjoin sample_world) true)
         (Controller.MainLoop
            <$> (broker_rpc {| Broker.currentWorld := [] |} sample_workers
                   <$> [ [1; 0]%nat; [0; 1]%nat ])))
    ++ [ Controller.AliveCellsCount
           (Z.of_nat (length [ [1; 0]%nat; [0; 1]%nat ]))
           (alive_cells
              (Nat.iter (length [ [1; 0]%nat; [0; 1]%nat ])
                 (λ g, Spec.next_generation g
                         (Controller.P_ImageWidth sample_run)
                         (Controller.P_ImageHeight sample_run))
                 (Controller.read_world
                    (Z.to_nat (Controller.P_ImageHeight sample_run))
                    (Z.to_nat (Controller.P_ImageWidth sample_run))
                    (mjoin sample_world)))) ].
Proof.
  apply (ticker_reports_generation sample_run (mjoin sample_world)
           {| Broker.currentWorld := [] |} sample_workers
           [ [1; 0]%nat; [0; 1]%nat ]).
  - simpl; lia.
  - by vm_compute.
  - simpl; lia.
  - by vm_compute.
  - simpl; lia.
  - by vm_compute.
  - by vm_compute.
  - unfold len; simpl; lia.
  - by vm_compute.
  - apply Forall_cons; split; [by intros t|].
    apply Forall_cons; split; [by intros t|]. constructor.
  - apply Forall_cons; split; [apply perm_swap|].
    apply Forall_cons; split; [done|]. constructor.
  - simpl; lia.
Defined.
